(** * sentinel-visor: gap auditor, message processor and miner state diffing

    A shallow embedding of
      - chain/gap/find.go and chain/gap/fill.go (gap indexer and gap filler),
      - the message processor (processBatch, extractMessageModels),
      - model/messages (insert-if-absent persistence of messages),
      - chain/actors/builtin/miner/diff.go (pre-commit and sector diffing),
      - tasks/actorstate/verifreg.go (the verified registry extractor),
    together with the properties of these functions.

    Conventions: Go's [int64] is [Z] with the wrap-around written out, a Go
    [error] is the [Err] branch of [result], a panic of the message processor
    is the [Panics] branch of [outcome], a [cid.Cid] is the string it prints
    as, and the raw bytes of a [cbg.Deferred] are a [list Byte.byte]. *)

From stdpp Require Import gmap strings list fin_maps sorting list_numbers pretty.
From Stdlib Require Import ZArith Lia.
From Stdlib.Strings Require Import Byte Ascii.

Local Open Scope string_scope.
Local Open Scope list_scope.
Local Open Scope Z_scope.

(** ** Errors and machine integers *)

Inductive result (A : Type) : Type :=
| Ok (a : A)
| Err (e : string).
Arguments Ok {A} a.
Arguments Err {A} e.

#[global] Instance result_ret : MRet result := λ A a, Ok a.
#[global] Instance result_bind : MBind result := λ A B k r,
  match r with
  | Ok a => k a
  | Err e => Err e
  end.

Definition is_Ok {A} (r : result A) : bool :=
  match r with Ok _ => true | Err _ => false end.

(** xerrors.Errorf("<prefix>: %w", err) *)
Definition wrapErr {A} (prefix : string) (r : result A) : result A :=
  match r with
  | Ok a => Ok a
  | Err e => Err (prefix +:+ ": " +:+ e)
  end.

Definition min_int64 : Z := - 2 ^ 63.
Definition max_int64 : Z := 2 ^ 63 - 1.

Definition is_int64 (z : Z) : Prop := min_int64 ≤ z ≤ max_int64.

(** Two's complement wrap-around of a 64-bit signed integer. *)
Definition int64_wrap (z : Z) : Z := (z + 2 ^ 63) `mod` 2 ^ 64 - 2 ^ 63.

#[global] Instance byte_eq_dec : EqDecision Byte.byte := Byte.byte_eq_dec.

(** ** model/visor: rows of the completion store and of the gap ledger *)

Module visor.

Module ProcessingReport.
(** Modelled from the spec: the declaration of [visor.ProcessingReport] is
    not among the sources; the fields are the ones find.go reads (the
    height, the task and the status of a completion record). *)
Record t := mk { Height : Z; Task : string; Status : string }.
End ProcessingReport.

(** Modelled from the spec: the status constant of a completion record that
    is "explicitly marked skip". *)
Definition ProcessingStatusSkip : string := "SKIP".

Module GapReport.
(** A row of visor_gap_reports; primary key (height, tip_set, task). *)
Record t := mk {
  Height : Z;
  TipSet : string;
  Task : string;
  Status : string;
  Reporter : string;
  ReportedAt : Z
}.

Definition pk (g : t) : Z * string * string := (Height g, TipSet g, Task g).

Definition samePK (a b : t) : bool := bool_decide (pk a = pk b).

(** [gap.Status = s] on the in-memory record. *)
Definition setStatus (s : string) (g : t) : t :=
  mk (Height g) (TipSet g) (Task g) s (Reporter g) (ReportedAt g).
End GapReport.

End visor.

(** ** storage.Database, as far as the gap auditor reads and writes it *)

Module storage.
Import visor.

Record Database := mkDatabase {
  processing_reports : list ProcessingReport.t;
  gap_reports : list GapReport.t;
  (** the error every statement returns while the store cannot be reached *)
  down : option string
}.

Definition exec {A} (db : Database) (rows : A) : result A :=
  match down db with
  | Some e => Err e
  | None => Ok rows
  end.

(** ORDER BY height DESC *)
Definition heightDescPR (a b : ProcessingReport.t) : Prop :=
  ProcessingReport.Height b ≤ ProcessingReport.Height a.
Definition heightDescGR (a b : GapReport.t) : Prop :=
  GapReport.Height b ≤ GapReport.Height a.
#[global] Instance heightDescPR_dec : RelDecision heightDescPR :=
  λ a b, decide (ProcessingReport.Height b ≤ ProcessingReport.Height a).
#[global] Instance heightDescGR_dec : RelDecision heightDescGR :=
  λ a b, decide (GapReport.Height b ≤ GapReport.Height a).

(** DISTINCT ON (height) over rows already ordered by height: one row is
    kept for every run of equal heights. *)
Fixpoint distinctOnHeight (rows : list ProcessingReport.t) : list ProcessingReport.t :=
  match rows with
  | [] => []
  | r :: rest =>
      match rest with
      | [] => [r]
      | r' :: _ =>
          if ProcessingReport.Height r =? ProcessingReport.Height r'
          then distinctOnHeight rest
          else r :: distinctOnHeight rest
      end
  end.

(** Model(&reportHeights).Order("height desc").DistinctOn("height").Select() *)
Definition selectReportHeights (db : Database) : result (list ProcessingReport.t) :=
  exec db (distinctOnHeight (merge_sort heightDescPR (processing_reports db))).

(** Model(&skippedReports).Order("height desc").Where("status = ?", skip).Select() *)
Definition selectSkippedReports (db : Database) : result (list ProcessingReport.t) :=
  exec db (merge_sort heightDescPR
    (filter (λ r, ProcessingReport.Status r = ProcessingStatusSkip) (processing_reports db))).

(** Model(&out).Order("height desc").Where(...).Select() on the gap ledger;
    [P] is the conjunction of the Where clauses. *)
Definition selectGaps (db : Database) (P : GapReport.t → Prop)
    `{!∀ r, Decision (P r)} : result (list GapReport.t) :=
  exec db (merge_sort heightDescGR (filter P (gap_reports db))).

(** Model(&gaps).WherePK().Update(): every stored row whose primary key is
    the key of one of [gaps] takes the columns of that record. *)
Definition updateByPK (db : Database) (gaps : list GapReport.t) : result Database :=
  exec db (mkDatabase
    (processing_reports db)
    ((λ row, default row (head (filter (λ g, GapReport.samePK g row = true) gaps)))
       <$> gap_reports db)
    (down db)).

End storage.

(** ** lens.API and the chain package, as far as the gap auditor calls them *)

Module types.
Module TipSet.
(** [Key] is [ts.Key().String()], [Cids] the block CIDs [ts.Cids()], one
    for each block of [ts.Blocks()], [ParentState] is
    [ts.ParentState().String()] and [ParentBaseFee] is
    [ts.Blocks()[0].ParentBaseFee], for a tipset that has a block. *)
Record t := mk {
  Height : Z;
  Key : string;
  Cids : list string;
  ParentState : string;
  ParentBaseFee : Z
}.
End TipSet.

(** types.Message; [Cid] and [Serialize] are the results of the methods of
    these names. *)
Module Message.
Record t := mk {
  Cid : string;
  From : string;
  To : string;
  Value : string;
  GasFeeCap : string;
  GasPremium : string;
  GasLimit : Z;
  Nonce : N;
  Method : N;
  Params : list Byte.byte;
  Serialize : result (list Byte.byte)
}.
End Message.

Module SignedMessage.
Record t := mk { Message : Message.t; Signature : list Byte.byte }.
End SignedMessage.

Module MessageReceipt.
Record t := mk { ExitCode : Z; Return : list Byte.byte; GasUsed : Z }.
End MessageReceipt.
End types.

Module api.
Module BlockMessages.
Record t := mk {
  BlsMessages : list types.Message.t;
  SecpkMessages : list types.SignedMessage.t;
  Cids : list string
}.
End BlockMessages.

(** api.Message: a message with its CID. *)
Module Message.
Record t := mk { Cid : string; Message : types.Message.t }.
End Message.
End api.

Module lens.
Record API := mkAPI {
  ChainGetTipSetByHeight : Z → result types.TipSet.t;
  ChainGetTipSet : string → result types.TipSet.t;
  ChainGetBlockMessages : string → result api.BlockMessages.t;
  ChainGetParentReceipts : string → result (list types.MessageReceipt.t);
  ChainGetParentMessages : string → result (list api.Message.t)
}.
End lens.

Module chain.
(** The chain package is not among the sources: the task list, the indexer
    constructor and the walker are parameters of the model.  The indexer
    is built on the store handle of the filler and persists what the
    re-drive extracts through it; these writes are not modelled: the model
    follows what the gap auditor itself reads and writes, and of a re-drive
    only whether it succeeded. *)
Record TipSetIndexer := mkIndexer { name : string; tasks : list string }.

Record API := mkAPI {
  AllTasks : list string;
  NewTipSetIndexer : string → list string → result TipSetIndexer;
  (** chain.NewWalker(indexer, opener, minHeight, maxHeight).Run(ctx) *)
  Walker_Run : TipSetIndexer → Z → Z → result unit
}.
End chain.

(** ** chain/gap: find.go and fill.go *)

Module gap.
Import visor storage.

(** [for gap := lo; gap < hi; gap++ { maybeGap = append(maybeGap, gap) }],
    one iteration per unit of fuel. *)
Fixpoint appendRange (fuel : nat) (gap hi : Z) (maybeGap : list Z) : list Z :=
  match fuel with
  | O => maybeGap
  | S fuel =>
      if gap <? hi
      then appendRange fuel (int64_wrap (gap + 1)) hi (maybeGap ++ [gap])
      else maybeGap
  end.

(** The number of iterations after which the loop from [lo] has left its
    guard [gap < hi] (see [appendRange_fuel]). *)
Definition rangeFuel (lo hi : Z) : nat := Z.to_nat (hi - lo).

(** The loop [for idx := 1; idx < len(prs); idx++] of findEpochGaps;
    [prev] is the report before [rest]. *)
Fixpoint scanPairs (prev : ProcessingReport.t) (rest : list ProcessingReport.t)
    (maybeGap : list Z) : list Z :=
  match rest with
  | [] => maybeGap
  | cur :: rest =>
      let lo := int64_wrap (ProcessingReport.Height cur + 1) in
      let hi := ProcessingReport.Height prev in
      scanPairs cur rest (appendRange (rangeFuel lo hi) lo hi maybeGap)
  end.

(** sort.Slice(maybeGap, func(i, j) bool { return maybeGap[i] < maybeGap[j] });
    a list of integers has one ascending arrangement, whatever the
    algorithm. *)
Definition sortAscending (l : list Z) : list Z := merge_sort Z.le l.

Definition findEpochGaps (prs : list ProcessingReport.t) : list Z :=
  match prs with
  | [] => []
  | first :: rest =>
      let maybeGap := scanPairs first rest [] in
      (* prs[len(prs)-1] *)
      let oldest := ProcessingReport.Height (default first (last rest)) in
      let maybeGap := appendRange (rangeFuel 0 oldest) 0 oldest maybeGap in
      sortAscending maybeGap
  end.

Definition newGapReport (height : Z) (tipset task : string) (reportTime : Z) : GapReport.t :=
  GapReport.mk height tipset task "GAP" "gapIndexer" reportTime.

(** The loop over the candidate heights in detectProcessingGaps. *)
Fixpoint walkGaps (node : lens.API) (allTasks : list string) (reportTime : Z)
    (gaps : list Z) (gapReport : list GapReport.t) : result (list GapReport.t) :=
  match gaps with
  | [] => Ok gapReport
  | gh :: gaps =>
      tsgap ← wrapErr ("getting tipset by height " +:+ pretty gh)
                (lens.ChainGetTipSetByHeight node gh);
      if types.TipSet.Height tsgap =? gh
      then walkGaps node allTasks reportTime gaps
             (gapReport ++
                ((λ task, newGapReport (types.TipSet.Height tsgap) (types.TipSet.Key tsgap)
                            task reportTime) <$> allTasks))
      else walkGaps node allTasks reportTime gaps gapReport
  end.

Definition detectProcessingGaps (db : Database) (node : lens.API)
    (allTasks : list string) (reportTime : Z) : result (list GapReport.t) :=
  reportHeights ← wrapErr "query processing report heights" (selectReportHeights db);
  walkGaps node allTasks reportTime (findEpochGaps reportHeights) [].

(** The loop over the skipped reports in detectSkippedTipSets; the slice
    [gapReport] is filled index by index. *)
Fixpoint walkSkipped (node : lens.API) (reportTime : Z)
    (skippedReports : list ProcessingReport.t) : result (list GapReport.t) :=
  match skippedReports with
  | [] => Ok []
  | r :: skippedReports =>
      tsgap ← wrapErr ("getting tipset by height " +:+ pretty (ProcessingReport.Height r))
                (lens.ChainGetTipSetByHeight node (ProcessingReport.Height r));
      rest ← walkSkipped node reportTime skippedReports;
      Ok (newGapReport (ProcessingReport.Height r) (types.TipSet.Key tsgap)
            (ProcessingReport.Task r) reportTime :: rest)
  end.

Definition detectSkippedTipSets (db : Database) (node : lens.API) (reportTime : Z)
    : result (list GapReport.t) :=
  skippedReports ← wrapErr "query processing report skips" (selectSkippedReports db);
  walkSkipped node reportTime skippedReports.

(** *** fill.go *)

Record GapFiller := mkGapFiller { DB : Database; tasks : list string }.

Definition queryGaps (g : GapFiller) : result (list GapReport.t) :=
  match tasks g with
  | _ :: _ =>
      wrapErr "querying gap reports"
        (selectGaps (DB g) (λ r, GapReport.Status r = "GAP" ∧ GapReport.Task r ∈ tasks g))
  | [] =>
      wrapErr "querying gap reports"
        (selectGaps (DB g) (λ r, GapReport.Status r = "GAP"))
  end.

Definition updateGaps (g : GapFiller) (gaps : list GapReport.t) : result Database :=
  match gaps with
  | [] => Ok (DB g)
  | _ => updateByPK (DB g) gaps
  end.

(** The body of the loop of GapFiller.Run: the re-drive of one gap. *)
Definition fillGap (c : chain.API) (now : Z) (gap : GapReport.t) : GapReport.t :=
  match chain.NewTipSetIndexer c ("gapfill_" +:+ pretty now) [GapReport.Task gap] with
  | Err e => GapReport.setStatus e gap
  | Ok indexer =>
      match chain.Walker_Run c indexer (GapReport.Height gap) (GapReport.Height gap) with
      | Err e => GapReport.setStatus e gap
      | Ok _ => GapReport.setStatus "FILLED" gap
      end
  end.

(** GapFiller.Run; the result is the store after the run, or the error
    returned (the store is then as it was). *)
Definition Run (g : GapFiller) (c : chain.API) (now : Z) : result Database :=
  gaps ← queryGaps g;
  updateGaps g (fillGap c now <$> gaps).

End gap.

(** ** specs-actors: the actor code identifiers diff.go compares with

    The builtin actor code of version n is the identity CID of the name
    "fil/n/<actor>"; the CID is represented by that name. *)

Module builtin0.
Definition StorageMinerActorCodeID : string := "fil/1/storageminer".
Definition StorageMarketActorCodeID : string := "fil/1/storagemarket".
End builtin0.

Module builtin2.
Definition StorageMinerActorCodeID : string := "fil/2/storageminer".
Definition StorageMarketActorCodeID : string := "fil/2/storagemarket".
End builtin2.

Module builtin3.
Definition StorageMinerActorCodeID : string := "fil/3/storageminer".
End builtin3.

Module builtin4.
Definition StorageMinerActorCodeID : string := "fil/4/storageminer".
End builtin4.

Module miner3.
Definition SectorsAmtBitwidth : Z := 5.
End miner3.

Module miner4.
Definition SectorsAmtBitwidth : Z := 5.
End miner4.

(** ** chain/actors/adt and chain/actors/adt/diff *)

(** cbg.Deferred: the raw serialized bytes of a value. *)
Abbreviation Deferred := (list Byte.byte).

Module adt.

(** Modelled from the spec: adt.MapOpts is not among the sources; a map is
    "parameterized by a hash function and a branching width", and two
    options are equal when both parameters are.  The hash function is
    represented by its name. *)
Record MapOpts := mkMapOpts { Bitwidth : Z; HashFunc : string }.

Definition MapOpts_Equal (m o : MapOpts) : bool :=
  bool_decide (Bitwidth m = Bitwidth o) && bool_decide (HashFunc m = HashFunc o).

(** The contents of an adt.Map (a HAMT keyed by strings) and of an
    adt.Array (an AMT keyed by uint64). *)
Abbreviation Map := (gmap string Deferred).
Abbreviation Array := (gmap N Deferred).

End adt.

Module diff.

Inductive ChangeType := Add | Remove | Modify.

#[global] Instance ChangeType_eq_dec : EqDecision ChangeType.
Proof. solve_decision. Defined.

(** hamt.Change (string keys) and amt.Change (uint64 keys). *)
Record Change (K : Type) := mkChange {
  Type_ : ChangeType;
  Key : K;
  Before : Deferred;
  After : Deferred
}.
Arguments mkChange {K}.
Arguments Type_ {K}.
Arguments Key {K}.
Arguments Before {K}.
Arguments After {K}.

(** The interfaces AdtMapDiff and AdtArrayDiff: the callbacks of a diff
    container [C] with keys [K]; a callback returns the updated container
    or an error. *)
Class AdtDiff (K C : Type) := {
  onAdd : K → Deferred → C → result C;
  onModify : K → Deferred → Deferred → C → result C;
  onRemove : K → Deferred → C → result C
}.

(** The loop [for _, change := range changes { switch change.Type ... }]
    of DiffPreCommits and of DiffSectors. *)
Fixpoint applyChanges {K C} `{!AdtDiff K C} (changes : list (Change K)) (c : C) : result C :=
  match changes with
  | [] => Ok c
  | change :: changes =>
      c ← match Type_ change with
          | Add => onAdd (Key change) (After change) c
          | Remove => onRemove (Key change) (Before change) c
          | Modify => onModify (Key change) (Before change) (After change) c
          end;
      applyChanges changes c
  end.

(** The four diffing functions of chain/actors/adt/diff are not among the
    sources; DiffPreCommits and DiffSectors take them as parameters. *)
Record Engine := mkEngine {
  GenericMap : ∀ C, AdtDiff string C → adt.Map → adt.Map → C → result C;
  Hamt : adt.Map → adt.Map → adt.MapOpts → result (list (Change string));
  GenericArray : ∀ C, AdtDiff N C → adt.Array → adt.Array → C → result C;
  Amt : adt.Array → adt.Array → Z → result (list (Change N))
}.

(** Modelled from the spec: the classification both strategies compute.
    "A key present only on the new side → Added; present only on the old
    side → Removed; present on both with different serialized bytes →
    Modified"; the old side is walked first, then the new side. *)
Definition classify {K} `{Countable K} (pre cur : gmap K Deferred) : list (Change K) :=
  omap (λ '(k, before),
          match cur !! k with
          | None => Some (mkChange Remove k before [])
          | Some after =>
              if decide (before = after) then None
              else Some (mkChange Modify k before after)
          end) (map_to_list pre)
  ++ omap (λ '(k, after),
             match pre !! k with
             | None => Some (mkChange Add k [] after)
             | Some _ => None
             end) (map_to_list cur).

(** Modelled from the spec: generic diffing materializes both containers
    and reports the classification to the container's callbacks;
    structural diffing returns the same classification as a change list. *)
Definition spec_engine : Engine := {|
  GenericMap C _ pre cur c := applyChanges (classify pre cur) c;
  Hamt pre cur _ := Ok (classify pre cur);
  GenericArray C _ pre cur c := applyChanges (classify pre cur) c;
  Amt pre cur _ := Ok (classify pre cur)
|}.

End diff.

(** ** chain/actors/builtin/miner: diff.go *)

Module miner.
Import adt diff.

(** The on-chain records; their declarations are not among the sources. *)
Module SectorOnChainInfo.
Record t := mk {
  SectorNumber : N;
  SealedCID : string;
  DealIDs : list N;
  Activation : Z;
  Expiration : Z;
  DealWeight : Z;
  VerifiedDealWeight : Z;
  InitialPledge : Z
}.
End SectorOnChainInfo.

Module SectorPreCommitOnChainInfo.
Record t := mk {
  SectorNumber : N;
  SealedCID : string;
  Expiration : Z;
  PreCommitDeposit : Z;
  PreCommitEpoch : Z
}.
End SectorPreCommitOnChainInfo.

Record SectorExtensions := mkSectorExtensions {
  From : SectorOnChainInfo.t;
  To : SectorOnChainInfo.t
}.

Module SectorChanges.
Record t := mk {
  Added : list SectorOnChainInfo.t;
  Extended : list SectorExtensions;
  Removed : list SectorOnChainInfo.t
}.
End SectorChanges.

Module PreCommitChanges.
Record t := mk {
  Added : list SectorPreCommitOnChainInfo.t;
  Removed : list SectorPreCommitOnChainInfo.t
}.
End PreCommitChanges.

(** The State interface, as far as diff.go calls it. *)
Record State := mkState {
  Code : string;
  precommits : result Map;
  sectors : result Array;
  decodeSectorPreCommitOnChainInfo : Deferred → result SectorPreCommitOnChainInfo.t;
  decodeSectorOnChainInfo : Deferred → result SectorOnChainInfo.t
}.

(** *** Pre-commits *)

Record preCommitDiffContainer := mkPreCommitDiffContainer {
  pc_Results : PreCommitChanges.t;
  pc_pre : State;
  pc_after : State
}.

Definition NewPreCommitDiffContainer (pre cur : State) : preCommitDiffContainer :=
  mkPreCommitDiffContainer (PreCommitChanges.mk [] []) pre cur.

Definition preCommitDiffContainer_Add (key : string) (val : Deferred)
    (m : preCommitDiffContainer) : result preCommitDiffContainer :=
  sp ← decodeSectorPreCommitOnChainInfo (pc_after m) val;
  Ok (mkPreCommitDiffContainer
        (PreCommitChanges.mk (PreCommitChanges.Added (pc_Results m) ++ [sp])
                             (PreCommitChanges.Removed (pc_Results m)))
        (pc_pre m) (pc_after m)).

Definition preCommitDiffContainer_Modify (key : string) (from to : Deferred)
    (m : preCommitDiffContainer) : result preCommitDiffContainer :=
  Ok m.

Definition preCommitDiffContainer_Remove (key : string) (val : Deferred)
    (m : preCommitDiffContainer) : result preCommitDiffContainer :=
  sp ← decodeSectorPreCommitOnChainInfo (pc_pre m) val;
  Ok (mkPreCommitDiffContainer
        (PreCommitChanges.mk (PreCommitChanges.Added (pc_Results m))
                             (PreCommitChanges.Removed (pc_Results m) ++ [sp]))
        (pc_pre m) (pc_after m)).

#[global] Instance preCommitDiffContainer_AdtMapDiff : AdtDiff string preCommitDiffContainer := {|
  onAdd := preCommitDiffContainer_Add;
  onModify := preCommitDiffContainer_Modify;
  onRemove := preCommitDiffContainer_Remove
|}.

Definition mapRequiresLegacyDiffing (pre cur : State) (pOpts cOpts : MapOpts) : bool :=
  (* hamt/v3 cannot read hamt/v2 nodes. Their Pointers struct has changed cbor marshalers. *)
  if decide (Code pre = builtin0.StorageMinerActorCodeID) then true
  else if decide (Code pre = builtin2.StorageMinerActorCodeID) then true
  else if decide (Code cur = builtin0.StorageMinerActorCodeID) then true
  else if decide (Code cur = builtin2.StorageMinerActorCodeID) then true
  (* bitwidth or hashfunction differences mean legacy diffing. *)
  else if negb (MapOpts_Equal pOpts cOpts) then true
  else false.

(** [mapOptsForActorCode] is adt.MapOptsForActorCode, which is not among
    the sources. *)
Definition DiffPreCommits (e : Engine) (mapOptsForActorCode : string → result MapOpts)
    (pre cur : State) : result PreCommitChanges.t :=
  prep ← precommits pre;
  curp ← precommits cur;
  preOpts ← mapOptsForActorCode (Code pre);
  curOpts ← mapOptsForActorCode (Code cur);
  let diffContainer := NewPreCommitDiffContainer pre cur in
  if mapRequiresLegacyDiffing pre cur preOpts curOpts then
    diffContainer ← GenericMap e _ _ prep curp diffContainer;
    Ok (pc_Results diffContainer)
  else
    changes ← Hamt e prep curp preOpts;
    diffContainer ← applyChanges changes diffContainer;
    Ok (pc_Results diffContainer).

(** *** Sectors *)

Record sectorDiffContainer := mkSectorDiffContainer {
  Results : SectorChanges.t;
  pre : State;
  after : State
}.

Definition NewSectorDiffContainer (pre cur : State) : sectorDiffContainer :=
  mkSectorDiffContainer (SectorChanges.mk [] [] []) pre cur.

Definition sectorDiffContainer_Add (key : N) (val : Deferred)
    (m : sectorDiffContainer) : result sectorDiffContainer :=
  si ← decodeSectorOnChainInfo (after m) val;
  Ok (mkSectorDiffContainer
        (SectorChanges.mk (SectorChanges.Added (Results m) ++ [si])
                          (SectorChanges.Extended (Results m))
                          (SectorChanges.Removed (Results m)))
        (pre m) (after m)).

Definition sectorDiffContainer_Modify (key : N) (from to : Deferred)
    (m : sectorDiffContainer) : result sectorDiffContainer :=
  siFrom ← decodeSectorOnChainInfo (pre m) from;
  siTo ← decodeSectorOnChainInfo (after m) to;
  if decide (SectorOnChainInfo.Expiration siFrom ≠ SectorOnChainInfo.Expiration siTo) then
    Ok (mkSectorDiffContainer
          (SectorChanges.mk (SectorChanges.Added (Results m))
                            (SectorChanges.Extended (Results m)
                               ++ [mkSectorExtensions siFrom siTo])
                            (SectorChanges.Removed (Results m)))
          (pre m) (after m))
  else Ok m.

Definition sectorDiffContainer_Remove (key : N) (val : Deferred)
    (m : sectorDiffContainer) : result sectorDiffContainer :=
  si ← decodeSectorOnChainInfo (pre m) val;
  Ok (mkSectorDiffContainer
        (SectorChanges.mk (SectorChanges.Added (Results m))
                          (SectorChanges.Extended (Results m))
                          (SectorChanges.Removed (Results m) ++ [si]))
        (pre m) (after m)).

#[global] Instance sectorDiffContainer_AdtArrayDiff : AdtDiff N sectorDiffContainer := {|
  onAdd := sectorDiffContainer_Add;
  onModify := sectorDiffContainer_Modify;
  onRemove := sectorDiffContainer_Remove
|}.

Definition SectorsAmtBitwidth (c : string) : result Z :=
  if decide (c = builtin0.StorageMinerActorCodeID) then Ok 3
  else if decide (c = builtin2.StorageMinerActorCodeID) then Ok 3
  else if decide (c = builtin3.StorageMinerActorCodeID) then Ok miner3.SectorsAmtBitwidth
  else if decide (c = builtin4.StorageMinerActorCodeID) then Ok miner4.SectorsAmtBitwidth
  else Err ("unknown actor code: " +:+ c).

Definition arrayRequiresLegacyDiffing (pre cur : State) (pOpts cOpts : Z) : bool :=
  (* amt/v3 cannot read amt/v2 nodes. Their Pointers struct has changed cbor marshalers. *)
  if decide (Code pre = builtin0.StorageMarketActorCodeID) then true
  else if decide (Code pre = builtin2.StorageMarketActorCodeID) then true
  else if decide (Code cur = builtin0.StorageMarketActorCodeID) then true
  else if decide (Code cur = builtin2.StorageMarketActorCodeID) then true
  (* bitwidth differences requires legacy diffing. *)
  else if negb (bool_decide (pOpts = cOpts)) then true
  else false.

Definition DiffSectors (e : Engine) (pre cur : State) : result SectorChanges.t :=
  pres ← sectors pre;
  curs ← sectors cur;
  preOpts ← SectorsAmtBitwidth (Code pre);
  curOpts ← SectorsAmtBitwidth (Code cur);
  let diffContainer := NewSectorDiffContainer pre cur in
  if arrayRequiresLegacyDiffing pre cur preOpts curOpts then
    diffContainer ← GenericArray e _ _ pres curs diffContainer;
    Ok (Results diffContainer)
  else
    changes ← Amt e pres curs preOpts;
    diffContainer ← applyChanges changes diffContainer;
    Ok (Results diffContainer).

End miner.

(** ** model/messages: the rows of a message task and their persistence *)

Module messagemodel.

Module Message.
(** Primary key: [Cid]. *)
Record t := mk {
  Cid : string;
  From : string;
  To : string;
  Value : string;
  GasFeeCap : string;
  GasPremium : string;
  GasLimit : Z;
  SizeBytes : Z;
  Nonce : N;
  Method : N;
  Params : list Byte.byte
}.
End Message.

Module BlockMessage.
Record t := mk { Block : string; Message : string }.
End BlockMessage.

Module Receipt.
Record t := mk {
  Message : string;
  StateRoot : string;
  Idx : Z;
  ExitCode : Z;
  GasUsed : Z;
  Return : list Byte.byte
}.
End Receipt.

(** The float64 columns (base fee and the gas ratios) are not represented. *)
Module MessageGasEconomy.
Record t := mk { StateRoot : string; GasLimitTotal : Z; GasLimitUniqueTotal : Z }.
End MessageGasEconomy.

(** visor.ProcessingMessage, as visor.NewProcessingMessage(message, height)
    builds it; the declaration is not among the sources. *)
Module ProcessingMessage.
Record t := mk { Cid : string; Height : Z }.
End ProcessingMessage.

(** What a pg.Tx reads and writes: the messages table, keyed by its primary
    key, and the other tables [T].  [faults] is the error the server
    returns for a statement on the message row of a given key, if any. *)
Record Tx (T : Type) := mkTx {
  messages : gmap string Message.t;
  others : T;
  faults : string → option string
}.
Arguments mkTx {T}.
Arguments messages {T}.
Arguments others {T}.
Arguments faults {T}.

(** tx.ModelContext(ctx, m).OnConflict("do nothing").Insert() *)
Definition Insert_OnConflictDoNothing {T} (m : Message.t) (tx : Tx T) : result (Tx T) :=
  match faults tx (Message.Cid m) with
  | Some e => Err e
  | None =>
      match messages tx !! Message.Cid m with
      | Some _ => Ok tx
      | None => Ok (mkTx (<[Message.Cid m := m]> (messages tx)) (others tx) (faults tx))
      end
  end.

Definition Message_PersistWithTx {T} (m : Message.t) (tx : Tx T) : result (Tx T) :=
  wrapErr "persisting message" (Insert_OnConflictDoNothing m tx).

Fixpoint Messages_PersistWithTx {T} (ms : list Message.t) (tx : Tx T) : result (Tx T) :=
  match ms with
  | [] => Ok tx
  | m :: ms =>
      tx ← Message_PersistWithTx m tx;
      Messages_PersistWithTx ms tx
  end.

(** The PersistWithTx methods of BlockMessages, Receipts and
    visor.ProcessingMessageList are not among the sources; they are
    parameters that write the other tables. *)
Record Persisters (T : Type) := mkPersisters {
  persistBlockMessages : list BlockMessage.t → T → result T;
  persistReceipts : list Receipt.t → T → result T;
  persistProcessingMessages : list ProcessingMessage.t → T → result T
}.
Arguments mkPersisters {T}.
Arguments persistBlockMessages {T}.
Arguments persistReceipts {T}.
Arguments persistProcessingMessages {T}.

Definition onOthers {T} (f : T → result T) (tx : Tx T) : result (Tx T) :=
  o ← f (others tx);
  Ok (mkTx (messages tx) o (faults tx)).

Record MessageTaskResult := mkMessageTaskResult {
  Messages : list Message.t;
  BlockMessages : list BlockMessage.t;
  Receipts : list Receipt.t;
  MessageGasEconomy : MessageGasEconomy.t
}.

Definition MessageTaskResult_PersistWithTx {T} (ps : Persisters T)
    (mtr : MessageTaskResult) (tx : Tx T) : result (Tx T) :=
  tx ← Messages_PersistWithTx (Messages mtr) tx;
  tx ← onOthers (persistBlockMessages ps (BlockMessages mtr)) tx;
  tx ← onOthers (persistReceipts ps (Receipts mtr)) tx;
  Ok tx.

(** db.RunInTransaction(ctx, fn): the writes of [fn] are committed when it
    returns nil and rolled back when it returns an error. *)
Definition RunInTransaction {T} (db : Tx T) (fn : Tx T → result (Tx T))
    : result unit * Tx T :=
  match fn db with
  | Ok tx => (Ok (), tx)
  | Err e => (Err e, db)
  end.

Definition MessageTaskResult_Persist {T} (ps : Persisters T)
    (mtr : MessageTaskResult) (db : Tx T) : result unit * Tx T :=
  RunInTransaction db (MessageTaskResult_PersistWithTx ps mtr).

End messagemodel.

(** ** The message processor (package message) *)

Module message.
Import messagemodel.

(** The state the processor runs in: the store, and the number of
    observations of the outside world (polls of the context, readings of
    the clock) made so far. *)
Record World (T : Type) := mkWorld { db : Tx T; ticks : nat }.
Arguments mkWorld {T}.
Arguments db {T}.
Arguments ticks {T}.

(** State and error monad of the processor. *)
Definition M (T A : Type) : Type := World T → result A * World T.

#[global] Instance M_ret T : MRet (M T) := λ A a w, (Ok a, w).
#[global] Instance M_bind T : MBind (M T) := λ A B k m w,
  match m w with
  | (Ok a, w) => k a w
  | (Err e, w) => (Err e, w)
  end.

Definition lift {T A} (r : result A) : M T A := λ w, (r, w).

(** What a call that may panic gives back: the value it returns, or
    nothing when the goroutine panicked on the way.  A panic is not an
    error value: no function of this package recovers from it, so it ends
    every enclosing call. *)
Inductive outcome (A : Type) : Type :=
| Returns (a : A)
| Panics.
Arguments Returns {A} a.
Arguments Panics {A}.

(** A context answers the n-th observation: [None] while it is live, the
    text of ctx.Err() once it is done. *)
Definition Context : Type := nat → option string.

(** [select { case <-ctx.Done(): ...; default: }] *)
Definition poll {T} (ctx : Context) : M T (option string) :=
  λ w, (Ok (ctx (ticks w)), mkWorld (db w) (S (ticks w))).

(** context.WithDeadline(ctx, d), on a clock that reads [clock n] at the
    n-th observation. *)
Definition WithDeadline (clock : nat → Z) (ctx : Context) (d : Z) : Context :=
  λ n, match ctx n with
       | Some e => Some e
       | None => if d <? clock n then Some "context deadline exceeded" else None
       end.

Module ProcessingTipSet.
Record t := mk { TipSet : string; Height : Z }.
End ProcessingTipSet.

(** The lease operations of storage.Database and the TipSetKey method of
    visor.ProcessingTipSet are not among the sources; they are parameters.
    The lease operations work on the other tables of the store. *)
Record Storage (T : Type) := mkStorage {
  LeaseTipSetMessages : Z → Z → Z → Z → T → result (list ProcessingTipSet.t) * T;
  MarkTipSetMessagesComplete : string → Z → Z → string → T → result unit * T;
  persisters : Persisters T;
  TipSetKey : ProcessingTipSet.t → result string
}.
Arguments mkStorage {T}.
Arguments LeaseTipSetMessages {T}.
Arguments MarkTipSetMessagesComplete {T}.
Arguments persisters {T}.
Arguments TipSetKey {T}.

Record MessageProcessor (T : Type) := mkMessageProcessor {
  node : lens.API;
  storage : Storage T;
  leaseLength : Z;
  batchSize : Z;
  minHeight : Z;
  maxHeight : Z;
  clock : nat → Z
}.
Arguments mkMessageProcessor {T}.
Arguments node {T}.
Arguments storage {T}.
Arguments leaseLength {T}.
Arguments batchSize {T}.
Arguments minHeight {T}.
Arguments maxHeight {T}.
Arguments clock {T}.

(** p.clock.Now() *)
Definition Now {T} (p : MessageProcessor T) : M T Z :=
  λ w, (Ok (clock p (ticks w)), mkWorld (db w) (S (ticks w))).

(** A storage operation, run on the other tables of the store; its error
    is handed to the caller as a value. *)
Definition onStore {T A} (op : T → result A * T) : M T (result A) :=
  λ w, let '(r, o) := op (others (db w)) in
       (Ok r, mkWorld (mkTx (messages (db w)) o (faults (db w))) (ticks w)).

(** *** extractMessageModels *)

Record models := mkModels {
  msgModels : list Message.t;
  bmsgModels : list BlockMessage.t;
  pmsgModels : list ProcessingMessage.t;
  msgsSeen : gset string;
  totalGasLimit : Z;
  totalUniqGasLimit : Z
}.

(** vmm: all messages of a block, duplicates included. *)
Definition vmm (msgs : api.BlockMessages.t) : list types.Message.t :=
  api.BlockMessages.BlsMessages msgs
    ++ (types.SignedMessage.Message <$> api.BlockMessages.SecpkMessages msgs).

Definition newMessage (message : types.Message.t) (msgSize : Z) : Message.t :=
  Message.mk (types.Message.Cid message) (types.Message.From message)
    (types.Message.To message) (types.Message.Value message)
    (types.Message.GasFeeCap message) (types.Message.GasPremium message)
    (types.Message.GasLimit message) msgSize (types.Message.Nonce message)
    (types.Message.Method message) (types.Message.Params message).

(** The loop [for _, message := range vmm]. *)
Fixpoint extractBlock (height : Z) (blk : string) (messages : list types.Message.t)
    (st : models) : result models :=
  match messages with
  | [] => Ok st
  | message :: messages =>
      (* record which blocks had which messages *)
      let bmsgs := bmsgModels st ++ [BlockMessage.mk blk (types.Message.Cid message)] in
      let uniq := int64_wrap (totalUniqGasLimit st + types.Message.GasLimit message) in
      if decide (types.Message.Cid message ∈ msgsSeen st) then
        extractBlock height blk messages
          (mkModels (msgModels st) bmsgs (pmsgModels st) (msgsSeen st)
                    (totalGasLimit st) uniq)
      else
        let total := int64_wrap (totalGasLimit st + types.Message.GasLimit message) in
        (* record this message for processing by later stages *)
        let pmsgs := pmsgModels st
                       ++ [ProcessingMessage.mk (types.Message.Cid message) height] in
        b ← types.Message.Serialize message;
        (* record all unique messages *)
        extractBlock height blk messages
          (mkModels (msgModels st ++ [newMessage message (Z.of_nat (length b))])
                    bmsgs pmsgs ({[types.Message.Cid message]} ∪ msgsSeen st)
                    total uniq)
  end.

(** The loop [for blk, msgs := range blkMsgs]; [blkMsgs] lists the entries
    of the map in the order of the iteration. *)
Fixpoint extractBlocks {T} (ctx : Context) (height : Z)
    (blkMsgs : list (string * api.BlockMessages.t)) (st : models) : M T models :=
  match blkMsgs with
  | [] => mret st
  | (blk, msgs) :: blkMsgs =>
      done ← poll ctx;
      match done with
      | Some e => lift (Err e)
      | None =>
          st ← lift (extractBlock height blk (vmm msgs) st);
          extractBlocks ctx height blkMsgs st
      end
  end.

(** After the loop the function computes the base fee columns of the gas
    economy row, which the model does not hold; of this computation the
    model keeps the two places that panic: [ts.Blocks()[0]] on a tipset
    without blocks (index out of range), and the quotient of the new base
    fee by the parent base fee, [big.Rat.SetFrac], on a parent base fee of
    zero (division by zero). *)
Definition extractMessageModels {T} (ctx : Context) (ts : types.TipSet.t)
    (blkMsgs : list (string * api.BlockMessages.t))
    : M T (outcome (list Message.t * list BlockMessage.t * list ProcessingMessage.t
                    * MessageGasEconomy.t)) :=
  st ← extractBlocks ctx (types.TipSet.Height ts) blkMsgs (mkModels [] [] [] ∅ 0 0);
  match types.TipSet.Cids ts with
  | [] => mret Panics
  | _ :: _ =>
      if decide (types.TipSet.ParentBaseFee ts = 0) then mret Panics
      else
        mret (Returns (msgModels st, bmsgModels st, pmsgModels st,
                       MessageGasEconomy.mk (types.TipSet.ParentState ts)
                         (totalGasLimit st) (totalUniqGasLimit st)))
  end.

(** *** processTipSet and processItem *)

(** xerrors.Errorf("<prefix>: %w", err) on the error of a step. *)
Definition wrapM {T A} (prefix : string) (m : M T A) : M T A :=
  λ w, let '(r, w) := m w in (wrapErr prefix r, w).

(** The loop of fetchMessages over ts.Cids(). *)
Fixpoint fetchMessages {T} (p : MessageProcessor T) (ctx : Context) (cids : list string)
    (out : gmap string api.BlockMessages.t) : M T (gmap string api.BlockMessages.t) :=
  match cids with
  | [] => mret out
  | blk :: cids =>
      done ← poll ctx;
      match done with
      | Some e => lift (Err e)
      | None =>
          blkMsgs ← lift (lens.ChainGetBlockMessages (node p) blk);
          fetchMessages p ctx cids (<[blk := blkMsgs]> out)
      end
  end.

(** The inner loop of fetchReceipts, [for i, r := range recs], from index
    [i] on: receipt [i] goes with parent message [i], and [msgs[i]] panics
    (index out of range) when the block has no parent message [i]. *)
Fixpoint appendReceipts (ts : types.TipSet.t) (msgs : list api.Message.t) (i : nat)
    (recs : list types.MessageReceipt.t) (out : list Receipt.t)
    : outcome (list Receipt.t) :=
  match recs with
  | [] => Returns out
  | r :: recs =>
      match msgs !! i with
      | None => Panics
      | Some m =>
          appendReceipts ts msgs (S i) recs
            (out ++ [Receipt.mk (api.Message.Cid m) (types.TipSet.ParentState ts)
                       (Z.of_nat i) (types.MessageReceipt.ExitCode r)
                       (types.MessageReceipt.GasUsed r) (types.MessageReceipt.Return r)])
      end
  end.

Fixpoint fetchReceipts {T} (p : MessageProcessor T) (ctx : Context) (ts : types.TipSet.t)
    (cids : list string) (out : list Receipt.t) : M T (outcome (list Receipt.t)) :=
  match cids with
  | [] => mret (Returns out)
  | blk :: cids =>
      done ← poll ctx;
      match done with
      | Some e => lift (Err e)
      | None =>
          recs ← lift (lens.ChainGetParentReceipts (node p) blk);
          msgs ← lift (lens.ChainGetParentMessages (node p) blk);
          match appendReceipts ts msgs 0 recs out with
          | Panics => mret Panics
          | Returns out => fetchReceipts p ctx ts cids out
          end
      end
  end.

(** The function handed to RunInTransaction by processTipSet. *)
Definition persistAll {T} (p : MessageProcessor T) (mtr : MessageTaskResult)
    (processingMsgs : list ProcessingMessage.t) (tx : Tx T) : result (Tx T) :=
  tx ← MessageTaskResult_PersistWithTx (persisters (storage p)) mtr tx;
  tx ← onOthers (persistProcessingMessages (persisters (storage p)) processingMsgs) tx;
  Ok tx.

(** p.storage.DB.RunInTransaction(ctx, fn) on the store of the world. *)
Definition inTransaction {T} (fn : Tx T → result (Tx T)) : M T unit :=
  λ w, let '(r, d) := RunInTransaction (db w) fn in (r, mkWorld d (ticks w)).

(** Go ranges over the map [blkMsgs] in an unspecified order; the model
    takes the order of [map_to_list]. *)
Definition processTipSet {T} (p : MessageProcessor T) (ctx : Context) (ts : types.TipSet.t)
    : M T (outcome unit) :=
  blkMsgs ← wrapM "fetch messages" (fetchMessages p ctx (types.TipSet.Cids ts) ∅);
  fetched ← wrapM "fetch receipts" (fetchReceipts p ctx ts (types.TipSet.Cids ts) []);
  match fetched with
  | Panics => mret Panics
  | Returns rcts =>
      extracted ← wrapM "extract message models"
                    (extractMessageModels ctx ts (map_to_list blkMsgs));
      match extracted with
      | Panics => mret Panics
      | Returns (msgs, bmsgs, processingMsgs, econ) =>
          let mtr := mkMessageTaskResult msgs bmsgs rcts econ in
          _ ← wrapM "persist" (inTransaction (persistAll p mtr processingMsgs));
          mret (Returns ())
      end
  end.

Definition processItem {T} (p : MessageProcessor T) (ctx : Context)
    (item : ProcessingTipSet.t) : M T (outcome unit) :=
  tsk ← wrapM "get tipsetkey" (lift (TipSetKey (storage p) item));
  ts ← wrapM "get tipset" (lift (lens.ChainGetTipSet (node p) tsk));
  wrapM "process tipset" (processTipSet p ctx ts).

(** *** processBatch and Run *)

(** Runs a step and hands its error to the caller as a value
    ([if err := ...; err != nil]). *)
Definition attempt {T A} (m : M T A) : M T (result A) :=
  λ w, let '(r, w) := m w in (Ok r, w).

Definition markComplete {T} (p : MessageProcessor T) (item : ProcessingTipSet.t)
    (errorsDetected : string) : M T (result unit) :=
  now ← Now p;
  onStore (MarkTipSetMessagesComplete (storage p) (ProcessingTipSet.TipSet item)
             (ProcessingTipSet.Height item) now errorsDetected).

(** The loop [for _, item := range batch] of processBatch; a failure of
    MarkTipSetMessagesComplete is logged and otherwise ignored, and a panic
    of processItem leaves the loop and the function. *)
Fixpoint processItems {T} (p : MessageProcessor T) (ctx : Context)
    (batch : list ProcessingTipSet.t) : M T (outcome unit) :=
  match batch with
  | [] => mret (Returns ())
  | item :: batch =>
      done ← poll ctx;
      match done with
      | Some _ => mret (Returns ())
      | None =>
          r ← attempt (processItem p ctx item);
          match r with
          | Err e =>
              _ ← markComplete p item e;
              processItems p ctx batch
          | Ok Panics => mret Panics
          | Ok (Returns _) =>
              _ ← markComplete p item "";
              processItems p ctx batch
          end
      end
  end.

(** processBatch returns the pair (done, err), unless it panics. *)
Definition processBatch {T} (p : MessageProcessor T) (ctx : Context)
    : M T (outcome (bool * option string)) :=
  now ← Now p;
  let claimUntil := now + leaseLength p in
  leased ← onStore (LeaseTipSetMessages (storage p) claimUntil (batchSize p)
                      (minHeight p) (maxHeight p));
  match leased with
  | Err e => mret (Returns (true, Some e))
  | Ok [] => mret (Returns (false, None))
  | Ok batch =>
      let ctx := WithDeadline (clock p) ctx claimUntil in
      looped ← processItems p ctx batch;
      match looped with
      | Panics => mret Panics
      | Returns _ => mret (Returns (false, None))
      end
  end.

(** Modelled from the spec: wait.RepeatUntil is not among the sources.  It
    calls the function again and again "until the context is done or
    processing encounters a fatal error" (or the function reports that it
    is done).  The result is [None] when the loop is still running after
    [fuel] rounds, and otherwise the error returned, if any; a panic of the
    function ends the loop. *)
Fixpoint RepeatUntil {T} (fuel : nat) (ctx : Context)
    (fn : Context → M T (outcome (bool * option string)))
    : M T (outcome (option (option string))) :=
  match fuel with
  | O => mret (Returns None)
  | S fuel =>
      done ← poll ctx;
      match done with
      | Some e => mret (Returns (Some (Some e)))
      | None =>
          r ← fn ctx;
          match r with
          | Panics => mret Panics
          | Returns (_, Some e) => mret (Returns (Some (Some e)))
          | Returns (true, None) => mret (Returns (Some None))
          | Returns (false, None) => RepeatUntil fuel ctx fn
          end
      end
  end.

Definition Run {T} (fuel : nat) (p : MessageProcessor T) (ctx : Context)
    : M T (outcome (option (option string))) :=
  RepeatUntil fuel ctx (processBatch p).

End message.

(** ** chain/gap, continued: GapIndexer.Run and tipSetKeyFromString *)

Module gaprun.
Import visor storage gap.

(** GapIndexer.Run.  [open] is the outcome of g.opener.Open(ctx);
    [persistBatch] is storage.Database.PersistBatch, which is not among the
    sources; the two detectors read the clock one after the other. *)
Definition Run (db : Database) (open : result lens.API) (allTasks : list string)
    (heightTime skipTime : Z)
    (persistBatch : list GapReport.t → list GapReport.t → Database → result Database)
    : result Database :=
  node ← wrapErr "open lens" open;
  heightGaps ← wrapErr "detecting processing gaps"
                 (detectProcessingGaps db node allTasks heightTime);
  skipGaps ← wrapErr "detecting skipped gaps" (detectSkippedTipSets db node skipTime);
  persistBatch skipGaps heightGaps db.

End gaprun.

Module gapkey.

(** strings.TrimLeft(s, cutset) for a cutset of ASCII characters: the
    leading characters of [s] that occur in [cutset] are removed. *)
Fixpoint inCutset (a : Ascii.ascii) (cutset : string) : bool :=
  match cutset with
  | EmptyString => false
  | String b rest => bool_decide (a = b) || inCutset a rest
  end.

Fixpoint TrimLeft (s cutset : string) : string :=
  match s with
  | EmptyString => EmptyString
  | String a rest => if inCutset a cutset then TrimLeft rest cutset else s
  end.

(** strings.TrimRight(s, cutset): the trailing characters of [s] that occur
    in [cutset] are removed. *)
Fixpoint TrimRight (s cutset : string) : string :=
  match s with
  | EmptyString => EmptyString
  | String a rest =>
      match TrimRight rest cutset with
      | EmptyString => if inCutset a cutset then EmptyString else String a EmptyString
      | trimmed => String a trimmed
      end
  end.

(** strings.Split(s, sep) for a separator of one character: the pieces of
    [s] between the occurrences of the separator, one more than there are
    occurrences. *)
Fixpoint Split (s : string) (sep : Ascii.ascii) : list string :=
  match s with
  | EmptyString => [EmptyString]
  | String a rest =>
      if decide (a = sep) then EmptyString :: Split rest sep
      else match Split rest sep with
           | token :: tokens => String a token :: tokens
           | [] => [String a EmptyString]
           end
  end.

(** The loop over the tokens: [cids[idx], err = cid.Decode(token)], left at
    the first error. *)
Fixpoint decodeTokens (Decode : string → result string) (tokens : list string)
    : result (list string) :=
  match tokens with
  | [] => Ok []
  | token :: tokens =>
      c ← Decode token;
      cids ← decodeTokens Decode tokens;
      Ok (c :: cids)
  end.

(** tipSetKeyFromString; [Decode] is cid.Decode and a types.TipSetKey is
    the list of its CIDs. *)
Definition tipSetKeyFromString (Decode : string → result string) (tss : string)
    : result (list string) :=
  (* remove the brackets *)
  let tss := TrimLeft tss "{" in
  let tss := TrimRight tss "}" in
  (* tokenize *)
  let tokens := Split tss ","%char in
  decodeTokens Decode tokens.

End gapkey.

(** ** model/actors/verifreg: the rows of the verified registry task *)

Module verifregmodel.

Definition Added : string := "ADDED".
Definition Removed : string := "REMOVED".

Module VerifiedRegistryVerifierEvent.
Record t := mk { Height : Z; StateRoot : string; Address : string; Event : string }.
End VerifiedRegistryVerifierEvent.

Module VerifiedRegistryClientEvent.
Record t := mk { Height : Z; StateRoot : string; Address : string; Event : string }.
End VerifiedRegistryClientEvent.

Module VerifiedRegistryVerifier.
Record t := mk { Height : Z; StateRoot : string; Address : string; DataCap : string }.
End VerifiedRegistryVerifier.

Module VerifiedRegistryVerifiedClient.
Record t := mk { Height : Z; StateRoot : string; Address : string; DataCap : string }.
End VerifiedRegistryVerifiedClient.

End verifregmodel.

(** ** tasks/actorstate/verifreg.go: the verified registry extractor *)

Module verifreg.
(** The package chain/actors/builtin/verifreg is not among the sources.
    The records hold the fields the extractor reads; an address.Address
    and an abi.StoragePower are read through String() only and are the
    strings they print as. *)
Module VerifierInfo.
Record t := mk { Address : string; DataCap : string }.
End VerifierInfo.

Module VerifierChange.
Record t := mk { Before : VerifierInfo.t; After : VerifierInfo.t }.
End VerifierChange.

Module VerifierChanges.
Record t := mk {
  Added : list VerifierInfo.t;
  Modified : list VerifierChange.t;
  Removed : list VerifierInfo.t
}.
End VerifierChanges.
End verifreg.

Module actorstate.
Import verifregmodel verifreg.

(** The outcome of node.StateGetActor: the actor, the sentinel error
    types.ErrActorNotFound, or another error. *)
Inductive ActorLookup (Actor : Type) : Type :=
| Found (actor : Actor)
| ErrActorNotFound
| Failed (e : string).
Arguments Found {Actor} actor.
Arguments ErrActorNotFound {Actor}.
Arguments Failed {Actor} e.

Record ActorInfo (Actor : Type) := mkActorInfo {
  Actor_ : Actor;
  Address : string;
  Epoch : Z;
  TipSet : types.TipSet.t;
  ParentTipSet : types.TipSet.t
}.
Arguments mkActorInfo {Actor}.
Arguments Actor_ {Actor}.
Arguments Address {Actor}.
Arguments Epoch {Actor}.
Arguments TipSet {Actor}.
Arguments ParentTipSet {Actor}.

(** ActorStateAPI and the functions of the verifreg package, which are not
    among the sources, are parameters: [Load] is verifreg.Load on
    node.Store(); [ForEachVerifier] and [ForEachClient] give the entries
    the callback is called with, in the order of the calls, or the error
    of the iteration; the diff functions work on node.Store(). *)
Record ActorStateAPI (Actor State : Type) := mkActorStateAPI {
  Load : Actor → result State;
  StateGetActor : string → string → ActorLookup Actor;
  ForEachVerifier : State → result (list VerifierInfo.t);
  ForEachClient : State → result (list VerifierInfo.t);
  DiffVerifiers : State → State → result VerifierChanges.t;
  DiffVerifiedClients : State → State → result VerifierChanges.t
}.
Arguments mkActorStateAPI {Actor State}.
Arguments Load {Actor State}.
Arguments StateGetActor {Actor State}.
Arguments ForEachVerifier {Actor State}.
Arguments ForEachClient {Actor State}.
Arguments DiffVerifiers {Actor State}.
Arguments DiffVerifiedClients {Actor State}.

(** The Store field is node.Store(), which the parameters above work on. *)
Record VerifiedRegistryExtractionContext (State : Type) := mkContext {
  PrevState : State;
  CurrState : State;
  PrevTs : types.TipSet.t;
  CurrTs : types.TipSet.t
}.
Arguments mkContext {State}.
Arguments PrevState {State}.
Arguments CurrState {State}.
Arguments PrevTs {State}.
Arguments CurrTs {State}.

(** [PrevState == CurrState] compares two interface values, which hold
    pointers; [State] is the type of these values and the comparison is its
    decidable equality.  The two are the same value where the constructor
    sets [prevState := curState]; whether a separately loaded previous
    state is the same value is up to the parameter [Load]. *)
Definition HasPreviousState {State} `{EqDecision State}
    (v : VerifiedRegistryExtractionContext State) : bool :=
  negb (bool_decide (types.TipSet.Height (CurrTs v) = 1)
        || bool_decide (PrevState v = CurrState v)).

Definition NewVerifiedRegistryExtractorContext {Actor State}
    (a : ActorInfo Actor) (node : ActorStateAPI Actor State)
    : result (VerifiedRegistryExtractionContext State) :=
  curState ← wrapErr "loading current verified registry state" (Load node (Actor_ a));
  let prevState := curState in
  if decide (Epoch a ≠ 0) then
    match StateGetActor node (Address a) (types.TipSet.Key (ParentTipSet a)) with
    | ErrActorNotFound =>
        (* the actor was created in the current state *)
        Ok (mkContext prevState curState (ParentTipSet a) (TipSet a))
    | Failed e =>
        Err ("loading previous verified registry actor at tipset "
             +:+ types.TipSet.Key (ParentTipSet a) +:+ " epoch " +:+ pretty (Epoch a)
             +:+ ": " +:+ e)
    | Found prevActor =>
        prevState ← wrapErr "loading previous verified registry state" (Load node prevActor);
        Ok (mkContext prevState curState (ParentTipSet a) (TipSet a))
    end
  else Ok (mkContext prevState curState (ParentTipSet a) (TipSet a)).

(** The rows appended by the loops of the two extract functions. *)
Definition verifierRow (ts : types.TipSet.t) (v : VerifierInfo.t)
    : VerifiedRegistryVerifier.t :=
  VerifiedRegistryVerifier.mk (types.TipSet.Height ts) (types.TipSet.ParentState ts)
    (VerifierInfo.Address v) (VerifierInfo.DataCap v).

Definition verifierEvent (ts : types.TipSet.t) (event : string) (v : VerifierInfo.t)
    : VerifiedRegistryVerifierEvent.t :=
  VerifiedRegistryVerifierEvent.mk (types.TipSet.Height ts) (types.TipSet.ParentState ts)
    (VerifierInfo.Address v) event.

Definition clientRow (ts : types.TipSet.t) (v : VerifierInfo.t)
    : VerifiedRegistryVerifiedClient.t :=
  VerifiedRegistryVerifiedClient.mk (types.TipSet.Height ts) (types.TipSet.ParentState ts)
    (VerifierInfo.Address v) (VerifierInfo.DataCap v).

Definition clientEvent (ts : types.TipSet.t) (event : string) (v : VerifierInfo.t)
    : VerifiedRegistryClientEvent.t :=
  VerifiedRegistryClientEvent.mk (types.TipSet.Height ts) (types.TipSet.ParentState ts)
    (VerifierInfo.Address v) event.

Definition ExtractVerifiers {Actor State} `{EqDecision State}
    (node : ActorStateAPI Actor State) (ec : VerifiedRegistryExtractionContext State)
    : result (list VerifiedRegistryVerifier.t * list VerifiedRegistryVerifierEvent.t) :=
  let verifiers : list VerifiedRegistryVerifier.t := [] in
  let events : list VerifiedRegistryVerifierEvent.t := [] in
  (* if this is the genesis state extract whatever state it has *)
  if negb (HasPreviousState ec) then
    entries ← ForEachVerifier node (CurrState ec);
    Ok (foldl (λ '(verifiers, events) v,
                 (verifiers ++ [verifierRow (CurrTs ec) v],
                  events ++ [verifierEvent (CurrTs ec) Added v]))
              (verifiers, events) entries)
  else
    changes ← wrapErr "diffing verifier registry verifiers"
                (DiffVerifiers node (PrevState ec) (CurrState ec));
    (* a new verifier was added *)
    let '(verifiers, events) :=
      foldl (λ '(verifiers, events) change,
               (verifiers ++ [verifierRow (CurrTs ec) change],
                events ++ [verifierEvent (CurrTs ec) Added change]))
            (verifiers, events) (VerifierChanges.Added changes) in
    (* a verifier was removed *)
    let events :=
      foldl (λ events change, events ++ [verifierEvent (CurrTs ec) Removed change])
            events (VerifierChanges.Removed changes) in
    (* an existing verifier's DataCap changed *)
    let verifiers :=
      foldl (λ verifiers change,
               verifiers ++ [verifierRow (CurrTs ec) (VerifierChange.After change)])
            verifiers (VerifierChanges.Modified changes) in
    Ok (verifiers, events).

Definition ExtractVerifiedClients {Actor State} `{EqDecision State}
    (node : ActorStateAPI Actor State) (ec : VerifiedRegistryExtractionContext State)
    : result (list VerifiedRegistryVerifiedClient.t * list VerifiedRegistryClientEvent.t) :=
  let clients : list VerifiedRegistryVerifiedClient.t := [] in
  let events : list VerifiedRegistryClientEvent.t := [] in
  if negb (HasPreviousState ec) then
    entries ← ForEachClient node (CurrState ec);
    Ok (foldl (λ '(clients, events) v,
                 (clients ++ [clientRow (CurrTs ec) v],
                  events ++ [clientEvent (CurrTs ec) Added v]))
              (clients, events) entries)
  else
    changes ← wrapErr "diffing verifier registry clients"
                (DiffVerifiedClients node (PrevState ec) (CurrState ec));
    let '(clients, events) :=
      foldl (λ '(clients, events) change,
               (clients ++ [clientRow (CurrTs ec) change],
                events ++ [clientEvent (CurrTs ec) Added change]))
            (clients, events) (VerifierChanges.Added changes) in
    let clients :=
      foldl (λ clients change,
               clients ++ [clientRow (CurrTs ec) (VerifierChange.After change)])
            clients (VerifierChanges.Modified changes) in
    let events :=
      foldl (λ events change, events ++ [clientEvent (CurrTs ec) Removed change])
            events (VerifierChanges.Removed changes) in
    Ok (clients, events).

(** The model.PersistableList returned by Extract. *)
Record Extracted := mkExtracted {
  verifiers : list VerifiedRegistryVerifier.t;
  verifierEvents : list VerifiedRegistryVerifierEvent.t;
  clients : list VerifiedRegistryVerifiedClient.t;
  clientsEvents : list VerifiedRegistryClientEvent.t
}.

Definition Extract {Actor State} `{EqDecision State}
    (a : ActorInfo Actor) (node : ActorStateAPI Actor State) : result Extracted :=
  ec ← NewVerifiedRegistryExtractorContext a node;
  '(verifiers, verifierEvents) ← ExtractVerifiers node ec;
  '(clients, clientsEvents) ← ExtractVerifiedClients node ec;
  Ok (mkExtracted verifiers verifierEvents clients clientsEvents).

End actorstate.

(** ** Predicates used to state the properties of the gap auditor *)

Module gap_spec.
Import visor storage gap.

(** A chain source that answers the height query with [byHeight] and has
    no other data, and a tipset without blocks, for running the detectors
    on concrete inputs. *)
Definition nodeByHeight (byHeight : Z → result types.TipSet.t) : lens.API :=
  lens.mkAPI byHeight (λ _, Err "not found") (λ _, Err "not found")
             (λ _, Err "not found") (λ _, Err "not found").

Definition tipsetAt (height : Z) (key : string) : types.TipSet.t :=
  types.TipSet.mk height key [] "" 100.

(** A report list as the height query delivers it: heights strictly
    descending (hence distinct). *)
Definition descending (prs : list ProcessingReport.t) : Prop :=
  StronglySorted (λ a b, ProcessingReport.Height b < ProcessingReport.Height a) prs.

(** One block of the output of detectProcessingGaps: what is emitted for
    the candidate height [gh]. *)
Definition emitted (node : lens.API) (allTasks : list string) (reportTime : Z)
    (gh : Z) (block : list GapReport.t) : Prop :=
  ∃ ts, lens.ChainGetTipSetByHeight node gh = Ok ts ∧
    (types.TipSet.Height ts = gh →
       block = (λ task, GapReport.mk gh (types.TipSet.Key ts) task "GAP" "gapIndexer" reportTime)
                 <$> allTasks) ∧
    (types.TipSet.Height ts ≠ gh → block = []).

(** The gap records GapFiller.queryGaps selects: status GAP and, when the
    filler was given tasks, a task among them. *)
Definition selected (g : GapFiller) (r : GapReport.t) : Prop :=
  GapReport.Status r = "GAP" ∧ (tasks g = [] ∨ GapReport.Task r ∈ tasks g).

#[global] Instance selected_dec g r : Decision (selected g r).
Proof. unfold selected. apply _. Defined.

(** The outcome of the re-drive of one gap record: [None] on success, the
    error text on failure. *)
Definition redriveError (c : chain.API) (now : Z) (gap : GapReport.t) : option string :=
  match chain.NewTipSetIndexer c ("gapfill_" +:+ pretty now) [GapReport.Task gap] with
  | Err e => Some e
  | Ok indexer =>
      match chain.Walker_Run c indexer (GapReport.Height gap) (GapReport.Height gap) with
      | Err e => Some e
      | Ok _ => None
      end
  end.

End gap_spec.

(** ** Predicates used to state the properties of the miner diff *)

Module miner_spec.
Import adt diff miner.

(** The storage-miner actor codes whose containers the newer traversal
    cannot read (actors v0 and v2). *)
Definition legacyMinerCode (c : string) : Prop :=
  c = builtin0.StorageMinerActorCodeID ∨ c = builtin2.StorageMinerActorCodeID.

(** The states used to run the strategy selection on concrete actor codes;
    the containers are empty. *)
Definition stateOfCode (code : string) : State :=
  mkState code (Ok ∅) (Ok ∅) (λ _, Err "no value") (λ _, Err "no value").

(** An engine that tells which strategy ran. *)
Definition tracingEngine : Engine := {|
  GenericMap C _ _ _ _ := Err "generic";
  Hamt _ _ _ := Err "structural";
  GenericArray C _ _ _ _ := Err "generic";
  Amt _ _ _ := Err "structural"
|}.

(** A decoder for two-byte test values: the first byte is the expiration,
    the second the deal weight (an unrelated field). *)
Definition decodeSector (number : N) (raw : Deferred) : result SectorOnChainInfo.t :=
  match raw with
  | [e; w] => Ok (SectorOnChainInfo.mk number "sealed" [] 0 (Z.of_N (Byte.to_N e))
                    (Z.of_N (Byte.to_N w)) 0 0)
  | _ => Err "cbor input had wrong number of fields"
  end.

Definition decodePreCommit (raw : Deferred) : result SectorPreCommitOnChainInfo.t :=
  match raw with
  | [n; e] => Ok (SectorPreCommitOnChainInfo.mk (Byte.to_N n) "sealed"
                    (Z.of_N (Byte.to_N e)) 0 0)
  | _ => Err "cbor input had wrong number of fields"
  end.

(** A v3 miner state with the given pre-commits and sectors. *)
Definition stateV3 (pcs : Map) (secs : Array) : State :=
  mkState builtin3.StorageMinerActorCodeID (Ok pcs) (Ok secs) decodePreCommit (decodeSector 10).

End miner_spec.

(** ** Predicates used to state the properties of the message processor *)

Module message_spec.
Import messagemodel message.

(** The bookkeeping of the loop: the seen set is the set of CIDs of the
    unique messages recorded so far, and no CID is recorded twice. *)
Definition consistent (st : models) : Prop :=
  NoDup (Message.Cid <$> msgModels st) ∧
  ∀ c, c ∈ msgsSeen st ↔ c ∈ Message.Cid <$> msgModels st.

(** A chain source whose blocks have a parent message for every receipt:
    on such a source fetchReceipts does not panic. *)
Definition parentsAligned (node : lens.API) : Prop :=
  ∀ blk recs msgs,
    lens.ChainGetParentReceipts node blk = Ok recs →
    lens.ChainGetParentMessages node blk = Ok msgs →
    (length recs ≤ length msgs)%nat.

(** A chain source whose tipsets have a block and a parent base fee that is
    not zero: on such tipsets extractMessageModels does not panic. *)
Definition tipsetsSound (node : lens.API) : Prop :=
  ∀ tsk ts, lens.ChainGetTipSet node tsk = Ok ts →
    types.TipSet.Cids ts ≠ [] ∧ types.TipSet.ParentBaseFee ts ≠ 0.

(** A chain source on which processItem does not panic. *)
Definition soundSource (node : lens.API) : Prop :=
  parentsAligned node ∧ tipsetsSound node.

(** The completion detail processBatch records for an item: the error text
    of processItem, or the empty text when it returned without an error. *)
Definition detail {A} (r : result A) : string :=
  match r with Err e => e | Ok _ => "" end.

(** One round of the loop of processBatch on a live context, when
    processItem does not panic: the poll, processItem, and the completion
    mark with the detail of the outcome. *)
Definition completeItem {T} (p : MessageProcessor T) (ctx : Context)
    (item : ProcessingTipSet.t) : M T (result unit) :=
  λ w, let '(r, w1) := processItem p ctx item (mkWorld (db w) (S (ticks w))) in
       markComplete p item (detail r) w1.

(** Test data: a message with the given CID and gas limit, and a store
    whose other tables are the log of the calls of
    MarkTipSetMessagesComplete. *)
Definition sampleMessage (cid : string) (gasLimit : Z) : types.Message.t :=
  types.Message.mk cid "f01" "f02" "0" "100" "1" gasLimit 0 0 [] (Ok [x00]).

Definition markLog : Type := list (string * Z * Z * string).

Definition loggingStorage (batch : list ProcessingTipSet.t) : Storage markLog :=
  mkStorage
    (λ _ _ _ _ log, (Ok batch, log))
    (λ tipset height completedAt errorsDetected log,
       (Ok (), log ++ [(tipset, height, completedAt, errorsDetected)]))
    (mkPersisters (λ _ log, Ok log) (λ _ log, Ok log) (λ _ log, Ok log))
    (λ item, Ok (ProcessingTipSet.TipSet item)).

(** A chain source that knows the tipset "good" (one block without
    messages) and no other. *)
Definition sampleNode : lens.API :=
  lens.mkAPI (λ _, Err "not found")
    (λ tsk, if decide (tsk = "good") then Ok (types.TipSet.mk 7 "good" ["blk"] "root" 100)
            else Err "tipset not found")
    (λ _, Ok (api.BlockMessages.mk [] [] []))
    (λ _, Ok []) (λ _, Ok []).

Definition sampleProcessor (batch : list ProcessingTipSet.t) : MessageProcessor markLog :=
  mkMessageProcessor sampleNode (loggingStorage batch) 60 10 0 100 (λ n, Z.of_nat n).

(** A chain source that knows the tipset "good" of two blocks; every block
    holds the message "msg1" and has one parent message, "msg0", with one
    receipt. *)
Definition busyNode : lens.API :=
  lens.mkAPI (λ _, Err "not found")
    (λ tsk, if decide (tsk = "good")
            then Ok (types.TipSet.mk 7 "good" ["blkA"; "blkB"] "root" 100)
            else Err "tipset not found")
    (λ _, Ok (api.BlockMessages.mk [sampleMessage "msg1" 10] [] []))
    (λ _, Ok [types.MessageReceipt.mk 0 [] 5])
    (λ _, Ok [api.Message.mk "msg0" (sampleMessage "msg0" 10)]).

Definition busyProcessor (batch : list ProcessingTipSet.t) : MessageProcessor markLog :=
  mkMessageProcessor busyNode (loggingStorage batch) 60 10 0 100 (λ n, Z.of_nat n).




End message_spec.

(** ** Predicates used to state further properties *)

Module gapkey_spec.
Import gapkey.

(** strings.Join(elems, sep) *)
Fixpoint Join (elems : list string) (sep : string) : string :=
  match elems with
  | [] => EmptyString
  | [x] => x
  | x :: rest => x +:+ sep +:+ Join rest sep
  end.

(** The printed form of a tipset key, as types.TipSetKey.String of lotus
    produces it: the CIDs between braces, separated by commas. *)
Definition TipSetKey_String (cids : list string) : string :=
  "{" +:+ Join cids "," +:+ "}".

Fixpoint contains (a : Ascii.ascii) (s : string) : bool :=
  match s with
  | EmptyString => false
  | String b rest => bool_decide (a = b) || contains a rest
  end.

(** A printed CID holds no brace and no comma. *)
Definition plain (c : string) : Prop :=
  contains "{"%char c = false ∧ contains "}"%char c = false ∧ contains ","%char c = false.

Fixpoint count (a : Ascii.ascii) (s : string) : nat :=
  match s with
  | EmptyString => O
  | String b rest => if decide (b = a) then S (count a rest) else count a rest
  end.

(** A decoder for test runs: the strings that start with "bafy" are CIDs. *)
Definition decodeBafy (s : string) : result string :=
  match s with
  | String "b" (String "a" (String "f" (String "y" _))) => Ok s
  | _ => Err "invalid cid"
  end.

End gapkey_spec.

Module miner_more_spec.
Import adt diff miner.

Definition toOption {A} (r : result A) : option A :=
  match r with Ok a => Some a | Err _ => None end.

(** What one change contributes to each of the three results of the sector
    diff, for the states [prestate] and [cur]. *)
Definition addedOf (cur : State) (ch : Change N) : option SectorOnChainInfo.t :=
  match Type_ ch with
  | Add => toOption (decodeSectorOnChainInfo cur (After ch))
  | _ => None
  end.

Definition removedOf (prestate : State) (ch : Change N) : option SectorOnChainInfo.t :=
  match Type_ ch with
  | Remove => toOption (decodeSectorOnChainInfo prestate (Before ch))
  | _ => None
  end.

Definition extendedOf (prestate cur : State) (ch : Change N) : option SectorExtensions :=
  match Type_ ch with
  | Modify =>
      match decodeSectorOnChainInfo prestate (Before ch),
            decodeSectorOnChainInfo cur (After ch) with
      | Ok siFrom, Ok siTo =>
          if decide (SectorOnChainInfo.Expiration siFrom ≠ SectorOnChainInfo.Expiration siTo)
          then Some (mkSectorExtensions siFrom siTo) else None
      | _, _ => None
      end
  | _ => None
  end.

(** The values a change has decoded by the sector container and by the
    pre-commit container. *)
Definition sectorDecodes (prestate cur : State) (ch : Change N) : Prop :=
  match Type_ ch with
  | Add => is_Ok (decodeSectorOnChainInfo cur (After ch)) = true
  | Remove => is_Ok (decodeSectorOnChainInfo prestate (Before ch)) = true
  | Modify => is_Ok (decodeSectorOnChainInfo prestate (Before ch)) = true ∧
              is_Ok (decodeSectorOnChainInfo cur (After ch)) = true
  end.

Definition preCommitDecodes (prestate cur : State) (ch : Change string) : Prop :=
  match Type_ ch with
  | Add => is_Ok (decodeSectorPreCommitOnChainInfo cur (After ch)) = true
  | Remove => is_Ok (decodeSectorPreCommitOnChainInfo prestate (Before ch)) = true
  | Modify => True
  end.

Definition minerCode (c : string) : Prop :=
  c = builtin0.StorageMinerActorCodeID ∨ c = builtin2.StorageMinerActorCodeID ∨
  c = builtin3.StorageMinerActorCodeID ∨ c = builtin4.StorageMinerActorCodeID.

(** An engine for test runs: both strategies report the given changes. *)
Definition fixedEngine (mapChanges : list (Change string)) (arrayChanges : list (Change N))
    : Engine := {|
  GenericMap C _ _ _ c := applyChanges mapChanges c;
  Hamt _ _ _ := Ok mapChanges;
  GenericArray C _ _ _ c := applyChanges arrayChanges c;
  Amt _ _ _ := Ok arrayChanges
|}.

End miner_more_spec.

Module message_more_spec.
Import messagemodel message.

(** The sum of a list of int64 values as Go computes it with [+=]. *)
Definition int64_sum (l : list Z) : Z := foldl (λ acc g, int64_wrap (acc + g)) 0 l.

(** The sum without wrap-around. *)
Definition Zsum (l : list Z) : Z := foldr Z.add 0 l.

(** All messages of the blocks, block by block, duplicates included. *)
Definition occurrences (blkMsgs : list (string * api.BlockMessages.t)) : list types.Message.t :=
  bm ← blkMsgs; vmm bm.2.

(** The receipt rows of one block when every receipt has its parent
    message: receipt [i] paired with message [i]. *)
Definition receiptsOf (ts : types.TipSet.t) (recs : list types.MessageReceipt.t)
    (msgs : list api.Message.t) : list Receipt.t :=
  imap (λ i '(r, m),
          Receipt.mk (api.Message.Cid m) (types.TipSet.ParentState ts) (Z.of_nat i)
            (types.MessageReceipt.ExitCode r) (types.MessageReceipt.GasUsed r)
            (types.MessageReceipt.Return r))
       (zip recs msgs).

(** The first message of [ms] with the CID [c], if there is one. *)
Definition firstWithCid (c : string) (ms : list Message.t) : option Message.t :=
  head (filter (λ m, Message.Cid m = c) ms).

(** Messages are content-addressed: equal CIDs, equal messages. *)
Definition contentAddressed (ms : list Message.t) : Prop :=
  ∀ m1 m2, m1 ∈ ms → m2 ∈ ms → Message.Cid m1 = Message.Cid m2 → m1 = m2.

(** What the loop over the messages of one block keeps. *)
Definition accounted (height : Z) (seen : list types.Message.t) (st : models) : Prop :=
  totalUniqGasLimit st = int64_sum (types.Message.GasLimit <$> seen) ∧
  totalGasLimit st = int64_sum (Message.GasLimit <$> msgModels st) ∧
  (Message.GasLimit <$> msgModels st) `sublist_of` (types.Message.GasLimit <$> seen) ∧
  pmsgModels st = (λ m, ProcessingMessage.mk (Message.Cid m) height) <$> msgModels st ∧
  ∀ m, m ∈ msgModels st →
    ∃ message b, message ∈ seen ∧ types.Message.Serialize message = Ok b ∧
                 m = newMessage message (Z.of_nat (length b)).

End message_more_spec.

Module verifreg_spec.
Import verifreg actorstate.

Definition f01 : VerifierInfo.t := VerifierInfo.mk "f01" "100".
Definition f02 : VerifierInfo.t := VerifierInfo.mk "f02" "200".
Definition f02' : VerifierInfo.t := VerifierInfo.mk "f02" "250".
Definition f03 : VerifierInfo.t := VerifierInfo.mk "f03" "300".
Definition c01 : VerifierInfo.t := VerifierInfo.mk "f011" "10".
Definition c02 : VerifierInfo.t := VerifierInfo.mk "f012" "20".

(** Test data: actors are named, states are numbered.  The actor "prev"
    has state 1 with the verifiers f01 and f02; the actor "cur" has state 2
    with f02, whose data cap has grown, and f03.  State 1 has the client
    c01 and state 2 the client c02.  Only the tipset "parent" knows the
    registry actor. *)
Definition sampleAPI : ActorStateAPI string nat :=
  mkActorStateAPI
    (λ actor, if decide (actor = "prev") then Ok 1%nat
              else if decide (actor = "cur") then Ok 2%nat
              else Err "not a registry")
    (λ _ tsk, if decide (tsk = "parent") then Found "prev" else ErrActorNotFound)
    (λ st, Ok (if decide (st = 1%nat) then [f01; f02] else [f02'; f03]))
    (λ st, Ok (if decide (st = 1%nat) then [c01] else [c02]))
    (λ _ _, Ok (VerifierChanges.mk [f03] [VerifierChange.mk f02 f02'] [f01]))
    (λ _ _, Ok (VerifierChanges.mk [c02] [] [c01])).

Definition sampleTipSet (height : Z) (key : string) : types.TipSet.t :=
  types.TipSet.mk height key ["blk"] "root" 100.

End verifreg_spec.

(** * Properties *)

Lemma int64_wrap_id z : is_int64 z → int64_wrap z = z.
Proof.
  unfold is_int64, int64_wrap, min_int64, max_int64. intros Hz.
  rewrite Z.mod_small by lia. lia.
Qed.

Lemma bind_Ok {A B} (r : result A) (k : A → result B) b :
  r ≫= k = Ok b ↔ ∃ a, r = Ok a ∧ k a = Ok b.
Proof.
  destruct r as [a|e]; simpl.
  - split; [eauto | intros (a' & [= <-] & ?); done].
  - split; [done | intros (? & ? & ?); done].
Qed.

Lemma wrapErr_Ok {A} p (r : result A) a : wrapErr p r = Ok a ↔ r = Ok a.
Proof. destruct r; simpl; split; congruence. Qed.

Module gap_props.
Import visor storage gap gap_spec.

Local Abbreviation height := ProcessingReport.Height.

(** With enough fuel the counting loop appends lo, lo+1, ..., hi-1. *)
Lemma appendRange_seqZ fuel lo hi acc :
  is_int64 lo → is_int64 hi → (rangeFuel lo hi ≤ fuel)%nat →
  appendRange fuel lo hi acc = acc ++ seqZ lo (hi - lo).
Proof.
  unfold rangeFuel. revert lo acc.
  induction fuel as [|fuel IH]; intros lo acc Hlo Hhi Hfuel; simpl.
  - rewrite seqZ_nil by lia. by rewrite app_nil_r.
  - destruct (Z.ltb_spec lo hi) as [Hlt|Hge].
    + assert (is_int64 (lo + 1)) as Hlo1
        by (unfold is_int64, min_int64, max_int64 in *; lia).
      rewrite (int64_wrap_id _ Hlo1), IH by (done || lia).
      rewrite (seqZ_cons lo) by lia. rewrite <-app_assoc. simpl.
      do 3 f_equal; lia.
    + rewrite seqZ_nil by lia. by rewrite app_nil_r.
Qed.

(** More fuel than [rangeFuel] changes nothing: the loop has left its guard. *)
Lemma appendRange_fuel n lo hi acc :
  is_int64 lo → is_int64 hi →
  appendRange (rangeFuel lo hi + n) lo hi acc = appendRange (rangeFuel lo hi) lo hi acc.
Proof. intros. rewrite !appendRange_seqZ by (done || lia). done. Qed.

Lemma descending_cons_inv r prs :
  descending (r :: prs) → descending prs ∧ Forall (λ b, height b < height r) prs.
Proof. intros H. by inversion H. Qed.

Lemma descending_last r prs x :
  descending (r :: prs) → last prs = Some x → height x < height r.
Proof.
  intros [_ Hall]%descending_cons_inv Hlast.
  rewrite Forall_forall in Hall. apply Hall.
  rewrite last_Some in Hlast. destruct Hlast as [l' ->]. set_solver.
Qed.

(** What the pair loop leaves in [maybeGap]. *)
Lemma scanPairs_elem prev rest acc h :
  descending (prev :: rest) →
  Forall (λ r, is_int64 (height r)) (prev :: rest) →
  h ∈ scanPairs prev rest acc ↔
    h ∈ acc ∨
    ∃ i p c, (prev :: rest) !! i = Some p ∧ (prev :: rest) !! S i = Some c ∧
             height p - height c > 1 ∧ height c < h < height p.
Proof.
  revert prev acc. induction rest as [|cur rest IH]; intros prev acc Hdesc Hint; simpl.
  - split; [auto|]. intros [?|(i & p & c & _ & Hc & _)]; [done|].
    by destruct i.
  - apply descending_cons_inv in Hdesc as [Hdesc Hlt].
    apply Forall_cons in Hint as [Hprev Hint].
    pose proof Hint as [Hcur _]%Forall_cons.
    apply Forall_cons in Hlt as [Hlt _].
    assert (is_int64 (height cur + 1)) as Hc1
      by (unfold is_int64, min_int64, max_int64 in *; lia).
    rewrite (int64_wrap_id _ Hc1), appendRange_seqZ by (done || lia).
    rewrite IH by done. rewrite elem_of_app, elem_of_seqZ.
    split.
    + intros [[?|?]|(i & p & c & Hp & Hc & ?)]; [by left| |].
      * right. exists 0%nat, prev, cur. simpl. split_and!; (done || lia).
      * right. exists (S i), p, c. done.
    + intros [?|(i & p & c & Hp & Hc & ? & ?)]; [by left; left|].
      destruct i as [|i]; simpl in *.
      * simplify_eq. left; right. lia.
      * right. exists i, p, c. done.
Qed.

(** Every value the pair loop adds lies above the oldest height, and no
    value is added twice. *)
Lemma scanPairs_NoDup prev rest acc :
  descending (prev :: rest) →
  Forall (λ r, is_int64 (height r)) (prev :: rest) →
  NoDup acc → (∀ x, x ∈ acc → height prev < x) →
  NoDup (scanPairs prev rest acc) ∧
  ∀ x, x ∈ scanPairs prev rest acc → height (default prev (last rest)) < x.
Proof.
  revert prev acc. induction rest as [|cur rest IH]; intros prev acc Hdesc Hint Hnd Hacc; simpl.
  - done.
  - apply descending_cons_inv in Hdesc as [Hdesc Hlt].
    apply Forall_cons in Hint as [Hprev Hint].
    pose proof Hint as [Hcur _]%Forall_cons.
    apply Forall_cons in Hlt as [Hlt _].
    assert (is_int64 (height cur + 1)) as Hc1
      by (unfold is_int64, min_int64, max_int64 in *; lia).
    rewrite (int64_wrap_id _ Hc1), appendRange_seqZ by (done || lia).
    destruct (IH cur (acc ++ seqZ (height cur + 1) (height prev - (height cur + 1))))
      as [Hnd' Hlow]; [done|done| | |].
    + apply NoDup_app. split_and!; [done| |apply NoDup_seqZ].
      intros x Hx%Hacc Hx'%elem_of_seqZ. lia.
    + intros x [Hx%Hacc|Hx%elem_of_seqZ]%elem_of_app; lia.
    + split; [done|]. intros x Hx%Hlow.
      destruct rest as [|r rest]; [done|].
      change (last (cur :: r :: rest)) with (last (r :: rest)).
      destruct (last (r :: rest)) eqn:E; [done|]. by apply last_None in E.
Qed.

Lemma StronglySorted_le_lt (l : list Z) :
  StronglySorted Z.le l → NoDup l → StronglySorted Z.lt l.
Proof.
  induction 1 as [|x l Hs IH Hall]; intros Hnd; [constructor|].
  apply NoDup_cons in Hnd as [Hx Hnd].
  constructor; [auto|].
  rewrite Forall_forall in Hall |- *. intros y Hy.
  specialize (Hall y Hy). assert (x ≠ y) by (intros ->; done). lia.
Qed.

(** C3: for a non-empty list of reports with distinct heights in descending
    order, findEpochGaps returns, in strictly ascending order, exactly the
    heights from 0 up to (excluding) the oldest recorded height and the
    heights strictly between an adjacent pair (cur, prev) of reports with
    prev.height - cur.height > 1; heights 10, 8, 5 give
    0, 1, 2, 3, 4, 6, 7, 9. *)
Theorem findEpochGaps_spec (prs : list ProcessingReport.t) :
  prs ≠ [] →
  Forall (λ r, is_int64 (height r)) prs →
  descending prs →
  StronglySorted Z.lt (findEpochGaps prs) ∧
  (∀ h, h ∈ findEpochGaps prs ↔
     (∃ oldest, last prs = Some oldest ∧ 0 ≤ h < height oldest) ∨
     (∃ i prev cur, prs !! i = Some prev ∧ prs !! S i = Some cur ∧
                    height prev - height cur > 1 ∧ height cur < h < height prev)) ∧
  (∀ a b c, height a = 10 → height b = 8 → height c = 5 →
     findEpochGaps [a; b; c] = [0; 1; 2; 3; 4; 6; 7; 9]).
Proof.
  intros Hne Hint Hdesc. destruct prs as [|first rest]; [done|clear Hne].
  assert (last (first :: rest) = Some (default first (last rest))) as Hlast.
  { destruct rest as [|r rest]; [done|]. rewrite last_cons.
    destruct (last (r :: rest)) eqn:E; [done|]. by apply last_None in E. }
  set (oldest := default first (last rest)) in *.
  assert (is_int64 (height oldest)) as Hold.
  { rewrite Forall_forall in Hint. apply Hint.
    apply last_Some in Hlast as [l' ->]. set_solver. }
  assert (is_int64 0) as H0 by (unfold is_int64, min_int64, max_int64; lia).
  destruct (scanPairs_NoDup first rest [] Hdesc Hint) as [Hnd Hlow];
    [constructor|set_solver|].
  unfold findEpochGaps, sortAscending. fold oldest.
  rewrite appendRange_seqZ by (done || lia). rewrite Z.sub_0_r.
  split_and!.
  - apply StronglySorted_le_lt.
    + apply StronglySorted_merge_sort; apply _.
    + rewrite merge_sort_Permutation. apply NoDup_app. split_and!; [done| |apply NoDup_seqZ].
      intros x Hx%Hlow Hx'%elem_of_seqZ. fold oldest in Hx. lia.
  - intros h. rewrite merge_sort_Permutation, elem_of_app, elem_of_seqZ.
    rewrite scanPairs_elem by done. rewrite Hlast. split.
    + intros [[?|?]|?]; [set_solver|by right|]. left. exists oldest. split; [done|lia].
    + intros [(o & [= <-] & ?)|?]; [right; lia|left; by right].
  - intros [ha ta sa] [hb tb sb] [hc tc sc]; simpl. intros -> -> ->.
    vm_compute. done.
Qed.

Lemma findEpochGaps_spec_witness :
  let prs := [ProcessingReport.mk 4 "messages" "OK"; ProcessingReport.mk 1 "messages" "OK"] in
  findEpochGaps prs = [0; 2; 3] ∧ StronglySorted Z.lt (findEpochGaps prs).
Proof.
  split; [vm_compute; done|].
  eapply proj1, findEpochGaps_spec; [done| |].
  - repeat constructor; vm_compute; congruence.
  - repeat constructor; simpl; lia.
Defined.

End gap_props.

Module indexer_props.
Import visor storage gap gap_spec.

Lemma exec_Ok {A} db (rows a : A) : exec db rows = Ok a ↔ down db = None ∧ a = rows.
Proof.
  unfold exec. destruct (down db); split.
  - done.
  - by intros [? _].
  - by intros [= <-].
  - by intros [_ ->].
Qed.

Lemma exec_Err {A} db (rows : A) e : exec db rows = Err e ↔ down db = Some e.
Proof. unfold exec. destruct (down db); split; congruence. Qed.

#[local] Instance heightDescPR_trans : Transitive heightDescPR.
Proof. unfold heightDescPR. intros a b c ? ?. lia. Qed.

#[local] Instance heightDescPR_total : Total heightDescPR.
Proof. unfold heightDescPR. intros a b. lia. Qed.

(** DISTINCT ON over rows ordered by height leaves strictly descending
    heights, all of them heights of rows of the input. *)
Lemma distinctOnHeight_descending rows :
  StronglySorted heightDescPR rows →
  descending (distinctOnHeight rows) ∧ distinctOnHeight rows ⊆ rows.
Proof.
  induction 1 as [|r rest Hsorted [IHd IHs] Hall]; simpl.
  - split; [constructor|done].
  - destruct rest as [|r' rest]; [split; [repeat constructor|done]|].
    destruct (Z.eqb_spec (ProcessingReport.Height r) (ProcessingReport.Height r')) as [Heq|Hne].
    + split; [done|]. intros x Hx%IHs. by right.
    + split; [|by intros x [->|Hx%IHs]%elem_of_cons; [left|right]].
      constructor; [done|].
      rewrite Forall_forall in Hall |- *. intros x Hx%IHs.
      assert (heightDescPR r r') as Hr' by (apply Hall; left).
      assert (heightDescPR r' x) as Hx'.
      { apply elem_of_cons in Hx as [->|Hx]; [unfold heightDescPR; lia|].
        apply StronglySorted_inv in Hsorted as [_ Hrest].
        rewrite Forall_forall in Hrest. by apply Hrest. }
      unfold heightDescPR in *. lia.
Qed.

(** The height query delivers what findEpochGaps expects: reports with
    distinct heights in descending order, taken from the store. *)
Lemma selectReportHeights_descending db reportHeights :
  selectReportHeights db = Ok reportHeights →
  descending reportHeights ∧ reportHeights ⊆ processing_reports db.
Proof.
  intros [_ ->]%exec_Ok.
  destruct (distinctOnHeight_descending (merge_sort heightDescPR (processing_reports db)))
    as [Hd Hs].
  { apply StronglySorted_merge_sort; apply _. }
  split; [done|]. intros x Hx%Hs. by rewrite merge_sort_Permutation in Hx.
Qed.

Lemma walkGaps_blocks node allTasks reportTime gaps acc reports :
  walkGaps node allTasks reportTime gaps acc = Ok reports →
  ∃ blocks, reports = acc ++ concat blocks ∧
            Forall2 (emitted node allTasks reportTime) gaps blocks.
Proof.
  revert acc. induction gaps as [|gh gaps IH]; intros acc; simpl.
  - intros [= <-]. exists []. split; [by rewrite app_nil_r|constructor].
  - intros (ts & Hts%wrapErr_Ok & Hrest)%bind_Ok.
    destruct (Z.eqb_spec (types.TipSet.Height ts) gh) as [Heq|Hne];
      apply IH in Hrest as (blocks & -> & Hall).
    + eexists (_ :: blocks). split; [simpl; by rewrite app_assoc|].
      constructor; [|done]. exists ts. split_and!; [done| |done].
      intros _. by rewrite Heq.
    + exists ([] :: blocks). split; [done|].
      constructor; [|done]. exists ts. done.
Qed.

Lemma walkGaps_total node allTasks reportTime gaps acc :
  Forall (λ gh, is_Ok (lens.ChainGetTipSetByHeight node gh) = true) gaps →
  ∃ reports, walkGaps node allTasks reportTime gaps acc = Ok reports.
Proof.
  intros Hall. revert acc. induction Hall as [|gh gaps Hgh _ IH]; intros acc; simpl.
  - eauto.
  - destruct (lens.ChainGetTipSetByHeight node gh) as [ts|]; [simpl|done].
    destruct (_ =? _); apply IH.
Qed.

(** C4: detectProcessingGaps asks the chain source for the tipset at every
    candidate height of findEpochGaps; its output is, candidate by
    candidate, one Gap record with status GAP per known task at that height
    and tipset when the returned tipset is at the candidate height, and
    nothing when the returned tipset is at another height (a null round).
    It returns a result whenever the store and the chain queries do.  The
    candidates are computed from reports with distinct heights in
    descending order. *)
Theorem detectProcessingGaps_spec db node allTasks reportTime reportHeights :
  selectReportHeights db = Ok reportHeights →
  descending reportHeights ∧
  (∀ reports,
     detectProcessingGaps db node allTasks reportTime = Ok reports →
     ∃ blocks, reports = concat blocks ∧
       Forall2 (emitted node allTasks reportTime) (findEpochGaps reportHeights) blocks) ∧
  (Forall (λ gh, is_Ok (lens.ChainGetTipSetByHeight node gh) = true)
          (findEpochGaps reportHeights) →
   ∃ reports, detectProcessingGaps db node allTasks reportTime = Ok reports).
Proof.
  intros Hsel. split; [by apply selectReportHeights_descending in Hsel as [? _]|].
  unfold detectProcessingGaps. rewrite Hsel. simpl. split.
  - intros reports Hwalk. apply walkGaps_blocks in Hwalk as (blocks & -> & ?). eauto.
  - apply walkGaps_total.
Qed.

Lemma detectProcessingGaps_spec_witness :
  let db := mkDatabase [ProcessingReport.mk 3 "messages" "OK";
                        ProcessingReport.mk 1 "messages" "OK"] [] None in
  let node := nodeByHeight (λ h, Ok (tipsetAt (if h =? 2 then 3 else h) "ts")) in
  detectProcessingGaps db node ["blocks"; "messages"] 0 =
    Ok [GapReport.mk 0 "ts" "blocks" "GAP" "gapIndexer" 0;
        GapReport.mk 0 "ts" "messages" "GAP" "gapIndexer" 0] ∧
  ∃ reports, detectProcessingGaps db node ["blocks"; "messages"] 0 = Ok reports.
Proof.
  intros db node. split; [vm_compute; done|].
  refine (proj2 (proj2 (detectProcessingGaps_spec db node _ 0
                   [ProcessingReport.mk 3 "messages" "OK";
                    ProcessingReport.mk 1 "messages" "OK"] _)) _).
  - vm_compute. done.
  - vm_compute. repeat constructor.
Defined.

Lemma walkSkipped_Ok node reportTime skipped reports :
  walkSkipped node reportTime skipped = Ok reports →
  Forall2 (λ r g, ∃ ts,
      lens.ChainGetTipSetByHeight node (ProcessingReport.Height r) = Ok ts ∧
      g = GapReport.mk (ProcessingReport.Height r) (types.TipSet.Key ts)
            (ProcessingReport.Task r) "GAP" "gapIndexer" reportTime)
    skipped reports.
Proof.
  revert reports. induction skipped as [|r skipped IH]; intros reports; simpl.
  - intros [= <-]. constructor.
  - intros (ts & Hts%wrapErr_Ok & (rest & Hrest & [= <-])%bind_Ok)%bind_Ok.
    constructor; [eauto|auto].
Qed.

Lemma walkSkipped_total node reportTime skipped :
  Forall (λ r, is_Ok (lens.ChainGetTipSetByHeight node (ProcessingReport.Height r)) = true)
         skipped →
  ∃ reports, walkSkipped node reportTime skipped = Ok reports.
Proof.
  induction 1 as [|r skipped Hr _ [rest IH]]; simpl; [eauto|].
  destruct (lens.ChainGetTipSetByHeight node _); [|done]. simpl. rewrite IH. simpl. eauto.
Qed.

Lemma walkSkipped_Err node reportTime skipped r :
  r ∈ skipped →
  is_Ok (lens.ChainGetTipSetByHeight node (ProcessingReport.Height r)) = false →
  ∃ e, walkSkipped node reportTime skipped = Err e.
Proof.
  intros Hin Hr. induction Hin as [r skipped|r r' skipped _ IH]; simpl.
  - destruct (lens.ChainGetTipSetByHeight node _); [done|]. simpl. eauto.
  - destruct (lens.ChainGetTipSetByHeight node (ProcessingReport.Height r')); simpl; [|eauto].
    destruct (IH Hr) as [e ->]. simpl. eauto.
Qed.

(** C5 as the code has it: the skip detector asks the chain source for the
    tipset at the height of every completion record with status skip.
    When these queries succeed it emits, record by record, one Gap record
    with status GAP that carries the record's height and task and the key
    of the tipset the chain source returned (whatever the height of that
    tipset); when one of them fails it returns an error and no Gap record. *)
Theorem detectSkippedTipSets_spec db node reportTime skipped :
  selectSkippedReports db = Ok skipped →
  skipped ≡ₚ filter (λ r, ProcessingReport.Status r = ProcessingStatusSkip)
               (processing_reports db) ∧
  (Forall (λ r, is_Ok (lens.ChainGetTipSetByHeight node (ProcessingReport.Height r)) = true)
          skipped →
   ∃ reports, detectSkippedTipSets db node reportTime = Ok reports ∧
     Forall2 (λ r g, ∃ ts,
         lens.ChainGetTipSetByHeight node (ProcessingReport.Height r) = Ok ts ∧
         g = GapReport.mk (ProcessingReport.Height r) (types.TipSet.Key ts)
               (ProcessingReport.Task r) "GAP" "gapIndexer" reportTime)
       skipped reports) ∧
  (∀ r, r ∈ skipped →
     is_Ok (lens.ChainGetTipSetByHeight node (ProcessingReport.Height r)) = false →
     ∃ e, detectSkippedTipSets db node reportTime = Err e).
Proof.
  intros Hsel. split_and!.
  - apply exec_Ok in Hsel as [_ ->]. apply merge_sort_Permutation.
  - intros Hall. unfold detectSkippedTipSets. rewrite Hsel. simpl.
    destruct (walkSkipped_total node reportTime skipped Hall) as [reports Hw].
    exists reports. split; [done|]. by apply walkSkipped_Ok.
  - intros r Hin Hr. unfold detectSkippedTipSets. rewrite Hsel. simpl.
    by eapply walkSkipped_Err.
Qed.

Lemma detectSkippedTipSets_spec_witness :
  let db := mkDatabase [ProcessingReport.mk 120 "messages" "SKIP";
                        ProcessingReport.mk 121 "messages" "OK"] [] None in
  let node := nodeByHeight (λ h, Ok (tipsetAt h "ts")) in
  detectSkippedTipSets db node 0 = Ok [GapReport.mk 120 "ts" "messages" "GAP" "gapIndexer" 0] ∧
  [ProcessingReport.mk 120 "messages" "SKIP"] ≡ₚ
    filter (λ r, ProcessingReport.Status r = ProcessingStatusSkip) (processing_reports db).
Proof.
  intros db node. split; [vm_compute; done|].
  refine (proj1 (detectSkippedTipSets_spec db node 0
                   [ProcessingReport.mk 120 "messages" "SKIP"] _)).
  vm_compute. done.
Defined.

(** C5 as stated fails: the chain query at the height of a skip record
    fails, and the detector emits no Gap record for it. *)
Lemma detectSkippedTipSets_conditional :
  let db := mkDatabase [ProcessingReport.mk 120 "messages" "SKIP"] [] None in
  let node := nodeByHeight (λ h, Err "tipset not found") in
  ProcessingReport.mk 120 "messages" "SKIP" ∈ processing_reports db ∧
  ¬ ∃ reports, detectSkippedTipSets db node 0 = Ok reports.
Proof.
  split; [set_solver|]. intros [reports H]. vm_compute in H. done.
Qed.

End indexer_props.

Module filler_props.
Import visor storage gap gap_spec.

Local Abbreviation pk := GapReport.pk.

Lemma pk_inj_on (rows : list GapReport.t) a b :
  NoDup (pk <$> rows) → a ∈ rows → b ∈ rows → pk a = pk b → a = b.
Proof.
  induction rows as [|r rows IH]; simpl; [by intros _ ?%elem_of_nil|].
  intros [Hr Hnd]%NoDup_cons [->|Ha]%elem_of_cons [->|Hb]%elem_of_cons Hpk; auto.
  - destruct Hr. rewrite Hpk. by apply list_elem_of_fmap_2.
  - destruct Hr. rewrite <-Hpk. by apply list_elem_of_fmap_2.
Qed.

Lemma fillGap_pk c now r : pk (fillGap c now r) = pk r.
Proof.
  unfold fillGap. destruct (chain.NewTipSetIndexer _ _ _) as [idx|]; [|done].
  by destruct (chain.Walker_Run _ _ _ _).
Qed.

Lemma fillGap_Status c now r :
  GapReport.Status (fillGap c now r) = default "FILLED" (redriveError c now r).
Proof.
  unfold fillGap, redriveError. destruct (chain.NewTipSetIndexer _ _ _) as [idx|]; [|done].
  by destruct (chain.Walker_Run _ _ _ _).
Qed.

Lemma queryGaps_Ok g gaps :
  queryGaps g = Ok gaps →
  down (DB g) = None ∧ ∀ r, r ∈ gaps ↔ r ∈ gap_reports (DB g) ∧ selected g r.
Proof.
  unfold queryGaps, selectGaps, selected.
  destruct (tasks g) as [|t ts] eqn:Ht;
    intros [Hdown ->]%wrapErr_Ok%indexer_props.exec_Ok; (split; [done|]); intros r;
    rewrite merge_sort_Permutation, list_elem_of_filter.
  - split; [intros [? ?]; auto|]. intros [? [? _]]; done.
  - split; [intros [[? ?] ?]; auto|]. intros [? [? [?|?]]]; done.
Qed.

(** What GapFiller.Run writes: every selected gap record is replaced by
    its re-driven version, every other row stays as it was. *)
Lemma Run_gap_reports g c now db' :
  NoDup (pk <$> gap_reports (DB g)) →
  Run g c now = Ok db' →
  gap_reports db' =
    (λ r, if decide (selected g r) then fillGap c now r else r) <$> gap_reports (DB g).
Proof.
  intros Hnd (gaps & Hq & Hup)%bind_Ok.
  apply queryGaps_Ok in Hq as [Hdown Hgaps].
  unfold updateGaps in Hup.
  destruct (fillGap c now <$> gaps) as [|g0 gs] eqn:Hfilled.
  - injection Hup as <-. apply fmap_nil_inv in Hfilled as ->.
    rewrite <-(list_fmap_id (gap_reports (DB g))) at 1.
    apply list_fmap_ext. intros i r Hr%list_elem_of_lookup_2. simpl.
    destruct (decide (selected g r)) as [Hsel|]; [|done].
    exfalso. eapply elem_of_nil, Hgaps; eauto.
  - rewrite <-Hfilled in Hup. clear g0 gs Hfilled.
    apply indexer_props.exec_Ok in Hup as [_ ->]. simpl.
    apply list_fmap_ext. intros i r Hr%list_elem_of_lookup_2.
    assert (∀ x, x ∈ filter (λ g', GapReport.samePK g' r = true) (fillGap c now <$> gaps) →
                 x = fillGap c now r ∧ selected g r) as Hall.
    { intros x [Hpk (y & -> & [Hy Hsel]%Hgaps)%list_elem_of_fmap]%list_elem_of_filter.
      apply bool_decide_eq_true in Hpk. rewrite fillGap_pk in Hpk.
      assert (y = r) as -> by eauto using pk_inj_on. done. }
    destruct (filter _ _) as [|x l] eqn:Hf; simpl.
    + destruct (decide (selected g r)) as [Hsel|]; [|done]. exfalso.
      eapply elem_of_nil. rewrite <-Hf. apply list_elem_of_filter. split.
      * apply bool_decide_eq_true. apply fillGap_pk.
      * apply list_elem_of_fmap_2. apply Hgaps. done.
    + destruct (Hall x) as [-> Hsel]; [left|]. by rewrite decide_True.
Qed.

Lemma Run_total g c now : down (DB g) = None → ∃ db', Run g c now = Ok db'.
Proof.
  intros Hdown. unfold Run, queryGaps, selectGaps, updateGaps, updateByPK, exec.
  rewrite Hdown. destruct (tasks g); simpl; destruct (_ <$> _); eauto.
Qed.

(** C1 as the code has it: in a gap ledger with distinct primary keys,
    GapFiller.Run returns without an error when the store answers its
    statements, and when it returns without an error it has re-driven
    every gap record with status GAP (of the filler's tasks, when it was
    given any): a successful re-drive sets the status of the record to
    FILLED, a failed one overwrites the status with the error text; every
    other record is left as it was. *)
Theorem Run_fills g c now :
  NoDup (pk <$> gap_reports (DB g)) →
  (down (DB g) = None → ∃ db', Run g c now = Ok db') ∧
  ∀ db', Run g c now = Ok db' →
    NoDup (pk <$> gap_reports db') ∧
    ∀ r, r ∈ gap_reports (DB g) →
      (selected g r →
         ∃ r', r' ∈ gap_reports db' ∧ pk r' = pk r ∧
               GapReport.Reporter r' = GapReport.Reporter r ∧
               GapReport.ReportedAt r' = GapReport.ReportedAt r ∧
               match redriveError c now r with
               | None => GapReport.Status r' = "FILLED"
               | Some e => GapReport.Status r' = e
               end) ∧
      (¬ selected g r → r ∈ gap_reports db').
Proof.
  intros Hnd. split; [apply Run_total|].
  intros db' Hrun. rewrite (Run_gap_reports g c now db' Hnd Hrun). split.
  - rewrite <-list_fmap_compose.
    erewrite list_fmap_ext; [exact Hnd|]. intros i r _. simpl.
    destruct (decide _); [apply fillGap_pk|done].
  - intros r Hr. split; intros Hsel.
    + exists (fillGap c now r). split_and!.
      * apply list_elem_of_fmap. exists r. by rewrite decide_True.
      * apply fillGap_pk.
      * unfold fillGap. destruct (chain.NewTipSetIndexer _ _ _); [|done].
        by destruct (chain.Walker_Run _ _ _ _).
      * unfold fillGap. destruct (chain.NewTipSetIndexer _ _ _); [|done].
        by destruct (chain.Walker_Run _ _ _ _).
      * rewrite fillGap_Status. by destruct (redriveError c now r).
    + apply list_elem_of_fmap. exists r. by rewrite decide_False.
Qed.

Lemma Run_fills_witness :
  let open := GapReport.mk 120 "ts120" "messages" "GAP" "gapIndexer" 7 in
  let failing := GapReport.mk 130 "ts130" "messages" "GAP" "gapIndexer" 7 in
  let other := GapReport.mk 120 "ts120" "blocks" "GAP" "gapIndexer" 7 in
  let db := mkDatabase [] [open; failing; other] None in
  let c := chain.mkAPI ["messages"; "blocks"] (λ n ts, Ok (chain.mkIndexer n ts))
             (λ _ lo _, if lo =? 130 then Err "walk failed" else Ok ()) in
  let db' := mkDatabase []
               [GapReport.setStatus "FILLED" open; GapReport.setStatus "walk failed" failing;
                other] None in
  Run (mkGapFiller db ["messages"]) c 9 = Ok db' ∧
  NoDup (pk <$> gap_reports db') ∧
  ∃ r', r' ∈ gap_reports db' ∧ pk r' = pk failing ∧ GapReport.Status r' = "walk failed".
Proof.
  intros open failing other db c db'.
  assert (Run (mkGapFiller db ["messages"]) c 9 = Ok db') as Hrun
    by (vm_compute; reflexivity).
  assert (NoDup (pk <$> gap_reports (DB (mkGapFiller db ["messages"])))) as Hnd.
  { apply (bool_decide_unpack (NoDup _)). vm_compute. exact I. }
  destruct (proj2 (Run_fills (mkGapFiller db ["messages"]) c 9 Hnd) db' Hrun)
    as [Hnd' Hall].
  split; [exact Hrun|]. split; [exact Hnd'|].
  destruct (Hall failing) as [Hsel _]; [right; left|].
  destruct Hsel as (r' & Hin & Hpk & _ & _ & Hst).
  { split; [reflexivity|]. right. left. }
  exists r'. split; [exact Hin|]. split; [exact Hpk|]. exact Hst.
Defined.

(** C1 as stated fails twice on one run.  The filler is restricted to the
    task "messages"; the re-drive of height 5 fails with "boom" and the
    re-drive of height 6 would succeed.  The failed record does not keep
    status GAP (its status is the error text, so the next query for open
    gaps does not return it), and the open gap of task "blocks" is not
    processed at all. *)
Lemma Run_failure_overwrites_status :
  let a := GapReport.mk 5 "ts5" "messages" "GAP" "gapIndexer" 7 in
  let b := GapReport.mk 6 "ts6" "blocks" "GAP" "gapIndexer" 7 in
  let db := mkDatabase [] [a; b] None in
  let c := chain.mkAPI ["blocks"; "messages"] (λ n ts, Ok (chain.mkIndexer n ts))
             (λ _ lo _, if lo =? 5 then Err "boom" else Ok ()) in
  let db' := mkDatabase [] [GapReport.setStatus "boom" a; b] None in
  redriveError c 9 a = Some "boom" ∧ redriveError c 9 b = None ∧
  Run (mkGapFiller db ["messages"]) c 9 = Ok db' ∧
  queryGaps (mkGapFiller db' ["messages"]) = Ok [] ∧
  ¬ (∃ r', r' ∈ gap_reports db' ∧ pk r' = pk a ∧ GapReport.Status r' = "GAP") ∧
  ¬ (∃ r', r' ∈ gap_reports db' ∧ pk r' = pk b ∧ GapReport.Status r' = "FILLED").
Proof.
  intros a b db c db'. split_and!; try (vm_compute; done).
  - intros (r' & [->|[->|[]%elem_of_nil]%elem_of_cons]%elem_of_cons & Hpk & Hst);
      vm_compute in Hpk, Hst; congruence.
  - intros (r' & [->|[->|[]%elem_of_nil]%elem_of_cons]%elem_of_cons & Hpk & Hst);
      vm_compute in Hpk, Hst; congruence.
Qed.

End filler_props.

Module miner_props.
Import adt diff miner miner_spec.

(** *** Strategy selection *)

Lemma mapRequiresLegacyDiffing_iff pre cur pOpts cOpts :
  mapRequiresLegacyDiffing pre cur pOpts cOpts = true ↔
    legacyMinerCode (Code pre) ∨ legacyMinerCode (Code cur) ∨ pOpts ≠ cOpts.
Proof.
  unfold mapRequiresLegacyDiffing, legacyMinerCode, MapOpts_Equal.
  destruct (decide (Code pre = _)); [split; [intros _|done]; by left; left|].
  destruct (decide (Code pre = _)); [split; [intros _|done]; by left; right|].
  destruct (decide (Code cur = _)); [split; [intros _|done]; by right; left; left|].
  destruct (decide (Code cur = _)); [split; [intros _|done]; by right; left; right|].
  destruct pOpts as [b1 h1], cOpts as [b2 h2]; simpl.
  destruct (decide (b1 = b2)) as [->|Hb]; destruct (decide (h1 = h2)) as [->|Hh];
    rewrite ?(bool_decide_eq_true_2 (b2 = b2)), ?(bool_decide_eq_true_2 (h2 = h2)),
      ?(bool_decide_eq_false_2 (b1 = b2)), ?(bool_decide_eq_false_2 (h1 = h2)) by done;
    simpl; (split; intros Hcase; try done).
  - destruct Hcase as [[|]|[[|]|]]; done.
  - right; right. congruence.
  - right; right. congruence.
  - right; right. congruence.
Qed.

(** The guard of the sector diff compares with the storage-market codes. *)
Lemma arrayRequiresLegacyDiffing_iff pre cur pOpts cOpts :
  arrayRequiresLegacyDiffing pre cur pOpts cOpts = true ↔
    Code pre = builtin0.StorageMarketActorCodeID ∨
    Code pre = builtin2.StorageMarketActorCodeID ∨
    Code cur = builtin0.StorageMarketActorCodeID ∨
    Code cur = builtin2.StorageMarketActorCodeID ∨
    pOpts ≠ cOpts.
Proof.
  unfold arrayRequiresLegacyDiffing.
  destruct (decide (Code pre = _)); [split; [intros _|done]; by left|].
  destruct (decide (Code pre = _)); [split; [intros _|done]; by right; left|].
  destruct (decide (Code cur = _)); [split; [intros _|done]; by right; right; left|].
  destruct (decide (Code cur = _)); [split; [intros _|done]; by right; right; right; left|].
  destruct (decide (pOpts = cOpts)) as [->|Hne].
  - rewrite bool_decide_eq_true_2 by done. simpl. split; [done|].
    intros [|[|[|[|]]]]; done.
  - rewrite bool_decide_eq_false_2 by done. simpl. split; [intros _|done].
    by do 4 right.
Qed.

(** On two states of the v0 or v2 miner actor the sector diff runs the
    structural engine, whatever the engine is. *)
Lemma DiffSectors_legacy_miner_structural e pre cur pres curs :
  legacyMinerCode (Code pre) → legacyMinerCode (Code cur) →
  sectors pre = Ok pres → sectors cur = Ok curs →
  DiffSectors e pre cur =
    (changes ← Amt e pres curs 3;
     diffContainer ← applyChanges changes (NewSectorDiffContainer pre cur);
     Ok (Results diffContainer)).
Proof.
  intros Hpre Hcur Hp Hc. unfold DiffSectors. rewrite Hp, Hc. simpl.
  assert (SectorsAmtBitwidth (Code pre) = Ok 3) as ->
    by (destruct Hpre as [->| ->]; done).
  assert (SectorsAmtBitwidth (Code cur) = Ok 3) as ->
    by (destruct Hcur as [->| ->]; done).
  simpl.
  assert (arrayRequiresLegacyDiffing pre cur 3 3 = false) as ->; [|done].
  apply not_true_is_false. rewrite arrayRequiresLegacyDiffing_iff.
  destruct Hpre as [Hpre|Hpre], Hcur as [Hcur|Hcur]; rewrite Hpre, Hcur;
    intros [|[|[|[|]]]]; done.
Qed.

(** C2, evaluated on the code: for two states of the v0 and v2 storage-miner
    actors the pre-commit diff selects the generic strategy, and the sector
    diff, whose guard compares with the storage-market actor codes, selects
    the structural strategy. *)
Theorem DiffSectors_structural_on_legacy_miner :
  let pre := stateOfCode builtin0.StorageMinerActorCodeID in
  let cur := stateOfCode builtin2.StorageMinerActorCodeID in
  let opts := mkMapOpts 5 "sha256x2" in
  legacyMinerCode (Code pre) ∧ legacyMinerCode (Code cur) ∧
  SectorsAmtBitwidth (Code pre) = Ok 3 ∧ SectorsAmtBitwidth (Code cur) = Ok 3 ∧
  arrayRequiresLegacyDiffing pre cur 3 3 = false ∧
  DiffSectors tracingEngine pre cur = Err "structural" ∧
  mapRequiresLegacyDiffing pre cur opts opts = true ∧
  DiffPreCommits tracingEngine (λ _, Ok opts) pre cur = Err "generic".
Proof.
  intros pre cur opts. split_and!; try (vm_compute; done).
  - by left.
  - by right.
Qed.

(** *** The classification of the diff engine *)

Lemma elem_of_classify `{Countable K} (pre cur : gmap K Deferred) ch :
  ch ∈ classify pre cur ↔
    (∃ k b, pre !! k = Some b ∧ cur !! k = None ∧ ch = mkChange Remove k b []) ∨
    (∃ k b a, pre !! k = Some b ∧ cur !! k = Some a ∧ b ≠ a ∧ ch = mkChange Modify k b a) ∨
    (∃ k a, cur !! k = Some a ∧ pre !! k = None ∧ ch = mkChange Add k [] a).
Proof.
  unfold classify. rewrite elem_of_app, !list_elem_of_omap. split.
  - intros [([k b] & Hk%elem_of_map_to_list & Hch)|([k a] & Hk%elem_of_map_to_list & Hch)].
    + destruct (cur !! k) as [a|] eqn:Hc.
      * case_decide; [done|]. injection Hch as <-. right; left. eauto 10.
      * injection Hch as <-. left. eauto 10.
    + destruct (pre !! k) eqn:Hp; [done|]. injection Hch as <-. right; right. eauto 10.
  - intros [(k & b & Hp & Hc & ->)|[(k & b & a & Hp & Hc & Hne & ->)|(k & a & Hc & Hp & ->)]].
    + left. exists (k, b). split; [by apply elem_of_map_to_list|]. by rewrite Hc.
    + left. exists (k, b). split; [by apply elem_of_map_to_list|]. rewrite Hc.
      by rewrite decide_False.
    + right. exists (k, a). split; [by apply elem_of_map_to_list|]. by rewrite Hp.
Qed.

(** *** Sectors: what the change loop leaves in the container *)

Local Abbreviation expiration := SectorOnChainInfo.Expiration.

Lemma sector_applyChanges changes c c' :
  applyChanges changes c = Ok c' →
  pre c' = pre c ∧ after c' = after c ∧
  (∀ ch, ch ∈ changes → Type_ ch = Modify →
     ∃ siFrom siTo, decodeSectorOnChainInfo (pre c) (Before ch) = Ok siFrom ∧
                    decodeSectorOnChainInfo (after c) (After ch) = Ok siTo) ∧
  (∀ x, x ∈ SectorChanges.Extended (Results c') ↔
     x ∈ SectorChanges.Extended (Results c) ∨
     ∃ ch, ch ∈ changes ∧ Type_ ch = Modify ∧
           decodeSectorOnChainInfo (pre c) (Before ch) = Ok (From x) ∧
           decodeSectorOnChainInfo (after c) (After ch) = Ok (To x) ∧
           expiration (From x) ≠ expiration (To x)).
Proof.
  revert c. induction changes as [|ch changes IH]; intros c; simpl.
  - intros [= <-]. split_and!; [done|done|by intros ? ?%elem_of_nil|].
    intros x. split; [auto|]. intros [?|(? & []%elem_of_nil & _)]; done.
  - intros (c1 & Hstep & Hrest)%bind_Ok.
    apply IH in Hrest as (Hpre & Hafter & Hdec & Hext). clear IH.
    assert (pre c1 = pre c ∧ after c1 = after c ∧
            (Type_ ch = Modify →
               ∃ siFrom siTo,
                 decodeSectorOnChainInfo (pre c) (Before ch) = Ok siFrom ∧
                 decodeSectorOnChainInfo (after c) (After ch) = Ok siTo ∧
                 SectorChanges.Extended (Results c1) =
                   SectorChanges.Extended (Results c) ++
                     (if decide (expiration siFrom ≠ expiration siTo)
                      then [mkSectorExtensions siFrom siTo] else [])) ∧
            (Type_ ch ≠ Modify →
               SectorChanges.Extended (Results c1) = SectorChanges.Extended (Results c)))
      as (Hpre1 & Hafter1 & Hmod & Hother).
    { destruct (Type_ ch); simpl in Hstep.
      - apply bind_Ok in Hstep as (si & _ & [= <-]). done.
      - apply bind_Ok in Hstep as (si & _ & [= <-]). done.
      - apply bind_Ok in Hstep as (siFrom & HF & (siTo & HT & Hstep)%bind_Ok).
        split_and!; try done.
        + case_decide; by injection Hstep as <-.
        + case_decide; by injection Hstep as <-.
        + intros _. exists siFrom, siTo. split_and!; [done|done|].
          case_decide; injection Hstep as <-; simpl; [done|by rewrite app_nil_r]. }
    rewrite Hpre1, Hafter1 in *. split_and!; [congruence|congruence| |].
    + intros ch' [->|Hin]%elem_of_cons Hty; [|by eauto].
      destruct (Hmod Hty) as (f & t & ? & ? & _). eauto.
    + intros x. rewrite Hext. clear Hext Hdec. split.
      * intros [Hx|(ch' & Hin & ?)]; [|right; exists ch'; split; [by right|done]].
        destruct (Type_ ch) eqn:Hty.
        -- rewrite Hother in Hx by done. by left.
        -- rewrite Hother in Hx by done. by left.
        -- destruct (Hmod eq_refl) as (f & t & HF & HT & Heq). rewrite Heq in Hx.
           apply elem_of_app in Hx as [?|Hx]; [by left|]. right.
           case_decide; [|by apply elem_of_nil in Hx].
           apply list_elem_of_singleton in Hx as ->. exists ch.
           split_and!; [by left|done..].
      * intros [Hx|(ch' & [->|Hin]%elem_of_cons & Hty & HF & HT & Hne)].
        -- left. destruct (Type_ ch) eqn:Hty.
           ++ by rewrite Hother.
           ++ by rewrite Hother.
           ++ destruct (Hmod eq_refl) as (f & t & _ & _ & ->). apply elem_of_app. by left.
        -- left. destruct (Hmod Hty) as (f & t & HF' & HT' & ->).
           rewrite HF in HF'. rewrite HT in HT'. injection HF' as <-. injection HT' as <-.
           rewrite decide_True by done. apply elem_of_app. right.
           destruct x. by apply list_elem_of_singleton.
        -- right. eauto 10.
Qed.

Lemma DiffSectors_spec_engine prestate cur pres curs res :
  sectors prestate = Ok pres → sectors cur = Ok curs →
  DiffSectors spec_engine prestate cur = Ok res →
  ∃ c, applyChanges (classify pres curs) (NewSectorDiffContainer prestate cur) = Ok c ∧
       res = Results c.
Proof.
  intros Hp Hc. unfold DiffSectors. rewrite Hp, Hc. simpl.
  intros (po & _ & (co & _ & H)%bind_Ok)%bind_Ok.
  destruct (arrayRequiresLegacyDiffing _ _ _ _); simpl in H.
  - apply bind_Ok in H as (c & Hc' & [= <-]). eauto.
  - apply bind_Ok in H as (c & Hc' & [= <-]). eauto.
Qed.

Lemma sector_applyChanges_total changes c :
  (∀ ch, ch ∈ changes →
     match Type_ ch with
     | Add => is_Ok (decodeSectorOnChainInfo (after c) (After ch)) = true
     | Remove => is_Ok (decodeSectorOnChainInfo (pre c) (Before ch)) = true
     | Modify => is_Ok (decodeSectorOnChainInfo (pre c) (Before ch)) = true ∧
                 is_Ok (decodeSectorOnChainInfo (after c) (After ch)) = true
     end) →
  ∃ c', applyChanges changes c = Ok c'.
Proof.
  revert c. induction changes as [|ch changes IH]; intros c Hall; [simpl; eauto|].
  assert (∃ c1, match Type_ ch with
                | Add => onAdd (Key ch) (After ch) c
                | Remove => onRemove (Key ch) (Before ch) c
                | Modify => onModify (Key ch) (Before ch) (After ch) c
                end = Ok c1 ∧ pre c1 = pre c ∧ after c1 = after c) as (c1 & Hstep & Hp & Ha).
  { specialize (Hall ch (list_elem_of_here _ _)). simpl.
    unfold sectorDiffContainer_Add, sectorDiffContainer_Remove, sectorDiffContainer_Modify.
    destruct (Type_ ch).
    - destruct (decodeSectorOnChainInfo (after c) (After ch)); [simpl; eauto|done].
    - destruct (decodeSectorOnChainInfo (pre c) (Before ch)); [simpl; eauto|done].
    - destruct Hall as [HF HT].
      destruct (decodeSectorOnChainInfo (pre c) (Before ch)); [simpl|done].
      destruct (decodeSectorOnChainInfo (after c) (After ch)); [simpl|done].
      case_decide; eauto. }
  cbn [applyChanges]. rewrite Hstep. simpl. apply IH.
  intros ch' Hin. rewrite Hp, Ha. apply Hall. by right.
Qed.

(** DiffSectors returns a result when both states have sectors, their
    actor codes are miner codes and every stored value decodes. *)
Lemma DiffSectors_total prestate cur pres curs :
  sectors prestate = Ok pres → sectors cur = Ok curs →
  is_Ok (SectorsAmtBitwidth (Code prestate)) = true →
  is_Ok (SectorsAmtBitwidth (Code cur)) = true →
  (∀ k v, pres !! k = Some v → is_Ok (decodeSectorOnChainInfo prestate v) = true) →
  (∀ k v, curs !! k = Some v → is_Ok (decodeSectorOnChainInfo cur v) = true) →
  ∃ res, DiffSectors spec_engine prestate cur = Ok res.
Proof.
  intros Hp Hc Hbp Hbc Hdp Hdc. unfold DiffSectors. rewrite Hp, Hc. simpl.
  destruct (SectorsAmtBitwidth (Code prestate)); [simpl|done].
  destruct (SectorsAmtBitwidth (Code cur)); [simpl|done].
  destruct (sector_applyChanges_total (classify pres curs)
              (NewSectorDiffContainer prestate cur)) as [c Happly].
  { intros ch
      [(k & b & ? & ? & ->)|[(k & b & a' & ? & ? & ? & ->)|(k & a' & ? & ? & ->)]]%elem_of_classify;
      simpl; eauto. }
  destruct (arrayRequiresLegacyDiffing _ _ _ _); simpl; rewrite Happly; simpl; eauto.
Qed.

(** C6: the Modify callback of the sector diff decodes the old value with
    the previous state and the new value with the current state and
    appends the pair (From, To) to the Extended result exactly when their
    Expiration fields differ; it leaves the Added and Removed results as
    they are.  When both states have sectors, miner actor codes and values
    that decode, DiffSectors returns a result, and for every sector key
    present on both sides with different serialized bytes the pair of the
    decoded values is in the Extended result if and only if the two
    expirations differ; the Extended result holds nothing else. *)
Theorem DiffSectors_extended_iff_expiration prestate cur pres curs :
  sectors prestate = Ok pres → sectors cur = Ok curs →
  is_Ok (SectorsAmtBitwidth (Code prestate)) = true →
  is_Ok (SectorsAmtBitwidth (Code cur)) = true →
  (∀ k v, pres !! k = Some v → is_Ok (decodeSectorOnChainInfo prestate v) = true) →
  (∀ k v, curs !! k = Some v → is_Ok (decodeSectorOnChainInfo cur v) = true) →
  (∀ key from to m siFrom siTo,
     decodeSectorOnChainInfo (pre m) from = Ok siFrom →
     decodeSectorOnChainInfo (after m) to = Ok siTo →
     ∃ m', sectorDiffContainer_Modify key from to m = Ok m' ∧
       pre m' = pre m ∧ after m' = after m ∧
       SectorChanges.Added (Results m') = SectorChanges.Added (Results m) ∧
       SectorChanges.Removed (Results m') = SectorChanges.Removed (Results m) ∧
       SectorChanges.Extended (Results m') =
         SectorChanges.Extended (Results m) ++
           (if decide (expiration siFrom ≠ expiration siTo)
            then [mkSectorExtensions siFrom siTo] else [])) ∧
  ∃ res, DiffSectors spec_engine prestate cur = Ok res ∧
    (∀ k before after_,
       pres !! k = Some before → curs !! k = Some after_ → before ≠ after_ →
       ∃ siFrom siTo,
         decodeSectorOnChainInfo prestate before = Ok siFrom ∧
         decodeSectorOnChainInfo cur after_ = Ok siTo ∧
         (mkSectorExtensions siFrom siTo ∈ SectorChanges.Extended res ↔
            expiration siFrom ≠ expiration siTo)) ∧
    (∀ x, x ∈ SectorChanges.Extended res →
       ∃ k before after_,
         pres !! k = Some before ∧ curs !! k = Some after_ ∧ before ≠ after_ ∧
         decodeSectorOnChainInfo prestate before = Ok (From x) ∧
         decodeSectorOnChainInfo cur after_ = Ok (To x) ∧
         expiration (From x) ≠ expiration (To x)).
Proof.
  intros Hp Hc Hbp Hbc Hdp Hdc. split.
  { intros key from to m siFrom siTo HF HT. unfold sectorDiffContainer_Modify.
    rewrite HF, HT. simpl. case_decide; eexists; (split; [reflexivity|]); simpl;
      rewrite ?app_nil_r; done. }
  destruct (DiffSectors_total _ _ _ _ Hp Hc Hbp Hbc Hdp Hdc) as [res Hdiff].
  exists res. split; [done|].
  destruct (DiffSectors_spec_engine _ _ _ _ _ Hp Hc Hdiff) as (c & Happly & ->).
  apply sector_applyChanges in Happly as (_ & _ & Hdec & Hext). simpl in *. split.
  - intros k before after_ Hb Ha Hne.
    destruct (Hdec (mkChange Modify k before after_)) as (siFrom & siTo & HF & HT); [|done|].
    { apply elem_of_classify. right; left. eauto 10. }
    simpl in *. exists siFrom, siTo. split_and!; [done|done|]. rewrite Hext. split.
    + intros [[]%elem_of_nil|(ch & _ & _ & _ & _ & ?)]. done.
    + intros Hexp. right. exists (mkChange Modify k before after_). split_and!; try done.
      apply elem_of_classify. right; left. eauto 10.
  - intros x [[]%elem_of_nil|(ch & Hin & Hty & HF & HT & Hexp)]%Hext.
    apply elem_of_classify in Hin
      as [(k & b & _ & _ & ->)|[(k & b & a & ? & ? & ? & ->)|(k & a & _ & _ & ->)]];
      [done| |done].
    exists k, b, a. done.
Qed.

Lemma DiffSectors_extended_iff_expiration_witness :
  let pres : Array := {[10%N := [x05; x01]; 11%N := [x07; x01]]} in
  let curs : Array := {[10%N := [x09; x01]; 11%N := [x07; x02]]} in
  let prestate := stateV3 ∅ pres in
  let cur := stateV3 ∅ curs in
  let sector e w := SectorOnChainInfo.mk 10 "sealed" [] 0 e w 0 0 in
  DiffSectors spec_engine prestate cur
    = Ok (SectorChanges.mk [] [mkSectorExtensions (sector 5 1) (sector 9 1)] []) ∧
  ∃ res, DiffSectors spec_engine prestate cur = Ok res ∧
    (mkSectorExtensions (sector 5 1) (sector 9 1) ∈ SectorChanges.Extended res ↔ 5 ≠ 9) ∧
    (mkSectorExtensions (sector 7 1) (sector 7 2) ∈ SectorChanges.Extended res ↔ 7 ≠ 7).
Proof.
  intros pres curs prestate cur sector. split; [vm_compute; done|].
  destruct (DiffSectors_extended_iff_expiration prestate cur pres curs)
    as (_ & res & Hres & Hkeys & _).
  - reflexivity.
  - reflexivity.
  - reflexivity.
  - reflexivity.
  - intros k v [[<- <-]|[_ [<- <-]%lookup_singleton_Some]]%lookup_insert_Some; reflexivity.
  - intros k v [[<- <-]|[_ [<- <-]%lookup_singleton_Some]]%lookup_insert_Some; reflexivity.
  - exists res. split; [exact Hres|]. split.
    + destruct (Hkeys 10%N [x05; x01] [x09; x01]) as (siFrom & siTo & HF & HT & Hiff);
        [reflexivity|reflexivity|discriminate|].
      vm_compute in HF, HT. injection HF as <-. injection HT as <-. exact Hiff.
    + destruct (Hkeys 11%N [x07; x01] [x07; x02]) as (siFrom & siTo & HF & HT & Hiff);
        [reflexivity|reflexivity|discriminate|].
      vm_compute in HF, HT. injection HF as <-. injection HT as <-. exact Hiff.
Defined.

(** *** Pre-commits *)

Lemma preCommit_applyChanges changes c c' :
  applyChanges changes c = Ok c' →
  ∃ added removed,
    PreCommitChanges.Added (pc_Results c') = PreCommitChanges.Added (pc_Results c) ++ added ∧
    PreCommitChanges.Removed (pc_Results c') = PreCommitChanges.Removed (pc_Results c) ++ removed ∧
    Forall2 (λ x ch, decodeSectorPreCommitOnChainInfo (pc_after c) (After ch) = Ok x)
      added (filter (λ ch, Type_ ch = Add) changes) ∧
    Forall2 (λ x ch, decodeSectorPreCommitOnChainInfo (pc_pre c) (Before ch) = Ok x)
      removed (filter (λ ch, Type_ ch = Remove) changes).
Proof.
  revert c. induction changes as [|ch changes IH]; intros c; simpl.
  - intros [= <-]. exists [], []. rewrite !app_nil_r. split_and!; (done || constructor).
  - intros (c1 & Hstep & Hrest)%bind_Ok.
    apply IH in Hrest as (added & removed & HA & HR & HFA & HFR). clear IH.
    rewrite HA, HR. rewrite !filter_cons.
    destruct (Type_ ch) eqn:Hty; simpl in Hstep.
    + apply bind_Ok in Hstep as (sp & Hsp & [= <-]). simpl in *.
      exists (sp :: added), removed. rewrite ?decide_True, ?decide_False by done.
      rewrite <-app_assoc. split_and!; [done|done| |done]. by constructor.
    + apply bind_Ok in Hstep as (sp & Hsp & [= <-]). simpl in *.
      exists added, (sp :: removed). rewrite ?decide_False, ?decide_True by done.
      rewrite <-app_assoc. split_and!; [done|done|done|]. by constructor.
    + injection Hstep as <-. exists added, removed.
      rewrite ?decide_False by done. done.
Qed.

Lemma omap_cons {A B} (f : A → option B) x l :
  omap f (x :: l) = match f x with Some y => y :: omap f l | None => omap f l end.
Proof. done. Qed.

Lemma classify_Add `{Countable K} (pre cur : gmap K Deferred) :
  filter (λ ch, Type_ ch = Add) (classify pre cur) =
    (λ kv, mkChange Add kv.1 [] kv.2) <$> filter (λ kv, pre !! kv.1 = None) (map_to_list cur).
Proof.
  unfold classify. rewrite filter_app.
  generalize (map_to_list pre) (map_to_list cur). intros l1 l2.
  replace (filter _ (omap _ l1)) with (@nil (Change K)).
  - rewrite app_nil_l. induction l2 as [|[k a] l2 IH]; [done|].
    rewrite omap_cons, (filter_cons (λ kv, pre !! kv.1 = None)). cbn [fst snd].
    destruct (pre !! k) eqn:Hp.
    + by rewrite decide_False.
    + rewrite decide_True by done. rewrite filter_cons, decide_True by done.
      rewrite fmap_cons. by rewrite IH.
  - induction l1 as [|[k b] l1 IH]; [done|]. rewrite omap_cons.
    destruct (cur !! k); [case_decide|]; rewrite ?filter_cons, ?decide_False by done; done.
Qed.

Lemma classify_Remove `{Countable K} (pre cur : gmap K Deferred) :
  filter (λ ch, Type_ ch = Remove) (classify pre cur) =
    (λ kv, mkChange Remove kv.1 kv.2 []) <$> filter (λ kv, cur !! kv.1 = None) (map_to_list pre).
Proof.
  unfold classify. rewrite filter_app.
  generalize (map_to_list pre) (map_to_list cur). intros l1 l2.
  replace (filter _ (omap _ l2)) with (@nil (Change K)).
  - rewrite app_nil_r. induction l1 as [|[k b] l1 IH]; [done|].
    rewrite omap_cons, (filter_cons (λ kv, cur !! kv.1 = None)). cbn [fst snd].
    destruct (cur !! k) eqn:Hc.
    + rewrite (decide_False (P:=Some l = None)) by done. case_decide; [apply IH|].
      rewrite filter_cons, decide_False by done. apply IH.
    + rewrite decide_True by done. rewrite filter_cons, decide_True by done.
      rewrite fmap_cons. by rewrite IH.
  - induction l2 as [|[k a] l2 IH]; [done|]. rewrite omap_cons.
    destruct (pre !! k); rewrite ?filter_cons, ?decide_False by done; done.
Qed.

Lemma DiffPreCommits_spec_engine mapOpts prestate cur prep curp res :
  precommits prestate = Ok prep → precommits cur = Ok curp →
  DiffPreCommits spec_engine mapOpts prestate cur = Ok res →
  ∃ c, applyChanges (classify prep curp) (NewPreCommitDiffContainer prestate cur) = Ok c ∧
       res = pc_Results c.
Proof.
  intros Hp Hc. unfold DiffPreCommits. rewrite Hp, Hc. simpl.
  intros (po & _ & (co & _ & H)%bind_Ok)%bind_Ok.
  destruct (mapRequiresLegacyDiffing _ _ _ _); simpl in H.
  - apply bind_Ok in H as (c & Hc' & [= <-]). eauto.
  - apply bind_Ok in H as (c & Hc' & [= <-]). eauto.
Qed.

Lemma preCommit_applyChanges_total changes c :
  (∀ ch, ch ∈ changes →
     match Type_ ch with
     | Add => is_Ok (decodeSectorPreCommitOnChainInfo (pc_after c) (After ch)) = true
     | Remove => is_Ok (decodeSectorPreCommitOnChainInfo (pc_pre c) (Before ch)) = true
     | Modify => True
     end) →
  ∃ c', applyChanges changes c = Ok c'.
Proof.
  revert c. induction changes as [|ch changes IH]; intros c Hall; [simpl; eauto|].
  assert (∃ c1, match Type_ ch with
                | Add => onAdd (Key ch) (After ch) c
                | Remove => onRemove (Key ch) (Before ch) c
                | Modify => onModify (Key ch) (Before ch) (After ch) c
                end = Ok c1 ∧ pc_pre c1 = pc_pre c ∧ pc_after c1 = pc_after c)
    as (c1 & Hstep & Hp & Ha).
  { specialize (Hall ch (list_elem_of_here _ _)). simpl.
    unfold preCommitDiffContainer_Add, preCommitDiffContainer_Remove,
      preCommitDiffContainer_Modify.
    destruct (Type_ ch).
    - destruct (decodeSectorPreCommitOnChainInfo (pc_after c) (After ch)); [simpl; eauto|done].
    - destruct (decodeSectorPreCommitOnChainInfo (pc_pre c) (Before ch)); [simpl; eauto|done].
    - eauto. }
  cbn [applyChanges]. rewrite Hstep. simpl. apply IH.
  intros ch' Hin. rewrite Hp, Ha. apply Hall. by right.
Qed.

(** DiffPreCommits returns a result when both states have pre-commits, the
    map options of their actor codes are known and every value present on
    one side only decodes; the values of keys present on both sides are
    never decoded. *)
Lemma DiffPreCommits_total mapOpts prestate cur prep curp :
  precommits prestate = Ok prep → precommits cur = Ok curp →
  is_Ok (mapOpts (Code prestate)) = true → is_Ok (mapOpts (Code cur)) = true →
  (∀ k v, prep !! k = Some v → curp !! k = None →
     is_Ok (decodeSectorPreCommitOnChainInfo prestate v) = true) →
  (∀ k v, curp !! k = Some v → prep !! k = None →
     is_Ok (decodeSectorPreCommitOnChainInfo cur v) = true) →
  ∃ res, DiffPreCommits spec_engine mapOpts prestate cur = Ok res.
Proof.
  intros Hp Hc Hbp Hbc Hdp Hdc. unfold DiffPreCommits. rewrite Hp, Hc. simpl.
  destruct (mapOpts (Code prestate)); [simpl|done].
  destruct (mapOpts (Code cur)); [simpl|done].
  destruct (preCommit_applyChanges_total (classify prep curp)
              (NewPreCommitDiffContainer prestate cur)) as [c Happly].
  { intros ch
      [(k & b & ? & ? & ->)|[(k & b & a' & ? & ? & ? & ->)|(k & a' & ? & ? & ->)]]%elem_of_classify;
      simpl; eauto. }
  destruct (mapRequiresLegacyDiffing _ _ _ _); simpl; rewrite Happly; simpl; eauto.
Qed.

(** C10: the pre-commit Modify handler returns the container as it is,
    without an error; and when DiffPreCommits returns a result, its Added
    records are, one for one, the decoded values of the keys present only
    on the new side and its Removed records the decoded values of the keys
    present only on the old side: a key present on both sides contributes
    nothing, whatever its bytes. *)
Theorem DiffPreCommits_discards_modified mapOpts prestate cur prep curp res :
  precommits prestate = Ok prep → precommits cur = Ok curp →
  DiffPreCommits spec_engine mapOpts prestate cur = Ok res →
  (∀ key from to m, preCommitDiffContainer_Modify key from to m = Ok m) ∧
  Forall2 (λ x kv, decodeSectorPreCommitOnChainInfo cur kv.2 = Ok x)
    (PreCommitChanges.Added res)
    (filter (λ kv, prep !! kv.1 = None) (map_to_list curp)) ∧
  Forall2 (λ x kv, decodeSectorPreCommitOnChainInfo prestate kv.2 = Ok x)
    (PreCommitChanges.Removed res)
    (filter (λ kv, curp !! kv.1 = None) (map_to_list prep)).
Proof.
  intros Hp Hc Hdiff. split; [done|].
  destruct (DiffPreCommits_spec_engine _ _ _ _ _ _ Hp Hc Hdiff) as (c & Happly & ->).
  apply preCommit_applyChanges in Happly as (added & removed & -> & -> & HA & HR).
  simpl in *. rewrite classify_Add in HA. rewrite classify_Remove in HR.
  split.
  - apply Forall2_fmap_r in HA. done.
  - apply Forall2_fmap_r in HR. done.
Qed.

Lemma DiffPreCommits_discards_modified_witness :
  let prestate := stateV3 {[ "a" := [x01; x05]; "b" := [x02; x05] ]} ∅ in
  let cur := stateV3 {[ "b" := [x02; x09]; "c" := [x03; x07] ]} ∅ in
  let res := PreCommitChanges.mk [SectorPreCommitOnChainInfo.mk 3 "sealed" 7 0 0]
                                 [SectorPreCommitOnChainInfo.mk 1 "sealed" 5 0 0] in
  DiffPreCommits spec_engine (λ _, Ok (mkMapOpts 5 "sha256")) prestate cur = Ok res ∧
  ∀ key from to m, preCommitDiffContainer_Modify key from to m = Ok m.
Proof.
  intros prestate cur res. split; [vm_compute; done|].
  refine (proj1 (DiffPreCommits_discards_modified (λ _, Ok (mkMapOpts 5 "sha256"))
                   prestate cur {[ "a" := [x01; x05]; "b" := [x02; x05] ]}
                   {[ "b" := [x02; x09]; "c" := [x03; x07] ]} res _ _ _)).
  - reflexivity.
  - reflexivity.
  - vm_compute. done.
Defined.

End miner_props.

Module messages_props.
Import messagemodel message message_spec.

Lemma M_bind_inv {T A B} (m : M T A) (k : A → M T B) w r w' :
  (m ≫= k) w = (r, w') →
  (∃ a w1, m w = (Ok a, w1) ∧ k a w1 = (r, w')) ∨
  (∃ e, m w = (Err e, w') ∧ r = Err e).
Proof.
  unfold mbind, M_bind. destruct (m w) as [[a|e] w1].
  - intros ?. left. eauto.
  - intros [= <- <-]. right. eauto.
Qed.

Lemma M_bind_Ok {T A B} (m : M T A) (k : A → M T B) w b w' :
  (m ≫= k) w = (Ok b, w') ↔ ∃ a w1, m w = (Ok a, w1) ∧ k a w1 = (Ok b, w').
Proof.
  split.
  - intros [?|(e & _ & ?)]%M_bind_inv; done.
  - intros (a & w1 & Hm & Hk). unfold mbind, M_bind. by rewrite Hm.
Qed.

Lemma M_bind_eval {T A B} (m : M T A) (k : A → M T B) w a w1 :
  m w = (Ok a, w1) → (m ≫= k) w = k a w1.
Proof. intros Hm. unfold mbind, M_bind. by rewrite Hm. Qed.

Lemma wrapM_inv {T A} prefix (m : M T A) w r w' :
  wrapM prefix m w = (r, w') → ∃ r0, m w = (r0, w') ∧ r = wrapErr prefix r0.
Proof. unfold wrapM. destruct (m w) as [r0 w1]. intros [= <- <-]. eauto. Qed.

(** *** Insert, ignore on duplicate *)


Lemma Message_PersistWithTx_Ok {T} (m : Message.t) (tx tx' : Tx T) :
  Message_PersistWithTx m tx = Ok tx' →
  faults tx (Message.Cid m) = None ∧ faults tx' = faults tx ∧ others tx' = others tx ∧
  is_Some (messages tx' !! Message.Cid m) ∧
  (∀ c, is_Some (messages tx !! c) → messages tx' !! c = messages tx !! c).
Proof.
  unfold Message_PersistWithTx, Insert_OnConflictDoNothing. intros H%wrapErr_Ok.
  destruct (faults tx (Message.Cid m)); [done|].
  destruct (messages tx !! Message.Cid m) as [m0|] eqn:Hm; injection H as <-; simpl.
  - rewrite Hm. split_and!; eauto.
  - rewrite lookup_insert_eq. split_and!; eauto.
    intros c [x Hc]. rewrite lookup_insert_ne; [done|]. intros <-. congruence.
Qed.

Lemma Messages_PersistWithTx_Ok {T} ms (tx tx' : Tx T) :
  Messages_PersistWithTx ms tx = Ok tx' →
  faults tx' = faults tx ∧ others tx' = others tx ∧
  (∀ m, m ∈ ms → faults tx (Message.Cid m) = None ∧ is_Some (messages tx' !! Message.Cid m)) ∧
  (∀ c, is_Some (messages tx !! c) → messages tx' !! c = messages tx !! c).
Proof.
  revert tx. induction ms as [|m ms IH]; intros tx; simpl.
  - intros [= <-]. split_and!; [done|done|by intros ? ?%elem_of_nil|done].
  - intros (tx1 & H1 & Hrest)%bind_Ok.
    apply Message_PersistWithTx_Ok in H1 as (Hf & Hf1 & Ho1 & Hin & Hkeep).
    apply IH in Hrest as (Hf' & Ho' & Hall & Hkeep').
    split_and!; [congruence|congruence| |].
    + intros m' [->|Hm']%elem_of_cons.
      * split; [done|]. rewrite Hkeep' by done. done.
      * destruct (Hall m' Hm') as [? ?]. split; [congruence|done].
    + intros c Hc. rewrite Hkeep'; [by apply Hkeep|]. by rewrite Hkeep.
Qed.


(** *** The stages before the transaction leave the store alone *)

Lemma poll_db {T} ctx (w : World T) r w' : poll ctx w = (r, w') → db w' = db w.
Proof. by intros [= <- <-]. Qed.

Lemma fetchMessages_db {T} (p : MessageProcessor T) ctx cids out w r w' :
  fetchMessages p ctx cids out w = (r, w') → db w' = db w.
Proof.
  revert out w. induction cids as [|blk cids IH]; intros out w; simpl.
  - by intros [= <- <-].
  - intros [(done & w1 & [= <- <-] & H)|(e & [=] & _)]%M_bind_inv.
    destruct (ctx (ticks w)); [by injection H as <- <-|].
    apply M_bind_inv in H as [(bm & w2 & [= _ <-] & H)|(e & [= _ <-] & _)]; [|done].
    by apply IH in H.
Qed.

Lemma fetchReceipts_db {T} (p : MessageProcessor T) ctx ts cids out w r w' :
  fetchReceipts p ctx ts cids out w = (r, w') → db w' = db w.
Proof.
  revert out w. induction cids as [|blk cids IH]; intros out w; simpl.
  - by intros [= <- <-].
  - intros [(done & w1 & [= <- <-] & H)|(e & [=] & _)]%M_bind_inv.
    destruct (ctx (ticks w)); [by injection H as <- <-|].
    apply M_bind_inv in H as [(recs & w2 & [= _ <-] & H)|(e & [= _ <-] & _)]; [|done].
    apply M_bind_inv in H as [(msgs & w3 & [= _ <-] & H)|(e & [= _ <-] & _)]; [|done].
    destruct (appendReceipts _ _ _ _ _); [by apply IH in H|by injection H as <- <-].
Qed.

(** *** fetchReceipts panics only when a block has more receipts than
    parent messages *)

Lemma appendReceipts_aligned ts msgs i recs out :
  (i + length recs ≤ length msgs)%nat →
  ∃ out', appendReceipts ts msgs i recs out = Returns out'.
Proof.
  revert i out. induction recs as [|r recs IH]; intros i out Hlen; simpl in *; [eauto|].
  destruct (lookup_lt_is_Some_2 msgs i) as [m ->]; [lia|].
  apply IH. lia.
Qed.

Lemma fetchReceipts_aligned {T} (p : MessageProcessor T) ctx ts cids out w w' :
  parentsAligned (node p) → fetchReceipts p ctx ts cids out w ≠ (Ok Panics, w').
Proof.
  intros Hal. revert out w. induction cids as [|blk cids IH]; intros out w; simpl; [done|].
  intros (done & w1 & [= <- <-] & H)%M_bind_Ok.
  destruct (ctx (ticks w)); [done|].
  apply M_bind_Ok in H as (recs & w2 & [= Hrecs <-] & H).
  apply M_bind_Ok in H as (msgs & w3 & [= Hmsgs <-] & H).
  destruct (appendReceipts_aligned ts msgs 0 recs out) as [out' Hout];
    [simpl; by eapply Hal|].
  rewrite Hout in H. by apply IH in H.
Qed.

Lemma extractBlocks_db {T} ctx height blkMsgs st (w : World T) r w' :
  extractBlocks ctx height blkMsgs st w = (r, w') → db w' = db w.
Proof.
  revert st w. induction blkMsgs as [|[blk msgs] blkMsgs IH]; intros st w; simpl.
  - by intros [= <- <-].
  - intros [(done & w1 & [= <- <-] & H)|(e & [=] & _)]%M_bind_inv.
    destruct (ctx (ticks w)); [by injection H as <- <-|].
    apply M_bind_inv in H as [(st1 & w2 & [= _ <-] & H)|(e & [= _ <-] & _)]; [|done].
    by apply IH in H.
Qed.

Lemma extractMessageModels_db {T} ctx ts blkMsgs (w : World T) r w' :
  extractMessageModels ctx ts blkMsgs w = (r, w') → db w' = db w.
Proof.
  unfold extractMessageModels.
  intros [(st & w1 & H & Hend)|(e & H & _)]%M_bind_inv; [|by apply extractBlocks_db in H].
  apply extractBlocks_db in H.
  destruct (types.TipSet.Cids ts); [by injection Hend as <- <-|].
  case_decide; by injection Hend as <- <-.
Qed.

(** extractMessageModels returns what the loop has collected, and only for
    a tipset that has a block and a parent base fee that is not zero. *)
Lemma extractMessageModels_Returns {T} ctx ts blkMsgs (w : World T) out w' :
  extractMessageModels ctx ts blkMsgs w = (Ok (Returns out), w') →
  ∃ st,
    extractBlocks ctx (types.TipSet.Height ts) blkMsgs (mkModels [] [] [] ∅ 0 0) w
      = (Ok st, w') ∧
    (msgModels st, bmsgModels st, pmsgModels st,
     MessageGasEconomy.mk (types.TipSet.ParentState ts) (totalGasLimit st)
       (totalUniqGasLimit st)) = out ∧
    types.TipSet.Cids ts ≠ [] ∧ types.TipSet.ParentBaseFee ts ≠ 0.
Proof.
  unfold extractMessageModels. intros (st & w1 & H & Hend)%M_bind_Ok.
  destruct (types.TipSet.Cids ts); [done|]. case_decide; [done|].
  injection Hend as <- <-. by exists st.
Qed.

Lemma extractMessageModels_sound {T} ctx ts blkMsgs (w : World T) w' :
  types.TipSet.Cids ts ≠ [] → types.TipSet.ParentBaseFee ts ≠ 0 →
  extractMessageModels ctx ts blkMsgs w ≠ (Ok Panics, w').
Proof.
  intros Hc Hf. unfold extractMessageModels. intros (st & w1 & H & Hend)%M_bind_Ok.
  destruct (types.TipSet.Cids ts); [done|]. by rewrite decide_False in Hend.
Qed.

(** What processTipSet does to the store. *)
Lemma processTipSet_store {T} (p : MessageProcessor T) ctx ts w r w' :
  processTipSet p ctx ts w = (r, w') →
  match r with
  | Err _ | Ok Panics => db w' = db w
  | Ok (Returns _) =>
      ∃ blkMsgs rcts msgs bmsgs processingMsgs econ w1 w2 w3,
        fetchMessages p ctx (types.TipSet.Cids ts) ∅ w = (Ok blkMsgs, w1) ∧
        fetchReceipts p ctx ts (types.TipSet.Cids ts) [] w1 = (Ok (Returns rcts), w2) ∧
        extractMessageModels ctx ts (map_to_list blkMsgs) w2
          = (Ok (Returns (msgs, bmsgs, processingMsgs, econ)), w3) ∧
        persistAll p (mkMessageTaskResult msgs bmsgs rcts econ) processingMsgs (db w)
          = Ok (db w')
  end.
Proof.
  unfold processTipSet. intros H.
  apply M_bind_inv in H as [(blkMsgs & w1 & (r1 & H1 & Hr1)%wrapM_inv & H)|(e & (r1 & H1 & _)%wrapM_inv & ->)];
    [|by apply fetchMessages_db in H1].
  symmetry in Hr1. apply wrapErr_Ok in Hr1 as ->.
  pose proof (fetchMessages_db _ _ _ _ _ _ _ H1) as Hdb1.
  apply M_bind_inv in H as [(fetched & w2 & (r2 & H2 & Hr2)%wrapM_inv & H)|(e & (r2 & H2 & _)%wrapM_inv & ->)];
    [|apply fetchReceipts_db in H2; congruence].
  symmetry in Hr2. apply wrapErr_Ok in Hr2 as ->.
  pose proof (fetchReceipts_db _ _ _ _ _ _ _ _ H2) as Hdb2.
  destruct fetched as [rcts|]; [|injection H as <- <-; congruence].
  apply M_bind_inv in H as [(ex & w3 & (r3 & H3 & Hr3)%wrapM_inv & H)|(e & (r3 & H3 & _)%wrapM_inv & ->)];
    [|apply extractMessageModels_db in H3; congruence].
  symmetry in Hr3. apply wrapErr_Ok in Hr3 as ->.
  pose proof (extractMessageModels_db _ _ _ _ _ _ H3) as Hdb3.
  destruct ex as [[[[msgs bmsgs] processingMsgs] econ]|];
    [|injection H as <- <-; congruence].
  apply M_bind_inv in H as [(u & w4 & (r4 & H4 & Hr4)%wrapM_inv & [= <- <-])
                           |(e & (r4 & H4 & Hr4)%wrapM_inv & ->)];
    unfold inTransaction, RunInTransaction in H4;
    destruct (persistAll _ _ _ (db w3)) as [tx|e'] eqn:Hp; injection H4 as <- <-.
  - exists blkMsgs, rcts, msgs, bmsgs, processingMsgs, econ, w1, w2, w3.
    split_and!; try done. simpl. rewrite <-Hp. f_equal. congruence.
  - done.
  - done.
  - simpl. congruence.
Qed.




(** *** extractMessageModels *)

Local Abbreviation cidOf := types.Message.Cid.

Lemma extractBlock_Ok height blk messages st st' :
  extractBlock height blk messages st = Ok st' →
  bmsgModels st' = bmsgModels st ++ ((λ m, BlockMessage.mk blk (cidOf m)) <$> messages) ∧
  (consistent st →
     consistent st' ∧
     ∀ c, c ∈ Message.Cid <$> msgModels st' ↔
          c ∈ Message.Cid <$> msgModels st ∨ c ∈ cidOf <$> messages).
Proof.
  revert st. induction messages as [|m messages IH]; intros st; simpl.
  - intros [= <-]. rewrite app_nil_r. split; [done|]. intros Hc. split; [done|].
    intros c. split; [auto|]. intros [?|?%elem_of_nil]; done.
  - destruct (decide (cidOf m ∈ msgsSeen st)) as [Hseen|Hnew].
    + intros H. apply IH in H as [Hb Hinv]. simpl in *.
      split; [by rewrite Hb, <-app_assoc|].
      intros Hc. destruct (Hinv Hc) as [Hc' Hiff]. split; [done|].
      intros c. rewrite Hiff, elem_of_cons. split; [intros [?|?]; auto|].
      intros [?|[->|?]]; auto. left. by apply Hc.
    + intros (b & _ & H)%bind_Ok. apply IH in H as [Hb Hinv]. simpl in *.
      split; [by rewrite Hb, <-app_assoc|].
      intros [Hnd Hseen].
      destruct Hinv as [Hc' Hiff].
      { split; simpl.
        - rewrite fmap_app. apply NoDup_app. split_and!; [done| |apply NoDup_singleton].
          intros c Hc [= ->]%list_elem_of_singleton. apply Hnew. by apply Hseen.
        - intros c. rewrite elem_of_union, elem_of_singleton, fmap_app, elem_of_app.
          simpl. rewrite list_elem_of_singleton, Hseen. tauto. }
      split; [done|].
      intros c. rewrite Hiff, fmap_app, elem_of_app, elem_of_cons. simpl.
      rewrite list_elem_of_singleton. tauto.
Qed.

Lemma extractBlocks_Ok {T} ctx height blkMsgs st (w w' : World T) st' :
  extractBlocks ctx height blkMsgs st w = (Ok st', w') →
  bmsgModels st' =
    bmsgModels st ++
      (bm ← blkMsgs; (λ m, BlockMessage.mk bm.1 (cidOf m)) <$> vmm bm.2) ∧
  (consistent st →
     consistent st' ∧
     ∀ c, c ∈ Message.Cid <$> msgModels st' ↔
          c ∈ Message.Cid <$> msgModels st ∨
          ∃ blk msgs message, (blk, msgs) ∈ blkMsgs ∧ message ∈ vmm msgs ∧ cidOf message = c).
Proof.
  revert st w. induction blkMsgs as [|[blk msgs] blkMsgs IH]; intros st w; simpl.
  - intros [= <- <-]. rewrite app_nil_r. split; [done|]. intros Hc. split; [done|].
    intros c. split; [auto|]. intros [?|(? & ? & ? & ?%elem_of_nil & _)]; done.
  - intros (done & w1 & [= <- <-] & H)%M_bind_Ok.
    destruct (ctx (ticks w)); [done|].
    apply M_bind_Ok in H as (st1 & w2 & [= Hblk <-] & H).
    apply extractBlock_Ok in Hblk as [Hb1 Hinv1].
    apply IH in H as [Hb Hinv]. split.
    + rewrite Hb, Hb1, <-app_assoc. done.
    + intros Hc. destruct (Hinv1 Hc) as [Hc1 Hiff1].
      destruct (Hinv Hc1) as [Hc' Hiff]. split; [done|].
      intros c. rewrite Hiff, Hiff1. split.
      * intros [[?|(m & -> & Hm)%list_elem_of_fmap]|(b & ms & m & Hin & ?)]; [by left| |].
        -- right. exists blk, msgs, m. split_and!; [left|done|done].
        -- right. exists b, ms, m. split; [by right|done].
      * intros [?|(b & ms & m & [[= -> ->]|Hin]%elem_of_cons & Hm & <-)]; [by left; left| |].
        -- left; right. by apply list_elem_of_fmap_2.
        -- right. eauto 10.
Qed.

Lemma extractBlock_total height blk messages st :
  Forall (λ m, is_Ok (types.Message.Serialize m) = true) messages →
  ∃ st', extractBlock height blk messages st = Ok st'.
Proof.
  intros Hall. revert st. induction Hall as [|m messages Hm _ IH]; intros st; simpl; [eauto|].
  case_decide; [apply IH|].
  destruct (types.Message.Serialize m); [simpl; apply IH|done].
Qed.

(** extractMessageModels returns its result when the context stays live
    during the loop and every message serializes. *)
Lemma extractMessageModels_total {T} ctx ts blkMsgs (w : World T) :
  (∀ n, ctx n = None) →
  Forall (λ bm, Forall (λ m, is_Ok (types.Message.Serialize m) = true) (vmm bm.2)) blkMsgs →
  types.TipSet.Cids ts ≠ [] → types.TipSet.ParentBaseFee ts ≠ 0 →
  ∃ out w', extractMessageModels ctx ts blkMsgs w = (Ok (Returns out), w').
Proof.
  intros Hctx Hall Hcids Hfee. unfold extractMessageModels.
  cut (∀ st w, ∃ st' w',
         extractBlocks (T:=T) ctx (types.TipSet.Height ts) blkMsgs st w = (Ok st', w')).
  { intros Hcut. destruct (Hcut (mkModels [] [] [] ∅ 0 0) w) as (st' & w' & H).
    unfold mbind, M_bind. rewrite H.
    destruct (types.TipSet.Cids ts); [done|]. rewrite decide_False by done. eauto. }
  induction Hall as [|[blk msgs] blkMsgs Hm _ IH]; intros st w0; simpl; [eauto|].
  unfold mbind, M_bind, poll, lift. rewrite Hctx. simpl in Hm.
  destruct (extractBlock_total (types.TipSet.Height ts) blk _ st Hm) as [st1 ->].
  apply IH.
Qed.

(** C7: when extractMessageModels returns its models, the block messages
    are one (block, message) pair for every occurrence of a message in
    every block, block by block in the order of the iteration, and the
    messages hold exactly one entry for every CID that occurs in a block of
    the tipset. *)
Theorem extractMessageModels_pairs_and_unique_messages {T} ctx ts blkMsgs
    (w w' : World T) msgs bmsgs pmsgs econ :
  extractMessageModels ctx ts blkMsgs w = (Ok (Returns (msgs, bmsgs, pmsgs, econ)), w') →
  bmsgs = (bm ← blkMsgs; (λ m, BlockMessage.mk bm.1 (cidOf m)) <$> vmm bm.2) ∧
  NoDup (Message.Cid <$> msgs) ∧
  (∀ c, c ∈ Message.Cid <$> msgs ↔
        ∃ blk blockMsgs message,
          (blk, blockMsgs) ∈ blkMsgs ∧ message ∈ vmm blockMsgs ∧ cidOf message = c).
Proof.
  intros (st & H & [= <- <- <- <-] & _ & _)%extractMessageModels_Returns.
  apply extractBlocks_Ok in H as [Hb Hinv].
  destruct Hinv as [[Hnd _] Hiff].
  { split; [constructor|]. intros c. simpl. set_solver. }
  split_and!; [done|done|].
  intros c. rewrite Hiff. simpl. split; [|by right].
  intros [?%elem_of_nil|?]; done.
Qed.

Lemma extractMessageModels_pairs_and_unique_messages_witness :
  let m1 := sampleMessage "m1" 10 in
  let m2 := sampleMessage "m2" 20 in
  let blkMsgs := [("blkA", api.BlockMessages.mk [m1; m2] [] []);
                  ("blkB", api.BlockMessages.mk [m1] [types.SignedMessage.mk m2 []] [])] in
  let ts := types.TipSet.mk 7 "{blkA,blkB}" ["blkA"; "blkB"] "root" 100 in
  let w := mkWorld (mkTx (T:=unit) ∅ () (λ _, None)) 0 in
  extractMessageModels (λ _, None) ts blkMsgs w =
    (Ok (Returns ([newMessage m1 1; newMessage m2 1],
                  [BlockMessage.mk "blkA" "m1"; BlockMessage.mk "blkA" "m2";
                   BlockMessage.mk "blkB" "m1"; BlockMessage.mk "blkB" "m2"],
                  [ProcessingMessage.mk "m1" 7; ProcessingMessage.mk "m2" 7],
                  MessageGasEconomy.mk "root" 30 60)),
     mkWorld (db w) 2) ∧
  NoDup (Message.Cid <$> [newMessage m1 1; newMessage m2 1]).
Proof.
  intros m1 m2 blkMsgs ts w.
  assert (extractMessageModels (λ _, None) ts blkMsgs w =
    (Ok (Returns ([newMessage m1 1; newMessage m2 1],
                  [BlockMessage.mk "blkA" "m1"; BlockMessage.mk "blkA" "m2";
                   BlockMessage.mk "blkB" "m1"; BlockMessage.mk "blkB" "m2"],
                  [ProcessingMessage.mk "m1" 7; ProcessingMessage.mk "m2" 7],
                  MessageGasEconomy.mk "root" 30 60)),
     mkWorld (db w) 2)) as Hrun by (vm_compute; reflexivity).
  split; [exact Hrun|].
  exact (proj1 (proj2 (extractMessageModels_pairs_and_unique_messages _ _ _ _ _ _ _ _ _ Hrun))).
Defined.

(** *** processBatch *)

Local Ltac destruct_mark :=
  match goal with
  | |- context [MarkTipSetMessagesComplete ?s ?a ?b ?c ?d ?o] =>
      destruct (MarkTipSetMessagesComplete s a b c d o)
  end.

Lemma markComplete_Ok {T} (p : MessageProcessor T) item e w :
  ∃ r w', markComplete p item e w = (Ok r, w').
Proof.
  unfold markComplete. erewrite M_bind_eval by reflexivity.
  unfold onStore. simpl. destruct_mark. eauto.
Qed.

(** On a sound chain source processItem does not panic. *)
Lemma processItem_sound {T} (p : MessageProcessor T) ctx item w w' :
  soundSource (node p) → processItem p ctx item w ≠ (Ok Panics, w').
Proof.
  intros [Hal Hts]. unfold processItem.
  intros (tsk & w1 & _ & (ts & w2 & Hget & (r & H & Hr)%wrapM_inv)%M_bind_Ok)%M_bind_Ok.
  apply wrapM_inv in Hget as (rts & [= <- <-] & Hrts).
  symmetry in Hrts. apply wrapErr_Ok in Hrts. apply Hts in Hrts as [Hcids Hfee].
  symmetry in Hr. apply wrapErr_Ok in Hr as ->.
  unfold processTipSet in H.
  apply M_bind_Ok in H as (blkMsgs & w3 & _ & H).
  apply M_bind_Ok in H as (fetched & w4 & (r2 & H2 & Hr2)%wrapM_inv & H).
  symmetry in Hr2. apply wrapErr_Ok in Hr2 as ->.
  destruct fetched as [rcts|]; [|by apply fetchReceipts_aligned in H2].
  apply M_bind_Ok in H as (extracted & w5 & (r3 & H3 & Hr3)%wrapM_inv & H).
  symmetry in Hr3. apply wrapErr_Ok in Hr3 as ->.
  destruct extracted as [[[[msgs bmsgs] pmsgs] econ]|];
    [|by apply extractMessageModels_sound in H3].
  by apply M_bind_Ok in H as (u & w6 & _ & [=]).
Qed.

(** One round of the loop: an item that failed or succeeded is marked
    with its detail and the loop goes on. *)
Lemma processItems_cons {T} (p : MessageProcessor T) ctx item batch w r w1 :
  ctx (ticks w) = None →
  processItem p ctx item (mkWorld (db w) (S (ticks w))) = (r, w1) →
  r ≠ Ok Panics →
  processItems p ctx (item :: batch) w =
    processItems p ctx batch (markComplete p item (detail r) w1).2.
Proof.
  intros Hctx Hitem Hr. simpl.
  erewrite M_bind_eval by reflexivity. rewrite Hctx.
  erewrite M_bind_eval by (unfold attempt; rewrite Hitem; reflexivity).
  destruct r as [[[]|]|e]; [| done |].
  - destruct (markComplete_Ok p item "" w1) as (r' & w2 & Hmark).
    erewrite M_bind_eval by exact Hmark. simpl. by rewrite Hmark.
  - destruct (markComplete_Ok p item e w1) as (r' & w2 & Hmark).
    erewrite M_bind_eval by exact Hmark. simpl. by rewrite Hmark.
Qed.

(** A panic of processItem ends the loop: the item is not marked and the
    rest of the batch is not processed. *)
Lemma processItems_panic {T} (p : MessageProcessor T) ctx item batch w w1 :
  ctx (ticks w) = None →
  processItem p ctx item (mkWorld (db w) (S (ticks w))) = (Ok Panics, w1) →
  processItems p ctx (item :: batch) w = (Ok Panics, w1).
Proof.
  intros Hctx Hitem. simpl.
  erewrite M_bind_eval by reflexivity. rewrite Hctx.
  by erewrite M_bind_eval by (unfold attempt; rewrite Hitem; reflexivity).
Qed.

Lemma processItems_Ok {T} (p : MessageProcessor T) ctx batch w :
  ∃ o w', processItems p ctx batch w = (Ok o, w').
Proof.
  revert w. induction batch as [|item batch IH]; intros w; [simpl; eauto|].
  destruct (ctx (ticks w)) as [e|] eqn:Hctx.
  - simpl. erewrite M_bind_eval by reflexivity. rewrite Hctx. eauto.
  - destruct (processItem p ctx item (mkWorld (db w) (S (ticks w)))) as [r w1] eqn:Hitem.
    assert (r = Ok Panics ∨ r ≠ Ok Panics) as [->|Hr]
      by (destruct r as [[|]|]; [right|left|right]; done).
    + rewrite (processItems_panic p ctx item batch w w1 Hctx Hitem). eauto.
    + rewrite (processItems_cons p ctx item batch w r w1 Hctx Hitem Hr). apply IH.
Qed.

Lemma processItems_live {T} (p : MessageProcessor T) ctx batch w :
  soundSource (node p) →
  (∀ n, ctx n = None) →
  processItems p ctx batch w =
    (Ok (Returns ()), foldl (λ w item, (completeItem p ctx item w).2) w batch).
Proof.
  intros Hal Hctx. revert w. induction batch as [|item batch IH]; intros w; [done|].
  destruct (processItem p ctx item (mkWorld (db w) (S (ticks w)))) as [r w1] eqn:Hitem.
  assert (r ≠ Ok Panics) as Hr.
  { intros ->. by apply processItem_sound in Hitem. }
  rewrite (processItems_cons p ctx item batch w r w1 (Hctx _) Hitem Hr), IH.
  assert (completeItem p ctx item w = markComplete p item (detail r) w1) as Hc
    by (unfold completeItem; by rewrite Hitem).
  simpl. by rewrite Hc.
Qed.

(** The loop does not panic on a sound chain source. *)
Lemma processItems_sound {T} (p : MessageProcessor T) ctx batch w :
  soundSource (node p) → ∃ w', processItems p ctx batch w = (Ok (Returns ()), w').
Proof.
  intros Hal. revert w. induction batch as [|item batch IH]; intros w; [simpl; eauto|].
  destruct (ctx (ticks w)) as [e|] eqn:Hctx.
  - simpl. erewrite M_bind_eval by reflexivity. rewrite Hctx. eauto.
  - destruct (processItem p ctx item (mkWorld (db w) (S (ticks w)))) as [r w1] eqn:Hitem.
    assert (r ≠ Ok Panics) as Hr.
    { intros ->. by apply processItem_sound in Hitem. }
    rewrite (processItems_cons p ctx item batch w r w1 Hctx Hitem Hr). apply IH.
Qed.

(** processBatch runs the loop on the batch it leased, under the deadline
    of the lease, from the store the lease query left. *)
Lemma processBatch_leased {T} (p : MessageProcessor T) ctx w batch o :
  LeaseTipSetMessages (storage p) (clock p (ticks w) + leaseLength p) (batchSize p)
    (minHeight p) (maxHeight p) (others (db w)) = (Ok batch, o) →
  batch ≠ [] →
  ∃ looped w',
    processItems p (WithDeadline (clock p) ctx (clock p (ticks w) + leaseLength p)) batch
      (mkWorld (mkTx (messages (db w)) o (faults (db w))) (S (ticks w))) = (Ok looped, w') ∧
    processBatch p ctx w =
      (Ok (match looped with Returns _ => Returns (false, None) | Panics => Panics end), w').
Proof.
  intros Hlease Hne.
  match goal with |- context [processItems ?p ?c ?b ?w] =>
    destruct (processItems_Ok p c b w) as (looped & w' & Hloop) end.
  exists looped, w'. split; [done|].
  unfold processBatch, mbind, M_bind, Now, onStore. simpl. rewrite Hlease. simpl.
  destruct batch as [|item batch]; [done|].
  rewrite Hloop. by destruct looped.
Qed.

Lemma processBatch_returns {T} (p : MessageProcessor T) ctx w :
  ∃ o w', processBatch p ctx w = (Ok o, w') ∧
    match o with
    | Returns (done, Some e) =>
        done = true ∧
        (LeaseTipSetMessages (storage p) (clock p (ticks w) + leaseLength p) (batchSize p)
           (minHeight p) (maxHeight p) (others (db w))).1 = Err e
    | Returns (done, None) => done = false
    | Panics => ¬ soundSource (node p)
    end.
Proof.
  unfold processBatch, mbind, M_bind, Now, onStore. simpl.
  destruct (LeaseTipSetMessages _ _ _ _ _ _) as [[batch|e] o] eqn:Hlease; simpl.
  - destruct batch as [|item batch]; [by eexists _, _|].
    match goal with |- context [processItems ?p ?c ?b ?w] =>
      destruct (processItems_Ok p c b w) as (looped & w' & Hloop) end.
    rewrite Hloop. destruct looped; [by eexists _, _|].
    eexists _, _. split; [done|]. intros Hal.
    match type of Hloop with processItems ?p ?c ?b ?w = _ =>
      destruct (processItems_sound p c b w Hal) as [w'' Hret] end.
    congruence.
  - by eexists _, _.
Qed.

Lemma Run_error {T} fuel (p : MessageProcessor T) ctx w e w' :
  Run fuel p ctx w = (Ok (Returns (Some (Some e))), w') →
  (∃ n, ctx n = Some e) ∨
  ∃ claimUntil o,
    (LeaseTipSetMessages (storage p) claimUntil (batchSize p) (minHeight p) (maxHeight p) o).1
      = Err e.
Proof.
  unfold Run. revert w. induction fuel as [|fuel IH]; intros w; simpl; [done|].
  intros (done & w1 & [= <- <-] & H)%M_bind_Ok.
  destruct (ctx (ticks w)) as [e'|] eqn:Hctx.
  { cbv beta delta [mret M_ret] in H. simplify_eq. left. eauto. }
  apply M_bind_Ok in H as (o & w2 & Hbatch & H).
  destruct (processBatch_returns p ctx (mkWorld (db w) (S (ticks w))))
    as (o' & w2' & Hbatch' & Hspec).
  rewrite Hbatch' in Hbatch. injection Hbatch as -> ->.
  destruct o as [[b err]|]; [|done].
  destruct err as [e'|].
  - destruct Hspec as [-> Hlease].
    cbv beta iota delta [mret M_ret] in H. simplify_eq.
    right. eexists _, _. exact Hlease.
  - subst b. by apply IH in H.
Qed.

(** C8: processBatch runs its loop on the batch it leased, under the
    deadline of the lease.  While the context is live, the loop marks the
    item it has processed complete, with the error text of processItem as
    the detail when processItem failed and with the empty detail when it
    returned without an error, and goes on with the rest of the batch in
    both cases; so on a context that stays live and a sound chain source
    every item of the batch is processed and marked in turn.  No error of
    an item leaves the loop: the only error processBatch returns is the
    error of the lease query, and an error returned by Run is that error or
    the error of the context.  The loop is left early only when the context
    is done, or by a panic of processItem, which is not an error and
    happens only on a chain source that is not sound: one that gives a
    block more receipts than parent messages, or a tipset without blocks or
    with a parent base fee of zero. *)
Theorem processBatch_isolates_item_failures {T} (p : MessageProcessor T) :
  (∀ ctx w batch o,
     LeaseTipSetMessages (storage p) (clock p (ticks w) + leaseLength p) (batchSize p)
       (minHeight p) (maxHeight p) (others (db w)) = (Ok batch, o) →
     batch ≠ [] →
     let deadline := WithDeadline (clock p) ctx (clock p (ticks w) + leaseLength p) in
     let leased := mkWorld (mkTx (messages (db w)) o (faults (db w))) (S (ticks w)) in
     (∃ looped w',
        processItems p deadline batch leased = (Ok looped, w') ∧
        processBatch p ctx w =
          (Ok (match looped with Returns _ => Returns (false, None) | Panics => Panics end),
           w')) ∧
     (soundSource (node p) → (∀ n, deadline n = None) →
      processBatch p ctx w =
        (Ok (Returns (false, None)),
         foldl (λ w item, (completeItem p deadline item w).2) leased batch))) ∧
  (∀ ctx item batch w r w1,
     ctx (ticks w) = None →
     processItem p ctx item (mkWorld (db w) (S (ticks w))) = (r, w1) →
     r ≠ Ok Panics →
     processItems p ctx (item :: batch) w =
       processItems p ctx batch (markComplete p item (detail r) w1).2) ∧
  (∀ ctx item batch w w1,
     ctx (ticks w) = None →
     processItem p ctx item (mkWorld (db w) (S (ticks w))) = (Ok Panics, w1) →
     ¬ soundSource (node p) ∧
     processItems p ctx (item :: batch) w = (Ok Panics, w1)) ∧
  (∀ ctx batch w, ∃ o w', processItems p ctx batch w = (Ok o, w')) ∧
  (∀ ctx batch w,
     soundSource (node p) → (∀ n, ctx n = None) →
     processItems p ctx batch w =
       (Ok (Returns ()), foldl (λ w item, (completeItem p ctx item w).2) w batch)) ∧
  (∀ ctx w, ∃ o w',
     processBatch p ctx w = (Ok o, w') ∧
     match o with
     | Returns (done, Some e) =>
         done = true ∧
         (LeaseTipSetMessages (storage p) (clock p (ticks w) + leaseLength p) (batchSize p)
            (minHeight p) (maxHeight p) (others (db w))).1 = Err e
     | Returns (done, None) => done = false
     | Panics => ¬ soundSource (node p)
     end) ∧
  (∀ ctx fuel w e w',
     Run fuel p ctx w = (Ok (Returns (Some (Some e))), w') →
     (∃ n, ctx n = Some e) ∨
     ∃ claimUntil o,
       (LeaseTipSetMessages (storage p) claimUntil (batchSize p) (minHeight p)
          (maxHeight p) o).1 = Err e).
Proof.
  split_and!.
  - intros ctx w batch o Hlease Hne deadline leased.
    destruct (processBatch_leased p ctx w batch o Hlease Hne)
      as (looped & w' & Hloop & Hbatch).
    split; [by exists looped, w'|].
    intros Hsound Hlive. fold deadline leased in Hloop.
    rewrite (processItems_live p deadline batch leased Hsound Hlive) in Hloop.
    injection Hloop as <- <-. exact Hbatch.
  - intros. by apply processItems_cons.
  - intros ctx item batch w w1 Hctx Hitem. split.
    + intros Hal. by apply processItem_sound in Hitem.
    + by apply processItems_panic.
  - intros. apply processItems_Ok.
  - intros. by apply processItems_live.
  - intros. apply processBatch_returns.
  - intros. by eapply Run_error.
Qed.

Lemma processBatch_isolates_item_failures_witness :
  let bad := ProcessingTipSet.mk "bad" 5 in
  let good := ProcessingTipSet.mk "good" 7 in
  let worse := ProcessingTipSet.mk "worse" 9 in
  let p := busyProcessor [bad; good; worse] in
  let ctx : Context := λ _, None in
  let w : World markLog := mkWorld (mkTx ∅ [] (λ _, None)) 0 in
  ∃ w',
    processBatch p ctx w = (Ok (Returns (false, None)), w') ∧
    others (db w') =
      [("bad", 5, 2, "get tipset: tipset not found"); ("good", 7, 10, "");
       ("worse", 9, 12, "get tipset: tipset not found")].
Proof.
  intros bad good worse p ctx w.
  destruct (proj1 (proj1 (processBatch_isolates_item_failures p) ctx w [bad; good; worse] []
                     eq_refl ltac:(discriminate)))
    as (looped & w' & Hloop & Hbatch).
  exists w'. vm_compute in Hloop. injection Hloop as <- <-. split; [exact Hbatch|].
  reflexivity.
Defined.

End messages_props.

Module gapkey_props.
Import gapkey gapkey_spec.

Lemma TrimRight_snoc_brace s : TrimRight (s +:+ "}") "}" = TrimRight s "}".
Proof.
  induction s as [|a s IH]; [done|].
  change (String a s +:+ "}") with (String a (s +:+ "}")).
  cbn [TrimRight]. by rewrite IH.
Qed.

Lemma TrimRight_plain s : contains "}"%char s = false → TrimRight s "}" = s.
Proof.
  induction s as [|a s IH]; [done|]. cbn [contains TrimRight].
  intros [Ha Hs]%orb_false_elim. rewrite (IH Hs).
  destruct s; [|done]. cbn [inCutset]. rewrite orb_false_r.
  apply bool_decide_eq_false in Ha. rewrite bool_decide_eq_false_2; [done|congruence].
Qed.

Lemma TrimLeft_plain s : contains "{"%char s = false → TrimLeft s "{" = s.
Proof.
  destruct s as [|a s]; [done|]. cbn [contains TrimLeft inCutset].
  intros [Ha _]%orb_false_elim. rewrite orb_false_r.
  apply bool_decide_eq_false in Ha. rewrite bool_decide_eq_false_2; [done|congruence].
Qed.

Lemma contains_app a s t : contains a (s +:+ t) = contains a s || contains a t.
Proof.
  induction s as [|b s IH]; [done|].
  change (String b s +:+ t) with (String b (s +:+ t)).
  cbn [contains]. by rewrite IH, orb_assoc.
Qed.

Lemma contains_Join a cids :
  contains a "," = false → Forall (λ c, contains a c = false) cids →
  contains a (Join cids ",") = false.
Proof.
  intros Hsep. induction 1 as [|c cids Hc Hall IH]; [done|].
  cbn [Join]. destruct cids as [|c' cids]; [done|].
  rewrite !contains_app, Hc, Hsep, IH. done.
Qed.

Lemma Split_length s sep : length (Split s sep) = S (count sep s).
Proof.
  induction s as [|a s IH]; [done|]. cbn [Split count].
  case_decide; simpl; [by rewrite IH|].
  destruct (Split s sep); simpl in *; lia.
Qed.

Lemma Split_plain s : contains ","%char s = false → Split s "," = [s].
Proof.
  induction s as [|a s IH]; [done|]. cbn [contains Split].
  intros [Ha Hs]%orb_false_elim. apply bool_decide_eq_false in Ha.
  rewrite decide_False by congruence. by rewrite (IH Hs).
Qed.

Lemma Split_app_sep s t :
  contains ","%char s = false → Split (s +:+ "," +:+ t) "," = s :: Split t ",".
Proof.
  induction s as [|a s IH]; [done|].
  change (String a s +:+ "," +:+ t) with (String a (s +:+ "," +:+ t)).
  cbn [contains Split].
  intros [Ha Hs]%orb_false_elim. apply bool_decide_eq_false in Ha.
  rewrite decide_False by congruence. by rewrite (IH Hs).
Qed.

Lemma Split_Join cids :
  cids ≠ [] → Forall (λ c, contains ","%char c = false) cids →
  Split (Join cids ",") "," = cids.
Proof.
  intros Hne Hall. induction Hall as [|c cids Hc Hall IH]; [done|].
  cbn [Join]. destruct cids as [|c' cids]; [by apply Split_plain|].
  rewrite Split_app_sep by done. f_equal. by apply IH.
Qed.

Lemma decodeTokens_id Decode cids :
  Forall (λ c, Decode c = Ok c) cids → decodeTokens Decode cids = Ok cids.
Proof. induction 1 as [|c cids Hc _ IH]; [done|]. simpl. rewrite Hc. simpl. by rewrite IH. Qed.

Lemma decodeTokens_length Decode tokens key :
  decodeTokens Decode tokens = Ok key → length key = length tokens.
Proof.
  revert key. induction tokens as [|t tokens IH]; simpl; intros key.
  - by intros [= <-].
  - intros (c & _ & (cids & Hc & [= <-])%bind_Ok)%bind_Ok. simpl. by rewrite (IH cids).
Qed.

(** X1: tipSetKeyFromString reads back what a tipset key prints as: for a
    key of at least one CID, where the CIDs hold no brace and no comma and
    cid.Decode reads each of them back, parsing the printed key
    "{c1,...,cn}" gives the key. *)
Theorem tipSetKeyFromString_roundtrip Decode (cids : list string) :
  cids ≠ [] →
  Forall plain cids →
  Forall (λ c, Decode c = Ok c) cids →
  tipSetKeyFromString Decode (TipSetKey_String cids) = Ok cids.
Proof.
  intros Hne Hplain Hdec. unfold tipSetKeyFromString, TipSetKey_String.
  change ("{" +:+ Join cids "," +:+ "}") with (String "{" (Join cids "," +:+ "}")).
  cbn [TrimLeft inCutset]. rewrite bool_decide_eq_true_2 by done. cbn [orb].
  assert (contains "{"%char (Join cids ",") = false) as Hopen.
  { apply contains_Join; [done|]. eapply Forall_impl; [exact Hplain|]. by intros c (? & ? & ?). }
  assert (contains "}"%char (Join cids ",") = false) as Hclose.
  { apply contains_Join; [done|]. eapply Forall_impl; [exact Hplain|]. by intros c (? & ? & ?). }
  rewrite TrimLeft_plain by (by rewrite contains_app, Hopen).
  rewrite TrimRight_snoc_brace, TrimRight_plain by done.
  rewrite Split_Join; [by apply decodeTokens_id|done|].
  eapply Forall_impl; [exact Hplain|]. by intros c (? & ? & ?).
Qed.

Lemma tipSetKeyFromString_roundtrip_witness :
  tipSetKeyFromString decodeBafy "{bafy2bzaceaa,bafy2bzacebb}"
    = Ok ["bafy2bzaceaa"; "bafy2bzacebb"].
Proof.
  apply (tipSetKeyFromString_roundtrip decodeBafy ["bafy2bzaceaa"; "bafy2bzacebb"]).
  - done.
  - repeat constructor.
  - repeat constructor.
Defined.

(** X2: tipSetKeyFromString never returns the empty key: a key it returns
    has one CID more than the trimmed input has commas.  The printed empty
    key "{}" is read as the single token "", so the result is whatever
    cid.Decode makes of the empty string. *)
Theorem tipSetKeyFromString_never_empty Decode tss key :
  tipSetKeyFromString Decode tss = Ok key →
  length key = S (count ","%char (TrimRight (TrimLeft tss "{") "}")) ∧
  key ≠ [] ∧
  tipSetKeyFromString Decode "{}" = (c ← Decode ""; Ok [c]).
Proof.
  unfold tipSetKeyFromString. intros Hkey%decodeTokens_length.
  rewrite Split_length in Hkey. split_and!; [done| |].
  - intros ->. done.
  - vm_compute. by destruct (Decode "").
Qed.

Lemma tipSetKeyFromString_never_empty_witness :
  length ["bafy2bzaceaa"; "bafy2bzacebb"] = 2%nat ∧
  tipSetKeyFromString decodeBafy "{}" = Err "invalid cid".
Proof.
  pose proof (tipSetKeyFromString_never_empty decodeBafy "{bafy2bzaceaa,bafy2bzacebb}"
                ["bafy2bzaceaa"; "bafy2bzacebb"] eq_refl) as (Hlen & _ & Hempty).
  split; [exact Hlen|exact Hempty].
Defined.

(** X3: any number of opening braces in front and of closing braces behind
    is accepted, balanced or not: a further brace on either side does not
    change the result. *)
Theorem tipSetKeyFromString_braces Decode tss :
  tipSetKeyFromString Decode ("{" +:+ tss) = tipSetKeyFromString Decode tss ∧
  tipSetKeyFromString Decode (tss +:+ "}") = tipSetKeyFromString Decode tss.
Proof.
  unfold tipSetKeyFromString. split.
  - change ("{" +:+ tss) with (String "{" tss). cbn [TrimLeft inCutset].
    by rewrite bool_decide_eq_true_2.
  - assert (TrimRight (TrimLeft (tss +:+ "}") "{") "}" = TrimRight (TrimLeft tss "{") "}") as ->;
      [|done].
    induction tss as [|a tss IH]; [done|].
    change (String a tss +:+ "}") with (String a (tss +:+ "}")).
    cbn [TrimLeft]. destruct (inCutset a "{"); [done|].
    change (String a (tss +:+ "}")) with (String a tss +:+ "}").
    apply TrimRight_snoc_brace.
Qed.

End gapkey_props.

Module gapfind_props.
Import visor storage gap gap_spec gap_props indexer_props.

Local Abbreviation height := ProcessingReport.Height.

Lemma last_cons_default {A} (x : A) l : last (x :: l) = Some (default x (last l)).
Proof.
  destruct l as [|y l]; [done|]. rewrite last_cons.
  destruct (last (y :: l)) eqn:E; [done|]. by apply last_None in E.
Qed.

(** The list findEpochGaps sorts. *)
Lemma findEpochGaps_perm first rest :
  descending (first :: rest) →
  Forall (λ r, is_int64 (height r)) (first :: rest) →
  findEpochGaps (first :: rest) ≡ₚ
    scanPairs first rest [] ++ seqZ 0 (height (default first (last rest))).
Proof.
  intros Hdesc Hint. unfold findEpochGaps, sortAscending.
  rewrite merge_sort_Permutation.
  assert (is_int64 (height (default first (last rest)))) as Hold.
  { rewrite Forall_forall in Hint. apply Hint.
    pose proof (last_cons_default first rest) as [l' ->]%last_Some. set_solver. }
  assert (is_int64 0) by (unfold is_int64, min_int64, max_int64; lia).
  rewrite appendRange_seqZ by (done || lia). by rewrite Z.sub_0_r.
Qed.

(** Between two adjacent reports of a descending list lie exactly the
    heights between the last and the first that are no report's height. *)
Lemma between_adjacent_iff first rest h :
  descending (first :: rest) →
  (∃ i p c, (first :: rest) !! i = Some p ∧ (first :: rest) !! S i = Some c ∧
            height p - height c > 1 ∧ height c < h < height p) ↔
  height (default first (last rest)) < h < height first ∧
  h ∉ height <$> (first :: rest).
Proof.
  revert first. induction rest as [|cur rest IH]; intros first Hdesc.
  - simpl. split; [|lia]. intros (i & p & c & _ & Hc & _). by destruct i.
  - apply descending_cons_inv in Hdesc as [Hdesc Hlt].
    pose proof Hlt as [Hcur Hrest]%Forall_cons.
    assert (height (default cur (last rest)) ≤ height cur) as Hlow.
    { destruct (last rest) as [x|] eqn:E; simpl; [|lia].
      pose proof (descending_last cur rest x Hdesc E). lia. }
    assert (default first (last (cur :: rest)) = default cur (last rest)) as ->.
    { rewrite last_cons. by destruct (last rest). }
    assert (∀ x, x ∈ height <$> (cur :: rest) → x ≤ height cur) as Hmax.
    { intros x (r & -> & [->|Hr]%elem_of_cons)%list_elem_of_fmap; [lia|].
      apply descending_cons_inv in Hdesc as [_ Hall].
      rewrite Forall_forall in Hall. specialize (Hall r Hr). lia. }
    specialize (IH cur Hdesc). rewrite fmap_cons, not_elem_of_cons. split.
    + intros (i & p & c & Hp & Hc & Hgap & Hh). destruct i as [|i]; simpl in Hp, Hc.
      * simplify_eq. split; [lia|]. split; [lia|]. intros Hin%Hmax. lia.
      * destruct (proj1 IH) as [Hb Hnot]; [by eauto 10|].
        split; [lia|]. split; [lia|done].
    + intros (Hb & Hne & Hnot).
      destruct (decide (height cur < h)) as [Hhi|Hlo].
      * exists 0%nat, first, cur. simpl. split_and!; (done || lia).
      * assert (h ≠ height cur) by (intros ->; apply Hnot; rewrite fmap_cons; left).
        destruct (proj2 IH) as (i & p & c & Hp & Hc & ?); [split; [lia|done]|].
        exists (S i), p, c. done.
Qed.

Lemma findEpochGaps_elem first rest h :
  descending (first :: rest) →
  Forall (λ r, is_int64 (height r)) (first :: rest) →
  h ∈ findEpochGaps (first :: rest) ↔
    0 ≤ h < height (default first (last rest)) ∨
    (height (default first (last rest)) < h < height first ∧
     h ∉ height <$> (first :: rest)).
Proof.
  intros Hdesc Hint. rewrite findEpochGaps_perm by done.
  rewrite elem_of_app, elem_of_seqZ, scanPairs_elem by done.
  rewrite between_adjacent_iff by done. split.
  - intros [[[]%elem_of_nil|?]|?]; [by right|left; lia].
  - intros [?|?]; [right; lia|left; by right].
Qed.

Lemma scanPairs_length first rest acc :
  descending (first :: rest) →
  Forall (λ r, is_int64 (height r)) (first :: rest) →
  Z.of_nat (length (scanPairs first rest acc))
  = Z.of_nat (length acc) + height first - height (default first (last rest))
    - Z.of_nat (length rest).
Proof.
  revert first acc. induction rest as [|cur rest IH]; intros first acc Hdesc Hint.
  - simpl. lia.
  - apply descending_cons_inv in Hdesc as [Hdesc Hlt].
    apply Forall_cons in Hint as [Hfirst Hint].
    pose proof Hint as [Hcur _]%Forall_cons.
    apply Forall_cons in Hlt as [Hlt _].
    assert (is_int64 (height cur + 1)) as Hc1
      by (unfold is_int64, min_int64, max_int64 in *; lia).
    cbn [scanPairs]. rewrite (int64_wrap_id _ Hc1), appendRange_seqZ by (done || lia).
    rewrite IH by done. rewrite length_app, length_seqZ, Nat2Z.inj_add.
    assert (default first (last (cur :: rest)) = default cur (last rest)) as ->.
    { rewrite last_cons. by destruct (last rest). }
    simpl length. lia.
Qed.

(** X4: for reports with distinct non-negative heights in descending
    order, the candidates of findEpochGaps are exactly the heights from 0
    up to the newest recorded height that have no report; no recorded
    height and no height above the newest report is a candidate, and there
    are (newest height + 1 - number of reports) candidates. *)
Theorem findEpochGaps_complement first rest :
  descending (first :: rest) →
  Forall (λ r, is_int64 (height r)) (first :: rest) →
  0 ≤ height (default first (last rest)) →
  (∀ h, h ∈ findEpochGaps (first :: rest) ↔
        0 ≤ h < height first ∧ h ∉ height <$> (first :: rest)) ∧
  Z.of_nat (length (findEpochGaps (first :: rest)))
    = height first + 1 - Z.of_nat (length (first :: rest)).
Proof.
  intros Hdesc Hint Hnonneg. split.
  - intros h. rewrite findEpochGaps_elem by done.
    assert (∀ x, x ∈ height <$> (first :: rest) →
                 height (default first (last rest)) ≤ x) as Hmin.
    { intros x (r & -> & [->|Hr]%elem_of_cons)%list_elem_of_fmap.
      - destruct (last rest) as [y|] eqn:E; simpl; [|lia].
        pose proof (descending_last first rest y Hdesc E). lia.
      - destruct (last rest) as [y|] eqn:E;
        [|apply last_None in E; subst; by apply elem_of_nil in Hr].
        simpl. apply last_Some in E as [l' ->].
        apply descending_cons_inv in Hdesc as [Hdesc _].
        apply elem_of_app in Hr as [Hr|Hr%list_elem_of_singleton]; [|subst; lia].
        apply StronglySorted_app_1_elem_of with (x1 := r) (x2 := y) in Hdesc;
          [lia|done|by left]. }
    assert (height (default first (last rest)) ∈ height <$> (first :: rest)) as Hin.
    { apply list_elem_of_fmap_2.
      pose proof (last_cons_default first rest) as [l' ->]%last_Some. set_solver. }
    split.
    + intros [?|[? ?]]; [|split; [lia|done]].
      split; [|intros ?%Hmin; lia].
      assert (height (default first (last rest)) ≤ height first); [|lia].
      destruct (last rest) as [y|] eqn:E; simpl; [|lia].
      pose proof (descending_last first rest y Hdesc E). lia.
    + intros [? Hnot].
      destruct (decide (h < height (default first (last rest)))); [left; lia|].
      right. split; [|done].
      assert (h ≠ height (default first (last rest))) by (intros ->; done). lia.
  - rewrite findEpochGaps_perm by done. rewrite length_app, length_seqZ.
    rewrite Nat2Z.inj_add, scanPairs_length by done. simpl length. lia.
Qed.

Lemma findEpochGaps_complement_witness :
  let first := ProcessingReport.mk 4 "messages" "OK" in
  let rest := [ProcessingReport.mk 1 "messages" "OK"] in
  findEpochGaps (first :: rest) = [0; 2; 3] ∧
  Z.of_nat (length (findEpochGaps (first :: rest))) = 4 + 1 - 2.
Proof.
  intros first rest. split; [vm_compute; done|].
  refine (proj2 (findEpochGaps_complement first rest _ _ _)).
  - repeat constructor; simpl; lia.
  - repeat constructor; vm_compute; congruence.
  - simpl. lia.
Defined.

(** *** The sequential-height detector on its store *)

Lemma distinctOnHeight_heights rows r :
  r ∈ rows → ∃ r', r' ∈ distinctOnHeight rows ∧ height r' = height r.
Proof.
  revert r. induction rows as [|x rows IH]; intros r; [by intros ?%elem_of_nil|].
  intros Hr. cbn [distinctOnHeight]. destruct rows as [|y rows].
  - apply list_elem_of_singleton in Hr as ->. exists x. split; [left|done].
  - destruct (Z.eqb_spec (height x) (height y)) as [Heq|Hne].
    + apply elem_of_cons in Hr as [->|Hr]; [|by apply IH].
      destruct (IH y) as (r' & ? & ?); [left|]. exists r'. split; [done|congruence].
    + apply elem_of_cons in Hr as [->|Hr]; [exists x; split; [left|done]|].
      destruct (IH r Hr) as (r' & ? & ?). exists r'. split; [by right|done].
Qed.

Lemma concat_blocks {A B} (P : A → list B → Prop) l blocks g :
  Forall2 P l blocks → g ∈ concat blocks →
  ∃ x block, x ∈ l ∧ P x block ∧ g ∈ block.
Proof.
  induction 1 as [|x block l blocks HP _ IH]; simpl; [by intros ?%elem_of_nil|].
  intros [Hg|Hg]%elem_of_app.
  - exists x, block. split_and!; [left|done|done].
  - destruct (IH Hg) as (x' & block' & ? & ? & ?). exists x', block'.
    split_and!; [by right|done|done].
Qed.

Lemma walkGaps_Err node allTasks reportTime gaps acc gh :
  gh ∈ gaps → is_Ok (lens.ChainGetTipSetByHeight node gh) = false →
  ∃ e, walkGaps node allTasks reportTime gaps acc = Err e.
Proof.
  intros Hin Hgh. revert acc.
  induction Hin as [gh gaps|gh gh' gaps _ IH]; intros acc; simpl.
  - destruct (lens.ChainGetTipSetByHeight node gh); [done|]. simpl. eauto.
  - destruct (lens.ChainGetTipSetByHeight node gh') as [ts|]; simpl; [|eauto].
    destruct (_ =? _); apply IH; done.
Qed.

(** The heights of the records of the sequential-height detector are
    heights of no completion record. *)
Lemma detectProcessingGaps_rows db node allTasks reportTime reports :
  Forall (λ r, is_int64 (height r)) (processing_reports db) →
  detectProcessingGaps db node allTasks reportTime = Ok reports →
  ∀ g, g ∈ reports →
    GapReport.Status g = "GAP" ∧ GapReport.Task g ∈ allTasks ∧
    (∀ r, r ∈ processing_reports db → height r ≠ GapReport.Height g) ∧
    (∃ newest, newest ∈ processing_reports db ∧ GapReport.Height g < height newest).
Proof.
  intros Hint. unfold detectProcessingGaps.
  intros (reportHeights & Hsel%wrapErr_Ok & Hwalk)%bind_Ok.
  destruct (selectReportHeights_descending _ _ Hsel) as [Hdesc Hsub].
  apply walkGaps_blocks in Hwalk as (blocks & -> & Hblocks). simpl.
  intros g (gh & block & Hgh & (ts & Hts & Heq & Hne) & Hg)%(concat_blocks _ _ _ _ Hblocks).
  destruct (decide (types.TipSet.Height ts = gh)) as [Hts'|Hts'];
    [|rewrite (Hne Hts') in Hg; by apply elem_of_nil in Hg].
  rewrite (Heq Hts') in Hg. apply list_elem_of_fmap in Hg as (task & -> & Htask). simpl.
  split_and!; [done|done| |].
  + destruct reportHeights as [|first rest]; [by apply elem_of_nil in Hgh|].
    assert (Forall (λ r, is_int64 (height r)) (first :: rest)) as Hint'.
    { rewrite Forall_forall in Hint |- *. intros x Hx. apply Hint, Hsub, Hx. }
    apply findEpochGaps_elem in Hgh; [|done..].
    intros r Hr Heqh.
    apply exec_Ok in Hsel as [_ Hsel].
    destruct (distinctOnHeight_heights (merge_sort heightDescPR (processing_reports db)) r)
      as (r' & Hr' & Hh); [by rewrite merge_sort_Permutation|].
    rewrite <-Hsel in Hr'.
    assert (gh ∈ height <$> (first :: rest)) as Hin.
    { rewrite <-Heqh, <-Hh. by apply list_elem_of_fmap_2. }
    destruct Hgh as [Hlow|[_ Hnot]]; [|done].
    apply list_elem_of_fmap in Hin as (x & Hx & Hxin).
    assert (height (default first (last rest)) ≤ height x); [|lia].
    destruct (last rest) as [y|] eqn:E.
    * simpl. apply elem_of_cons in Hxin as [->|Hxin].
      -- pose proof (descending_last first rest y Hdesc E). lia.
      -- apply last_Some in E as [l' ->].
         apply descending_cons_inv in Hdesc as [Hdesc' _].
         apply elem_of_app in Hxin as [Hxin|Hxin%list_elem_of_singleton]; [|subst; lia].
         apply StronglySorted_app_1_elem_of with (x1 := x) (x2 := y) in Hdesc';
           [lia|done|by left].
    * apply last_None in E as ->. apply list_elem_of_singleton in Hxin as ->. simpl. lia.
  + destruct reportHeights as [|first rest]; [by apply elem_of_nil in Hgh|].
    assert (Forall (λ r, is_int64 (height r)) (first :: rest)) as Hint'.
    { rewrite Forall_forall in Hint |- *. intros x Hx. apply Hint, Hsub, Hx. }
    apply findEpochGaps_elem in Hgh; [|done..].
    exists first. split; [apply Hsub; left|].
    assert (height (default first (last rest)) ≤ height first).
    { destruct (last rest) as [y|] eqn:E; simpl; [|lia].
      pose proof (descending_last first rest y Hdesc E). lia. }
    destruct Hgh as [?|[? _]]; lia.
Qed.

(** X5: every Gap record the sequential-height detector returns has status
    GAP and a known task, and its height is below the newest recorded
    height and is the height of no completion record of the store; a store
    without completion records gives no Gap record at all. *)
Theorem detectProcessingGaps_only_unrecorded db node allTasks reportTime reports :
  Forall (λ r, is_int64 (height r)) (processing_reports db) →
  detectProcessingGaps db node allTasks reportTime = Ok reports →
  (∀ g, g ∈ reports →
     GapReport.Status g = "GAP" ∧ GapReport.Task g ∈ allTasks ∧
     (∀ r, r ∈ processing_reports db → height r ≠ GapReport.Height g) ∧
     (∃ newest, newest ∈ processing_reports db ∧ GapReport.Height g < height newest)) ∧
  (processing_reports db = [] → reports = []).
Proof.
  intros Hint Hrun. split; [by apply (detectProcessingGaps_rows db node allTasks reportTime)|].
  revert Hrun. unfold detectProcessingGaps.
  intros (reportHeights & [_ ->]%wrapErr_Ok%exec_Ok & Hwalk)%bind_Ok.
  intros Hempty. rewrite Hempty in Hwalk. vm_compute in Hwalk. congruence.
Qed.

Lemma detectProcessingGaps_only_unrecorded_witness :
  let db := mkDatabase [ProcessingReport.mk 2 "messages" "OK";
                        ProcessingReport.mk 1 "messages" "OK"] [] None in
  let node := nodeByHeight (λ h, Ok (tipsetAt h "ts")) in
  detectProcessingGaps db node ["messages"] 9
    = Ok [GapReport.mk 0 "ts" "messages" "GAP" "gapIndexer" 9] ∧
  (processing_reports db = [] → [GapReport.mk 0 "ts" "messages" "GAP" "gapIndexer" 9] = []).
Proof.
  intros db node.
  assert (detectProcessingGaps db node ["messages"] 9
          = Ok [GapReport.mk 0 "ts" "messages" "GAP" "gapIndexer" 9]) as Hrun
    by (vm_compute; reflexivity).
  split; [exact Hrun|].
  refine (proj2 (detectProcessingGaps_only_unrecorded db node ["messages"] 9 _ _ Hrun)).
  repeat constructor; vm_compute; congruence.
Defined.

(** X6: one candidate height the chain source cannot answer makes the
    whole detection fail: no Gap record is returned, also for the
    candidates that were answered. *)
Theorem detectProcessingGaps_chain_error db node allTasks reportTime reportHeights gh :
  selectReportHeights db = Ok reportHeights →
  gh ∈ findEpochGaps reportHeights →
  is_Ok (lens.ChainGetTipSetByHeight node gh) = false →
  ∃ e, detectProcessingGaps db node allTasks reportTime = Err e.
Proof.
  intros Hsel Hgh Herr. unfold detectProcessingGaps. rewrite Hsel. simpl.
  by eapply walkGaps_Err.
Qed.

Lemma detectProcessingGaps_chain_error_witness :
  let db := mkDatabase [ProcessingReport.mk 3 "messages" "OK"] [] None in
  let node := nodeByHeight (λ h, if h =? 1 then Err "lookup failed" else Ok (tipsetAt h "ts")) in
  ∃ e, detectProcessingGaps db node ["messages"] 9 = Err e.
Proof.
  intros db node.
  refine (detectProcessingGaps_chain_error db node ["messages"] 9
            [ProcessingReport.mk 3 "messages" "OK"] 1 _ _ _).
  - vm_compute. reflexivity.
  - vm_compute. set_solver.
  - reflexivity.
Defined.

(** X7: GapIndexer.Run hands the records of both detectors to
    PersistBatch, and no height is reported by both: the skip detector
    reports heights that have a completion record, the sequential-height
    detector heights that have none. *)
Theorem Run_detectors_disjoint db node allTasks heightTime skipTime persistBatch
    heightGaps skipGaps :
  Forall (λ r, is_int64 (height r)) (processing_reports db) →
  detectProcessingGaps db node allTasks heightTime = Ok heightGaps →
  detectSkippedTipSets db node skipTime = Ok skipGaps →
  gaprun.Run db (Ok node) allTasks heightTime skipTime persistBatch
    = persistBatch skipGaps heightGaps db ∧
  ∀ a b, a ∈ heightGaps → b ∈ skipGaps → GapReport.Height a ≠ GapReport.Height b.
Proof.
  intros Hint Hheight Hskip. split.
  - unfold gaprun.Run. simpl. rewrite Hheight, Hskip. done.
  - intros a b Ha Hb Heq.
    destruct (detectProcessingGaps_rows db node allTasks heightTime heightGaps Hint Hheight a Ha)
      as (_ & _ & Hnone & _).
    unfold detectSkippedTipSets in Hskip.
    apply bind_Ok in Hskip as (skipped & Hsel%wrapErr_Ok & Hwalk).
    apply walkSkipped_Ok in Hwalk.
    apply exec_Ok in Hsel as [_ ->].
    apply list_elem_of_lookup in Hb as [i Hb].
    destruct (Forall2_lookup_r _ _ _ _ _ Hwalk Hb) as (r & Hr & ts & _ & ->).
    apply list_elem_of_lookup_2 in Hr. rewrite merge_sort_Permutation in Hr.
    apply list_elem_of_filter in Hr as [_ Hr].
    apply (Hnone r Hr). simpl in Heq. congruence.
Qed.

Lemma Run_detectors_disjoint_witness :
  let db := mkDatabase [ProcessingReport.mk 2 "messages" "OK";
                        ProcessingReport.mk 1 "messages" "SKIP"] [] None in
  let node := nodeByHeight (λ h, Ok (tipsetAt h "ts")) in
  let persistBatch := λ skipGaps heightGaps (d : Database),
    Ok (mkDatabase (processing_reports d) (gap_reports d ++ skipGaps ++ heightGaps) (down d)) in
  gaprun.Run db (Ok node) ["messages"] 9 9 persistBatch
    = Ok (mkDatabase (processing_reports db)
            [GapReport.mk 1 "ts" "messages" "GAP" "gapIndexer" 9;
             GapReport.mk 0 "ts" "messages" "GAP" "gapIndexer" 9] None).
Proof.
  intros db node persistBatch.
  refine (eq_trans (proj1 (Run_detectors_disjoint db node ["messages"] 9 9 persistBatch
            [GapReport.mk 0 "ts" "messages" "GAP" "gapIndexer" 9]
            [GapReport.mk 1 "ts" "messages" "GAP" "gapIndexer" 9] _ _ _)) _).
  - repeat constructor; vm_compute; congruence.
  - vm_compute. reflexivity.
  - vm_compute. reflexivity.
  - reflexivity.
Defined.

End gapfind_props.

Module gapfill_props.
Import visor storage gap gap_spec indexer_props filler_props.

Local Abbreviation pk := GapReport.pk.

Lemma filter_none {A} (P : A → Prop) `{!∀ x, Decision (P x)} (l : list A) :
  (∀ x, x ∈ l → ¬ P x) → filter P l = [].
Proof.
  induction l as [|x l IH]; intros Hall; [done|].
  rewrite filter_cons, decide_False by (apply Hall; left).
  apply IH. intros y Hy. apply Hall. by right.
Qed.



(** X9: a gap is re-driven once.  After a run, the query for open gaps of
    the same filler returns nothing and a second run changes nothing,
    whether the re-drives succeeded or failed (unless an error text is the
    word GAP itself): failed gaps are not retried. *)
Theorem Run_not_retried g c now db' :
  NoDup (pk <$> gap_reports (DB g)) →
  gap.Run g c now = Ok db' →
  (∀ r, r ∈ gap_reports (DB g) → selected g r → redriveError c now r ≠ Some "GAP") →
  queryGaps (mkGapFiller db' (tasks g)) = Ok [] ∧
  ∀ c' now', gap.Run (mkGapFiller db' (tasks g)) c' now' = Ok db'.
Proof.
  intros Hnd Hrun Herr.
  pose proof (Run_gap_reports g c now db' Hnd Hrun) as Hrows.
  assert (down db' = None) as Hdown.
  { apply bind_Ok in Hrun as (gaps & [Hd _]%queryGaps_Ok & Hup). unfold updateGaps in Hup.
    destruct (fillGap c now <$> gaps); [by injection Hup as <-|].
    by apply exec_Ok in Hup as [_ ->]. }
  assert (∀ r', r' ∈ gap_reports db' → ¬ selected (mkGapFiller db' (tasks g)) r') as Hnone.
  { intros r'. rewrite Hrows. intros (r & -> & Hr)%list_elem_of_fmap [Hst Htask].
    simpl in Htask. destruct (decide (selected g r)) as [Hsel|Hsel].
    - rewrite fillGap_Status in Hst. specialize (Herr r Hr Hsel).
      destruct (redriveError c now r) as [e|]; simpl in Hst; [congruence|done].
    - apply Hsel. by split. }
  assert (queryGaps (mkGapFiller db' (tasks g)) = Ok []) as Hq.
  { unfold queryGaps, selectGaps, exec. simpl. rewrite Hdown.
    destruct (tasks g) as [|t ts] eqn:Ht; simpl.
    - assert (filter (λ r, GapReport.Status r = "GAP") (gap_reports db') = []) as ->; [|done].
      apply filter_none. intros r Hr Hst. apply (Hnone r Hr). split; [done|]. by left.
    - assert (filter (λ r, GapReport.Status r = "GAP" ∧ GapReport.Task r ∈ t :: ts)
                (gap_reports db') = []) as ->; [|done].
      apply filter_none. intros r Hr [Hst Htask]. apply (Hnone r Hr).
      split; [done|]. by right. }
  split; [done|]. intros c' now'. unfold gap.Run. rewrite Hq. done.
Qed.

Lemma Run_not_retried_witness :
  let a := GapReport.mk 5 "ts5" "messages" "GAP" "gapIndexer" 7 in
  let db := mkDatabase [] [a] None in
  let c := chain.mkAPI ["messages"] (λ n ts, Ok (chain.mkIndexer n ts))
             (λ _ _ _, Err "boom") in
  let db' := mkDatabase [] [GapReport.setStatus "boom" a] None in
  gap.Run (mkGapFiller db []) c 9 = Ok db' ∧ queryGaps (mkGapFiller db' []) = Ok [].
Proof.
  intros a db c db'.
  assert (gap.Run (mkGapFiller db []) c 9 = Ok db') as Hrun by (vm_compute; reflexivity).
  split; [exact Hrun|].
  refine (proj1 (Run_not_retried (mkGapFiller db []) c 9 db' _ Hrun _)).
  - apply NoDup_singleton.
  - intros r [->|[]%elem_of_nil]%elem_of_cons _. vm_compute. congruence.
Defined.

End gapfill_props.

Module miner_more_props.
Import adt diff miner miner_spec miner_more_spec miner_props.

(** *** The result of the sector loop, change by change *)

Lemma sector_step ch c c1 :
  match Type_ ch with
  | Add => onAdd (Key ch) (After ch) c
  | Remove => onRemove (Key ch) (Before ch) c
  | Modify => onModify (Key ch) (Before ch) (After ch) c
  end = Ok c1 →
  pre c1 = pre c ∧ after c1 = after c ∧ sectorDecodes (pre c) (after c) ch ∧
  SectorChanges.Added (Results c1)
    = SectorChanges.Added (Results c) ++ option_list (addedOf (after c) ch) ∧
  SectorChanges.Removed (Results c1)
    = SectorChanges.Removed (Results c) ++ option_list (removedOf (pre c) ch) ∧
  SectorChanges.Extended (Results c1)
    = SectorChanges.Extended (Results c) ++ option_list (extendedOf (pre c) (after c) ch).
Proof.
  unfold sectorDecodes, addedOf, removedOf, extendedOf. simpl.
  unfold sectorDiffContainer_Add, sectorDiffContainer_Remove, sectorDiffContainer_Modify.
  destruct (Type_ ch); simpl.
  - destruct (decodeSectorOnChainInfo (after c) (After ch)); [|done]. simpl.
    intros [= <-]. simpl. by rewrite !app_nil_r.
  - destruct (decodeSectorOnChainInfo (pre c) (Before ch)); [|done]. simpl.
    intros [= <-]. simpl. by rewrite !app_nil_r.
  - destruct (decodeSectorOnChainInfo (pre c) (Before ch)); [|done]. simpl.
    destruct (decodeSectorOnChainInfo (after c) (After ch)); [|done]. simpl.
    case_decide; intros [= <-]; simpl; by rewrite !app_nil_r.
Qed.

Lemma omap_option_list {A B} (f : A → option B) x l :
  omap f (x :: l) = option_list (f x) ++ omap f l.
Proof. simpl. by destruct (f x). Qed.

Lemma sector_loop changes c c' :
  applyChanges changes c = Ok c' →
  Forall (sectorDecodes (pre c) (after c)) changes ∧
  SectorChanges.Added (Results c')
    = SectorChanges.Added (Results c) ++ omap (addedOf (after c)) changes ∧
  SectorChanges.Removed (Results c')
    = SectorChanges.Removed (Results c) ++ omap (removedOf (pre c)) changes ∧
  SectorChanges.Extended (Results c')
    = SectorChanges.Extended (Results c) ++ omap (extendedOf (pre c) (after c)) changes.
Proof.
  revert c. induction changes as [|ch changes IH]; intros c.
  - intros [= <-]. simpl. by rewrite !app_nil_r.
  - cbn [applyChanges]. intros (c1 & Hstep & Hrest)%bind_Ok.
    apply sector_step in Hstep as (Hp & Ha & Hdec & HA & HR & HE).
    apply IH in Hrest as (Hall & HA' & HR' & HE'). rewrite Hp, Ha in *.
    rewrite !omap_option_list, !app_assoc, <-HA, <-HR, <-HE.
    split_and!; [by constructor|done..].
Qed.

(** X10: the sector change loop turns the changes of the diff engine into
    results one by one and in their order: Added holds the values of the
    Add changes decoded by the current state, Removed the values of the
    Remove changes decoded by the previous state, and Extended the
    Modify changes whose decoded expirations differ.  When the two states
    have the same AMT bitwidth, this is the result of DiffSectors for the
    change list of diff.Amt, whatever the engine. *)
Theorem DiffSectors_result_of_changes e prestate cur pres curs bitwidth changes res :
  sectors prestate = Ok pres → sectors cur = Ok curs →
  SectorsAmtBitwidth (Code prestate) = Ok bitwidth →
  SectorsAmtBitwidth (Code cur) = Ok bitwidth →
  Amt e pres curs bitwidth = Ok changes →
  DiffSectors e prestate cur = Ok res →
  res = SectorChanges.mk (omap (addedOf cur) changes)
                         (omap (extendedOf prestate cur) changes)
                         (omap (removedOf prestate) changes).
Proof.
  intros Hp Hc Hbp Hbc Hamt. unfold DiffSectors. rewrite Hp, Hc, Hbp, Hbc. simpl.
  assert (arrayRequiresLegacyDiffing prestate cur bitwidth bitwidth = false) as ->.
  { apply not_true_is_false. rewrite arrayRequiresLegacyDiffing_iff.
    unfold SectorsAmtBitwidth in Hbp, Hbc.
    repeat case_decide; try done;
      intros [Hm|[Hm|[Hm|[Hm|Hm]]]]; try done; rewrite Hm in *; done. }
  rewrite Hamt. simpl. intros (c & Hloop & [= <-])%bind_Ok.
  apply sector_loop in Hloop as (_ & HA & HR & HE). simpl in *.
  destruct (Results c). simpl in *. by subst.
Qed.

Lemma DiffSectors_result_of_changes_witness :
  let prestate := stateV3 ∅ {[10%N := [x05; x01]; 11%N := [x07; x01]]} in
  let cur := stateV3 ∅ {[10%N := [x09; x01]; 12%N := [x03; x01]]} in
  let changes := [mkChange Modify 10%N [x05; x01] [x09; x01];
                  mkChange Remove 11%N [x07; x01] [];
                  mkChange Add 12%N [] [x03; x01]] in
  let sector e := SectorOnChainInfo.mk 10 "sealed" [] 0 e 1 0 0 in
  let res := SectorChanges.mk [sector 3] [mkSectorExtensions (sector 5) (sector 9)]
               [sector 7] in
  DiffSectors (fixedEngine [] changes) prestate cur = Ok res ∧
  res = SectorChanges.mk (omap (addedOf cur) changes)
                         (omap (extendedOf prestate cur) changes)
                         (omap (removedOf prestate) changes).
Proof.
  intros prestate cur changes sector res.
  assert (DiffSectors (fixedEngine [] changes) prestate cur = Ok res) as Hrun
    by (vm_compute; reflexivity).
  split; [exact Hrun|].
  refine (DiffSectors_result_of_changes (fixedEngine [] changes) prestate cur
            {[10%N := [x05; x01]; 11%N := [x07; x01]]}
            {[10%N := [x09; x01]; 12%N := [x03; x01]]} 5 changes res _ _ _ _ _ Hrun);
    reflexivity.
Defined.

(** *** Which strategy the sector diff runs *)

Lemma SectorsAmtBitwidth_Ok c b :
  SectorsAmtBitwidth c = Ok b →
  (c = builtin0.StorageMinerActorCodeID ∧ b = 3) ∨
  (c = builtin2.StorageMinerActorCodeID ∧ b = 3) ∨
  (c = builtin3.StorageMinerActorCodeID ∧ b = 5) ∨
  (c = builtin4.StorageMinerActorCodeID ∧ b = 5).
Proof.
  unfold SectorsAmtBitwidth. repeat case_decide; intros [= <-]; auto.
  all: try done. all: auto 10.
Qed.

Local Ltac decide_legacy c :=
  first
    [ assert (legacyMinerCode c)
        by (unfold legacyMinerCode; first [left; reflexivity | right; reflexivity])
    | assert (¬ legacyMinerCode c)
        by (unfold legacyMinerCode;
            let Hx := fresh in intros [Hx|Hx]; vm_compute in Hx; discriminate Hx) ].

(** X11: for the actor codes DiffSectors accepts, its guard against
    incompatible containers never fires, and the choice of strategy is the
    comparison of the two AMT bitwidths: the generic diff runs exactly when
    one state is a v0 or v2 miner and the other a v3 or v4 miner, and the
    structural diff runs otherwise, also between two v0 or v2 states. *)
Theorem DiffSectors_strategy_by_bitwidth e prestate cur pres curs bp bc :
  sectors prestate = Ok pres → sectors cur = Ok curs →
  SectorsAmtBitwidth (Code prestate) = Ok bp →
  SectorsAmtBitwidth (Code cur) = Ok bc →
  (bp ≠ bc ↔ (legacyMinerCode (Code prestate) ↔ ¬ legacyMinerCode (Code cur))) ∧
  DiffSectors e prestate cur =
    if decide (bp = bc) then
      changes ← Amt e pres curs bp;
      diffContainer ← applyChanges changes (NewSectorDiffContainer prestate cur);
      Ok (Results diffContainer)
    else
      diffContainer ← GenericArray e _ _ pres curs (NewSectorDiffContainer prestate cur);
      Ok (Results diffContainer).
Proof.
  intros Hp Hc Hbp Hbc. split.
  - apply SectorsAmtBitwidth_Ok in Hbp as [[-> ->]|[[-> ->]|[[-> ->]|[-> ->]]]];
      apply SectorsAmtBitwidth_Ok in Hbc as [[-> ->]|[[-> ->]|[[-> ->]|[-> ->]]]];
      decide_legacy builtin0.StorageMinerActorCodeID;
      decide_legacy builtin2.StorageMinerActorCodeID;
      decide_legacy builtin3.StorageMinerActorCodeID;
      decide_legacy builtin4.StorageMinerActorCodeID;
      (split; intros ?; first [done | tauto | lia]).
  - unfold DiffSectors. rewrite Hp, Hc, Hbp, Hbc. simpl.
    assert (arrayRequiresLegacyDiffing prestate cur bp bc = bool_decide (bp ≠ bc)) as ->.
    { apply SectorsAmtBitwidth_Ok in Hbp as [[Hpc ->]|[[Hpc ->]|[[Hpc ->]|[Hpc ->]]]];
        apply SectorsAmtBitwidth_Ok in Hbc as [[Hcc ->]|[[Hcc ->]|[[Hcc ->]|[Hcc ->]]]];
        unfold arrayRequiresLegacyDiffing; rewrite Hpc, Hcc; reflexivity. }
    destruct (decide (bp = bc)) as [->|Hne].
    + by rewrite bool_decide_eq_false_2 by (intros ?; done).
    + by rewrite bool_decide_eq_true_2.
Qed.

Lemma DiffSectors_strategy_by_bitwidth_witness :
  let prestate := stateOfCode builtin2.StorageMinerActorCodeID in
  let cur := stateOfCode builtin3.StorageMinerActorCodeID in
  DiffSectors tracingEngine prestate cur = Err "generic".
Proof.
  intros prestate cur.
  refine (eq_trans (proj2 (DiffSectors_strategy_by_bitwidth tracingEngine prestate cur
                             ∅ ∅ 3 5 _ _ _ _)) _); reflexivity.
Defined.

(** X12: SectorsAmtBitwidth knows the storage-miner codes of actors v0,
    v2, v3 and v4 and no other; for a state with another actor code (a v5
    miner, say) DiffSectors fails with the unknown-actor-code error of that
    code before it consults the diff engine, the previous state first. *)
Theorem DiffSectors_unknown_actor_code e prestate cur pres curs :
  sectors prestate = Ok pres → sectors cur = Ok curs →
  (∀ c, is_Ok (SectorsAmtBitwidth c) = true ↔ minerCode c) ∧
  (¬ minerCode (Code prestate) →
     DiffSectors e prestate cur = Err ("unknown actor code: " +:+ Code prestate)) ∧
  (minerCode (Code prestate) → ¬ minerCode (Code cur) →
     DiffSectors e prestate cur = Err ("unknown actor code: " +:+ Code cur)).
Proof.
  intros Hp Hc.
  assert (∀ c, ¬ minerCode c → SectorsAmtBitwidth c = Err ("unknown actor code: " +:+ c))
    as Hunknown.
  { intros c Hc'. unfold SectorsAmtBitwidth, minerCode in *.
    repeat case_decide; try done; exfalso; apply Hc'; auto. }
  assert (∀ c, minerCode c → ∃ b, SectorsAmtBitwidth c = Ok b) as Hknown.
  { intros c [Hc'|[Hc'|[Hc'|Hc']]]; rewrite Hc'; eexists; reflexivity. }
  split_and!.
  - intros c. split.
    + intros Hok. destruct (SectorsAmtBitwidth c) as [b|] eqn:Hb; [|done].
      apply SectorsAmtBitwidth_Ok in Hb as [[-> _]|[[-> _]|[[-> _]|[-> _]]]];
        unfold minerCode; auto.
    + intros [b ->]%Hknown. done.
  - intros Hpre. unfold DiffSectors. rewrite Hp, Hc. simpl. by rewrite (Hunknown _ Hpre).
  - intros [b Hb]%Hknown Hcur. unfold DiffSectors. rewrite Hp, Hc, Hb. simpl.
    by rewrite (Hunknown _ Hcur).
Qed.

Lemma DiffSectors_unknown_actor_code_witness :
  DiffSectors tracingEngine (stateOfCode "fil/5/storageminer")
      (stateOfCode builtin4.StorageMinerActorCodeID)
    = Err "unknown actor code: fil/5/storageminer".
Proof.
  refine (proj1 (proj2 (DiffSectors_unknown_actor_code tracingEngine
            (stateOfCode "fil/5/storageminer")
            (stateOfCode builtin4.StorageMinerActorCodeID) ∅ ∅ eq_refl eq_refl)) _).
  intros [H|[H|[H|H]]]; vm_compute in H; discriminate H.
Defined.

(** *** When the change loops fail *)

(** X13: the sector change loop returns a result exactly when every value
    it touches decodes: the new value of every Add with the decoder of the
    current state, the old value of every Remove with the decoder of the
    previous state, and both values of every Modify, also of one whose
    expiration turns out unchanged.  One value that does not decode fails
    the whole diff. *)
Theorem sector_changes_succeed_iff (changes : list (Change N)) (c : sectorDiffContainer) :
  (∃ c', applyChanges changes c = Ok c') ↔
  Forall (sectorDecodes (pre c) (after c)) changes.
Proof.
  split.
  - intros [c' Hloop]. by apply sector_loop in Hloop as [? _].
  - intros Hall. apply sector_applyChanges_total.
    rewrite Forall_forall in Hall. intros ch Hch. apply (Hall ch Hch).
Qed.

Lemma preCommit_loop_decodes (changes : list (Change string)) c c' :
  applyChanges changes c = Ok c' →
  Forall (preCommitDecodes (pc_pre c) (pc_after c)) changes.
Proof.
  revert c. induction changes as [|ch changes IH]; intros c; [constructor|].
  cbn [applyChanges]. intros (c1 & Hstep & Hrest)%bind_Ok.
  assert (pc_pre c1 = pc_pre c ∧ pc_after c1 = pc_after c ∧
          preCommitDecodes (pc_pre c) (pc_after c) ch) as (Hp & Ha & Hdec).
  { revert Hstep. unfold preCommitDecodes. simpl.
    unfold preCommitDiffContainer_Add, preCommitDiffContainer_Remove,
      preCommitDiffContainer_Modify.
    destruct (Type_ ch).
    - destruct (decodeSectorPreCommitOnChainInfo (pc_after c) (After ch)); [|done].
      simpl. by intros [= <-].
    - destruct (decodeSectorPreCommitOnChainInfo (pc_pre c) (Before ch)); [|done].
      simpl. by intros [= <-].
    - by intros [= <-]. }
  apply IH in Hrest. rewrite Hp, Ha in Hrest. by constructor.
Qed.

(** X14: the pre-commit change loop returns a result exactly when the new
    value of every Add and the old value of every Remove decodes; the
    values of a Modify are never decoded, so a changed entry cannot fail
    the pre-commit diff. *)
Theorem preCommit_changes_succeed_iff (changes : list (Change string))
    (c : preCommitDiffContainer) :
  (∃ c', applyChanges changes c = Ok c') ↔
  Forall (preCommitDecodes (pc_pre c) (pc_after c)) changes.
Proof.
  split.
  - intros [c' Hloop]. by eapply preCommit_loop_decodes.
  - intros Hall. apply preCommit_applyChanges_total.
    rewrite Forall_forall in Hall. intros ch Hch. apply (Hall ch Hch).
Qed.

(** X15: unlike the sector diff, the pre-commit diff does guard the v0 and
    v2 miner states: whenever one of the two states is a v0 or v2 miner, or
    the HAMT options of the two states differ, DiffPreCommits runs the
    generic diff and does not consult the structural one; otherwise it runs
    the structural diff, with the options of the previous state. *)
Theorem DiffPreCommits_strategy e mapOptsForActorCode prestate cur prep curp preOpts curOpts :
  precommits prestate = Ok prep → precommits cur = Ok curp →
  mapOptsForActorCode (Code prestate) = Ok preOpts →
  mapOptsForActorCode (Code cur) = Ok curOpts →
  (legacyMinerCode (Code prestate) ∨ legacyMinerCode (Code cur) ∨ preOpts ≠ curOpts →
   DiffPreCommits e mapOptsForActorCode prestate cur =
     (diffContainer ← GenericMap e _ _ prep curp (NewPreCommitDiffContainer prestate cur);
      Ok (pc_Results diffContainer))) ∧
  (¬ (legacyMinerCode (Code prestate) ∨ legacyMinerCode (Code cur) ∨ preOpts ≠ curOpts) →
   DiffPreCommits e mapOptsForActorCode prestate cur =
     (changes ← Hamt e prep curp preOpts;
      diffContainer ← applyChanges changes (NewPreCommitDiffContainer prestate cur);
      Ok (pc_Results diffContainer))).
Proof.
  intros Hp Hc Hpo Hco. unfold DiffPreCommits. rewrite Hp, Hc, Hpo, Hco. simpl.
  split; intros Hcase.
  - apply mapRequiresLegacyDiffing_iff in Hcase. by rewrite Hcase.
  - rewrite <-mapRequiresLegacyDiffing_iff in Hcase.
    apply not_true_is_false in Hcase. by rewrite Hcase.
Qed.

Lemma DiffPreCommits_strategy_witness :
  let prestate := stateOfCode builtin2.StorageMinerActorCodeID in
  let cur := stateOfCode builtin2.StorageMinerActorCodeID in
  DiffPreCommits tracingEngine (λ _, Ok (mkMapOpts 5 "sha256")) prestate cur = Err "generic".
Proof.
  intros prestate cur.
  refine (eq_trans (proj1 (DiffPreCommits_strategy tracingEngine
                             (λ _, Ok (mkMapOpts 5 "sha256")) prestate cur ∅ ∅
                             (mkMapOpts 5 "sha256") (mkMapOpts 5 "sha256") _ _ _ _) _) _);
    [reflexivity..| |reflexivity].
  left. right. reflexivity.
Defined.

End miner_more_props.

Module persist_more_props.
Import messagemodel message message_spec message_more_spec messages_props.

Lemma Message_PersistWithTx_lookup {T} (m : Message.t) (tx tx' : Tx T) c :
  Message_PersistWithTx m tx = Ok tx' →
  messages tx' !! c =
    match messages tx !! c with
    | Some old => Some old
    | None => if decide (Message.Cid m = c) then Some m else None
    end.
Proof.
  unfold Message_PersistWithTx, Insert_OnConflictDoNothing. intros H%wrapErr_Ok.
  destruct (faults tx (Message.Cid m)); [done|].
  destruct (messages tx !! Message.Cid m) as [m0|] eqn:Hm; injection H as <-; simpl.
  - destruct (messages tx !! c) eqn:Hc; [done|]. case_decide; [congruence|done].
  - destruct (decide (Message.Cid m = c)) as [<-|Hne].
    + by rewrite lookup_insert_eq, Hm.
    + rewrite lookup_insert_ne by done. by destruct (messages tx !! c).
Qed.

Lemma Messages_PersistWithTx_lookup {T} ms (tx tx' : Tx T) c :
  Messages_PersistWithTx ms tx = Ok tx' →
  messages tx' !! c =
    match messages tx !! c with
    | Some old => Some old
    | None => firstWithCid c ms
    end.
Proof.
  unfold firstWithCid. revert tx. induction ms as [|m ms IH]; intros tx; simpl.
  - intros [= <-]. by destruct (messages tx !! c).
  - intros (tx1 & H1 & Hrest)%bind_Ok.
    rewrite (IH _ Hrest), (Message_PersistWithTx_lookup _ _ _ c H1).
    rewrite filter_cons.
    destruct (messages tx !! c); [done|]. by case_decide.
Qed.

(** X16: insert-if-absent is first writer wins.  After a message list is
    persisted, a row that was in the table before is unchanged, and a new
    key holds the first message of the list with that CID; later messages
    with the same CID, also with other contents, change nothing.  The other
    tables are not touched. *)
Theorem Messages_PersistWithTx_first_wins {T} ms (tx tx' : Tx T) :
  Messages_PersistWithTx ms tx = Ok tx' →
  (∀ c, messages tx' !! c =
          match messages tx !! c with
          | Some old => Some old
          | None => firstWithCid c ms
          end) ∧
  others tx' = others tx ∧ faults tx' = faults tx.
Proof.
  intros H. split; [intros c; by apply Messages_PersistWithTx_lookup|].
  by apply Messages_PersistWithTx_Ok in H as (? & ? & _).
Qed.

Lemma Messages_PersistWithTx_first_wins_witness :
  let m := Message.mk "bafy2bzacea" "f01" "f02" "0" "100" "1" 1000 64 0 0 [] in
  let m' := Message.mk "bafy2bzacea" "f09" "f02" "5" "100" "1" 1000 64 0 0 [] in
  let tx := mkTx (T:=unit) ∅ () (λ _, None) in
  let tx' := mkTx (T:=unit) {[ "bafy2bzacea" := m ]} () (λ _, None) in
  Messages_PersistWithTx [m; m'] tx = Ok tx' ∧ others tx' = others tx.
Proof.
  intros m m' tx tx'.
  assert (Messages_PersistWithTx [m; m'] tx = Ok tx') as Hrun by (vm_compute; reflexivity).
  split; [exact Hrun|].
  exact (proj1 (proj2 (Messages_PersistWithTx_first_wins [m; m'] tx tx' Hrun))).
Defined.

Lemma Messages_PersistWithTx_Ok_iff {T} ms (tx : Tx T) :
  (∃ tx', Messages_PersistWithTx ms tx = Ok tx') ↔
  ∀ m, m ∈ ms → faults tx (Message.Cid m) = None.
Proof.
  split.
  - intros [tx' H]. apply Messages_PersistWithTx_Ok in H as (_ & _ & Hall & _).
    intros m Hm. by destruct (Hall m Hm).
  - revert tx. induction ms as [|m ms IH]; intros tx Hall; simpl; [eauto|].
    unfold Message_PersistWithTx at 1, Insert_OnConflictDoNothing.
    rewrite (Hall m) by left.
    destruct (messages tx !! Message.Cid m); simpl; apply IH; intros m' Hm';
      simpl; apply Hall; by right.
Qed.

Lemma firstWithCid_Some c ms m :
  firstWithCid c ms = Some m → m ∈ ms ∧ Message.Cid m = c.
Proof.
  unfold firstWithCid. intros Hh%head_Some_elem_of.
  apply list_elem_of_filter in Hh as [? ?]. done.
Qed.

Lemma firstWithCid_None c ms :
  firstWithCid c ms = None → ∀ m, m ∈ ms → Message.Cid m ≠ c.
Proof.
  unfold firstWithCid. intros Hh m Hm Hc.
  apply head_None in Hh. eapply elem_of_nil. rewrite <-Hh.
  apply list_elem_of_filter. done.
Qed.

(** X17: the order of a message list does not matter when messages are
    content-addressed (equal CIDs, equal messages): persisting a
    rearrangement of the list succeeds when persisting the list does, and
    leaves the same store. *)
Theorem Messages_PersistWithTx_order {T} ms ms' (tx tx1 : Tx T) :
  ms ≡ₚ ms' →
  contentAddressed ms →
  Messages_PersistWithTx ms tx = Ok tx1 →
  Messages_PersistWithTx ms' tx = Ok tx1.
Proof.
  intros Hperm Hca H1.
  destruct (proj2 (Messages_PersistWithTx_Ok_iff ms' tx)) as [tx2 H2].
  { intros m Hm. rewrite <-Hperm in Hm.
    by apply (proj1 (Messages_PersistWithTx_Ok_iff ms tx) (ex_intro _ tx1 H1)). }
  rewrite H2. f_equal.
  pose proof (Messages_PersistWithTx_Ok _ _ _ H1) as (Hf1 & Ho1 & _ & _).
  pose proof (Messages_PersistWithTx_Ok _ _ _ H2) as (Hf2 & Ho2 & _ & _).
  destruct tx1 as [msgs1 o1 f1], tx2 as [msgs2 o2 f2]. simpl in *. subst. f_equal.
  apply map_eq. intros c.
  pose proof (Messages_PersistWithTx_lookup _ _ _ c H1) as L1.
  pose proof (Messages_PersistWithTx_lookup _ _ _ c H2) as L2. simpl in *.
  rewrite L1, L2. destruct (messages tx !! c); [done|].
  destruct (firstWithCid c ms') as [a|] eqn:Ea, (firstWithCid c ms) as [b|] eqn:Eb; try done.
  - apply firstWithCid_Some in Ea as [Ha Hca']. apply firstWithCid_Some in Eb as [Hb Hcb].
    f_equal. rewrite <-Hperm in Ha. apply Hca; [done|done|congruence].
  - apply firstWithCid_Some in Ea as [Ha Hca']. rewrite <-Hperm in Ha.
    by destruct (firstWithCid_None _ _ Eb a Ha).
  - apply firstWithCid_Some in Eb as [Hb Hcb]. rewrite Hperm in Hb.
    by destruct (firstWithCid_None _ _ Ea b Hb).
Qed.

Lemma Messages_PersistWithTx_order_witness :
  let a := Message.mk "bafy2bzacea" "f01" "f02" "0" "100" "1" 1000 64 0 0 [] in
  let b := Message.mk "bafy2bzaceb" "f03" "f02" "0" "100" "1" 2000 64 1 0 [] in
  let tx := mkTx (T:=unit) ∅ () (λ _, None) in
  let tx1 := mkTx (T:=unit) {[ "bafy2bzacea" := a; "bafy2bzaceb" := b ]} () (λ _, None) in
  Messages_PersistWithTx [a; b] tx = Ok tx1 ∧ Messages_PersistWithTx [b; a] tx = Ok tx1.
Proof.
  intros a b tx tx1.
  assert (Messages_PersistWithTx [a; b] tx = Ok tx1) as Hrun by (vm_compute; reflexivity).
  split; [exact Hrun|].
  refine (Messages_PersistWithTx_order [a; b] [b; a] tx tx1 _ _ Hrun).
  - apply Permutation_swap.
  - intros m1 m2 [->|[->|[]%elem_of_nil]%elem_of_cons]%elem_of_cons
      [->|[->|[]%elem_of_nil]%elem_of_cons]%elem_of_cons Hc;
      (done || (vm_compute in Hc; discriminate Hc)).
Defined.

End persist_more_props.

Module extract_more_props.
Import messagemodel message message_spec message_more_spec messages_props.

Local Abbreviation gasOf := types.Message.GasLimit.
Local Abbreviation wrapAdd := (λ acc g : Z, int64_wrap (acc + g)).

Lemma int64_sum_snoc l g : int64_sum (l ++ [g]) = int64_wrap (int64_sum l + g).
Proof. unfold int64_sum. by rewrite foldl_app. Qed.

(** Without overflow the wrapped sum is the sum. *)
Lemma foldl_wrapAdd_plain acc l :
  0 ≤ acc → Forall (λ g, 0 ≤ g) l → acc + Zsum l ≤ max_int64 →
  foldl wrapAdd acc l = acc + Zsum l.
Proof.
  revert acc. induction l as [|g l IH]; intros acc Hacc Hall Hmax; simpl in *; [lia|].
  apply Forall_cons in Hall as [Hg Hall].
  assert (0 ≤ Zsum l) by (clear -Hall; induction Hall; simpl; lia).
  rewrite int64_wrap_id by (unfold is_int64, min_int64, max_int64 in *; lia).
  rewrite IH by (done || lia). lia.
Qed.

Lemma Zsum_sublist l1 l2 :
  l1 `sublist_of` l2 → Forall (λ g, 0 ≤ g) l2 → Zsum l1 ≤ Zsum l2 ∧ Forall (λ g, 0 ≤ g) l1.
Proof.
  induction 1 as [|x l1 l2 _ IH|x l1 l2 _ IH]; intros Hall; simpl.
  - split; [lia|constructor].
  - apply Forall_cons in Hall as [Hx Hall]. destruct (IH Hall). split; [lia|by constructor].
  - apply Forall_cons in Hall as [Hx Hall]. destruct (IH Hall). split; [lia|done].
Qed.

Lemma extractBlock_accounted height blk messages seen st st' :
  extractBlock height blk messages st = Ok st' →
  accounted height seen st → accounted height (seen ++ messages) st'.
Proof.
  revert seen st. induction messages as [|m messages IH]; intros seen st; simpl.
  - intros [= <-]. by rewrite app_nil_r.
  - intros Hrun (Hu & Ht & Hsub & Hp & Hfrom).
    replace (seen ++ m :: messages) with ((seen ++ [m]) ++ messages)
      by (by rewrite <-app_assoc).
    destruct (decide (types.Message.Cid m ∈ msgsSeen st)).
    + apply (IH (seen ++ [m])) in Hrun; [done|]. unfold accounted.
      cbn [totalUniqGasLimit totalGasLimit msgModels pmsgModels].
      rewrite fmap_app. cbn [fmap list_fmap].
      rewrite int64_sum_snoc, Hu. split_and!; [done|done| |done|].
      * by apply sublist_inserts_r.
      * intros x (message & b & ? & ? & ?)%Hfrom. exists message, b.
        split_and!; [set_solver|done|done].
    + apply bind_Ok in Hrun as (b & Hser & Hrun).
      apply (IH (seen ++ [m])) in Hrun; [done|]. unfold accounted.
      cbn [totalUniqGasLimit totalGasLimit msgModels pmsgModels].
      rewrite !fmap_app. cbn [fmap list_fmap newMessage Message.GasLimit Message.Cid].
      rewrite !int64_sum_snoc, Hu, Ht, Hp. split_and!; [done|done| |done|].
      * by apply sublist_app.
      * intros x [(message & b' & ? & ? & ?)%Hfrom|Hx%list_elem_of_singleton]%elem_of_app.
        -- exists message, b'. split_and!; [set_solver|done|done].
        -- subst x. exists m, b. split_and!; [set_solver|done|done].
Qed.

Lemma extractBlocks_accounted {T} ctx height blkMsgs seen st (w w' : World T) st' :
  extractBlocks ctx height blkMsgs st w = (Ok st', w') →
  accounted height seen st → accounted height (seen ++ occurrences blkMsgs) st'.
Proof.
  revert seen st w. induction blkMsgs as [|[blk msgs] blkMsgs IH]; intros seen st w; simpl.
  - intros [= <- <-]. unfold occurrences. simpl. by rewrite app_nil_r.
  - intros (done & w1 & [= <- <-] & H)%M_bind_Ok.
    destruct (ctx (ticks w)); [done|].
    apply M_bind_Ok in H as (st1 & w2 & [= Hblk <-] & H).
    intros Hacc. apply (extractBlock_accounted _ _ _ seen) in Hblk; [|done].
    apply (IH _ _ _ H) in Hblk. unfold occurrences in *. simpl.
    by rewrite app_assoc.
Qed.

Lemma extractMessageModels_accounted {T} ctx ts blkMsgs (w w' : World T)
    msgs bmsgs pmsgs econ :
  extractMessageModels ctx ts blkMsgs w = (Ok (Returns (msgs, bmsgs, pmsgs, econ)), w') →
  ∃ st, accounted (types.TipSet.Height ts) (occurrences blkMsgs) st ∧
        msgs = msgModels st ∧ pmsgs = pmsgModels st ∧
        econ = MessageGasEconomy.mk (types.TipSet.ParentState ts)
                 (totalGasLimit st) (totalUniqGasLimit st).
Proof.
  intros (st & H & [= <- <- <- <-] & _ & _)%extractMessageModels_Returns.
  apply (extractBlocks_accounted _ _ _ []) in H; [by exists st|].
  split_and!; try done. intros m ?%elem_of_nil. done.
Qed.

(** X18: of the two gas totals of the gas economy row, GasLimitUniqueTotal
    is the int64 sum of the gas limits of all messages of all blocks, a
    message counted once for every block that holds it, and GasLimitTotal
    is the int64 sum over the distinct messages; with gas limits that are
    not negative and do not overflow, GasLimitTotal is at most
    GasLimitUniqueTotal.  The state root is the parent state of the
    tipset. *)
Theorem extractMessageModels_gas_totals {T} ctx ts blkMsgs (w w' : World T)
    msgs bmsgs pmsgs econ :
  extractMessageModels ctx ts blkMsgs w = (Ok (Returns (msgs, bmsgs, pmsgs, econ)), w') →
  MessageGasEconomy.StateRoot econ = types.TipSet.ParentState ts ∧
  MessageGasEconomy.GasLimitUniqueTotal econ = int64_sum (gasOf <$> occurrences blkMsgs) ∧
  MessageGasEconomy.GasLimitTotal econ = int64_sum (Message.GasLimit <$> msgs) ∧
  (Forall (λ m, 0 ≤ gasOf m) (occurrences blkMsgs) →
   Zsum (gasOf <$> occurrences blkMsgs) ≤ max_int64 →
   MessageGasEconomy.GasLimitUniqueTotal econ = Zsum (gasOf <$> occurrences blkMsgs) ∧
   MessageGasEconomy.GasLimitTotal econ = Zsum (Message.GasLimit <$> msgs) ∧
   MessageGasEconomy.GasLimitTotal econ ≤ MessageGasEconomy.GasLimitUniqueTotal econ).
Proof.
  intros (st & (Hu & Ht & Hsub & _ & _) & -> & -> & ->)%extractMessageModels_accounted.
  simpl. split_and!; [done|done|done|].
  intros Hnonneg Hmax.
  assert (Forall (λ g, 0 ≤ g) (gasOf <$> occurrences blkMsgs)) as Hall
    by (by apply Forall_fmap).
  destruct (Zsum_sublist _ _ Hsub Hall) as [Hle Hall'].
  rewrite Hu, Ht. unfold int64_sum.
  rewrite !foldl_wrapAdd_plain by (done || lia). lia.
Qed.

Lemma extractMessageModels_gas_totals_witness :
  let m1 := sampleMessage "m1" 10 in
  let m2 := sampleMessage "m2" 20 in
  let blkMsgs := [("blkA", api.BlockMessages.mk [m1; m2] [] []);
                  ("blkB", api.BlockMessages.mk [m1] [types.SignedMessage.mk m2 []] [])] in
  let ts := types.TipSet.mk 7 "{blkA,blkB}" ["blkA"; "blkB"] "root" 100 in
  let w := mkWorld (mkTx (T:=unit) ∅ () (λ _, None)) 0 in
  MessageGasEconomy.GasLimitUniqueTotal (MessageGasEconomy.mk "root" 30 60)
    = int64_sum (gasOf <$> occurrences blkMsgs).
Proof.
  intros m1 m2 blkMsgs ts w.
  refine (proj1 (proj2 (extractMessageModels_gas_totals (T:=unit) (λ _, None) ts blkMsgs w
            (mkWorld (db w) 2) [newMessage m1 1; newMessage m2 1]
            [BlockMessage.mk "blkA" "m1"; BlockMessage.mk "blkA" "m2";
             BlockMessage.mk "blkB" "m1"; BlockMessage.mk "blkB" "m2"]
            [ProcessingMessage.mk "m1" 7; ProcessingMessage.mk "m2" 7]
            (MessageGasEconomy.mk "root" 30 60) _))).
  vm_compute. reflexivity.
Defined.

(** X19: every message row extractMessageModels returns is built from a
    message of one of the blocks, with the length of its serialization as
    its size, and the processing messages are the same messages in the
    same order, each with its CID and the height of the tipset. *)
Theorem extractMessageModels_rows {T} ctx ts blkMsgs (w w' : World T)
    msgs bmsgs pmsgs econ :
  extractMessageModels ctx ts blkMsgs w = (Ok (Returns (msgs, bmsgs, pmsgs, econ)), w') →
  pmsgs = (λ m, ProcessingMessage.mk (Message.Cid m) (types.TipSet.Height ts)) <$> msgs ∧
  ∀ m, m ∈ msgs →
    ∃ blk blockMsgs message b,
      (blk, blockMsgs) ∈ blkMsgs ∧ message ∈ vmm blockMsgs ∧
      types.Message.Serialize message = Ok b ∧
      m = newMessage message (Z.of_nat (length b)).
Proof.
  intros (st & (_ & _ & _ & Hp & Hfrom) & -> & -> & ->)%extractMessageModels_accounted.
  split; [done|]. intros m (message & b & Hin & Hser & ->)%Hfrom.
  unfold occurrences in Hin. apply list_elem_of_bind in Hin as ([blk bm] & Hm & Hbm).
  exists blk, bm, message, b. done.
Qed.

Lemma extractMessageModels_rows_witness :
  let m1 := sampleMessage "m1" 10 in
  let blkMsgs := [("blkA", api.BlockMessages.mk [m1] [] []);
                  ("blkB", api.BlockMessages.mk [m1] [] [])] in
  let ts := types.TipSet.mk 7 "{blkA,blkB}" ["blkA"; "blkB"] "root" 100 in
  let w := mkWorld (mkTx (T:=unit) ∅ () (λ _, None)) 0 in
  [ProcessingMessage.mk "m1" 7]
    = (λ m, ProcessingMessage.mk (Message.Cid m) (types.TipSet.Height ts))
        <$> [newMessage m1 1].
Proof.
  intros m1 blkMsgs ts w.
  refine (proj1 (extractMessageModels_rows (T:=unit) (λ _, None) ts blkMsgs w
            (mkWorld (db w) 2) [newMessage m1 1]
            [BlockMessage.mk "blkA" "m1"; BlockMessage.mk "blkB" "m1"]
            [ProcessingMessage.mk "m1" 7]
            (MessageGasEconomy.mk "root" 10 20) _)).
  vm_compute. reflexivity.
Defined.

End extract_more_props.

Module fetch_more_props.
Import messagemodel message message_spec message_more_spec messages_props.

Lemma fetchMessages_entries {T} (p : MessageProcessor T) ctx cids out0 w out w' :
  fetchMessages p ctx cids out0 w = (Ok out, w') →
  dom out = dom out0 ∪ list_to_set cids ∧
  (∀ blk bm, out !! blk = Some bm →
     (blk ∈ cids ∧ lens.ChainGetBlockMessages (node p) blk = Ok bm) ∨
     out0 !! blk = Some bm) ∧
  (∀ i, (i < length cids)%nat → ctx (ticks w + i)%nat = None) ∧
  db w' = db w ∧ ticks w' = (ticks w + length cids)%nat.
Proof.
  revert out0 w. induction cids as [|blk cids IH]; intros out0 w; simpl.
  - intros [= <- <-]. rewrite ?list_to_set_nil, (right_id_L ∅ (∪)).
    split_and!; [done|auto|lia|done|lia].
  - intros (done & w1 & [= <- <-] & H)%M_bind_Ok.
    destruct (ctx (ticks w)) eqn:Hctx; [done|].
    apply M_bind_Ok in H as (bm & w2 & [= Hbm <-] & H).
    apply IH in H as (Hdom & Hlook & Hlive & Hdb & Hticks). simpl in *.
    split_and!.
    + rewrite Hdom, dom_insert_L, ?list_to_set_cons. apply set_eq. intros x.
      rewrite !elem_of_union. tauto.
    + intros b bm' [[Hin Hb]|Hb]%Hlook; [left; split; [by right|done]|].
      destruct (decide (blk = b)) as [->|Hne].
      * rewrite lookup_insert_eq in Hb. injection Hb as <-. left. split; [left|done].
      * rewrite lookup_insert_ne in Hb by done. by right.
    + intros [|i] Hi; [by rewrite Nat.add_0_r|].
      replace (ticks w + S i)%nat with (S (ticks w) + i)%nat by lia. apply Hlive. lia.
    + done.
    + lia.
Qed.

(** X20: when fetchMessages returns, the map has an entry for every block
    CID of the tipset and for nothing else, each entry is what the chain
    source answered for that block, the context was live before every
    fetch, and the store is untouched. *)
Theorem fetchMessages_one_entry_per_block {T} (p : MessageProcessor T) ctx cids w out w' :
  fetchMessages p ctx cids ∅ w = (Ok out, w') →
  dom out = list_to_set cids ∧
  (∀ blk bm, out !! blk = Some bm → lens.ChainGetBlockMessages (node p) blk = Ok bm) ∧
  (∀ i, (i < length cids)%nat → ctx (ticks w + i)%nat = None) ∧
  db w' = db w.
Proof.
  intros (Hdom & Hlook & Hlive & Hdb & _)%fetchMessages_entries.
  split_and!; [|intros blk bm [[_ ?]|?]%Hlook; done|done|done].
  by rewrite Hdom, dom_empty_L, (left_id_L ∅ (∪)).
Qed.

Lemma fetchMessages_one_entry_per_block_witness :
  let p := sampleProcessor [] in
  let w : World markLog := mkWorld (mkTx ∅ [] (λ _, None)) 0 in
  let out : gmap string api.BlockMessages.t :=
    {[ "blkA" := api.BlockMessages.mk [] [] [] ]} in
  dom out = list_to_set ["blkA"].
Proof.
  intros p w out.
  refine (proj1 (fetchMessages_one_entry_per_block p (λ _, None) ["blkA"] w out
                   (mkWorld (db w) 1) _)).
  vm_compute. reflexivity.
Defined.

Lemma receiptsOf_lookup ts recs msgs i r m :
  recs !! i = Some r → msgs !! i = Some m →
  receiptsOf ts recs msgs !! i =
    Some (Receipt.mk (api.Message.Cid m) (types.TipSet.ParentState ts) (Z.of_nat i)
            (types.MessageReceipt.ExitCode r) (types.MessageReceipt.GasUsed r)
            (types.MessageReceipt.Return r)).
Proof.
  intros Hr Hm. unfold receiptsOf. rewrite list_lookup_imap.
  assert (zip recs msgs !! i = Some (r, m)) as ->; [|done].
  apply lookup_zip_with_Some. eauto.
Qed.

(** The inner loop returns exactly when every receipt has its parent
    message, and then appends the rows of the block. *)
Lemma appendReceipts_from ts msgs i recs out out' :
  appendReceipts ts msgs i recs out = Returns out' →
  (recs ≠ [] → (i + length recs ≤ length msgs)%nat) ∧
  out' = out ++
    imap (λ j '(r, m),
            Receipt.mk (api.Message.Cid m) (types.TipSet.ParentState ts) (Z.of_nat (i + j))
              (types.MessageReceipt.ExitCode r) (types.MessageReceipt.GasUsed r)
              (types.MessageReceipt.Return r))
         (zip recs (drop i msgs)).
Proof.
  revert i out. induction recs as [|r recs IH]; intros i out; simpl.
  - intros [= <-]. by rewrite app_nil_r.
  - destruct (msgs !! i) as [m|] eqn:Hm; [|done].
    intros [Hlen ->]%IH. split.
    + intros _. destruct recs as [|r' recs]; simpl in *.
      * apply lookup_lt_Some in Hm. lia.
      * specialize (Hlen ltac:(done)). lia.
    + rewrite (drop_S _ _ _ Hm). simpl. rewrite <-app_assoc. simpl.
      rewrite Nat.add_0_r. do 2 f_equal.
      apply imap_ext. intros j [r' m'] _. simpl. do 2 f_equal. lia.
Qed.

Lemma appendReceipts_Returns ts msgs recs out out' :
  appendReceipts ts msgs 0 recs out = Returns out' →
  (length recs ≤ length msgs)%nat ∧ out' = out ++ receiptsOf ts recs msgs.
Proof.
  intros [Hlen ->]%appendReceipts_from. split.
  - destruct recs; [simpl; lia|]. by apply Hlen.
  - by rewrite drop_0.
Qed.

Lemma fetchReceipts_blocks {T} (p : MessageProcessor T) ctx ts cids out0 w rcts w' :
  fetchReceipts p ctx ts cids out0 w = (Ok (Returns rcts), w') →
  ∃ blocks, rcts = out0 ++ concat blocks ∧
    Forall2 (λ blk block, ∃ recs msgs,
        lens.ChainGetParentReceipts (node p) blk = Ok recs ∧
        lens.ChainGetParentMessages (node p) blk = Ok msgs ∧
        (length recs ≤ length msgs)%nat ∧
        block = receiptsOf ts recs msgs) cids blocks.
Proof.
  revert out0 w. induction cids as [|blk cids IH]; intros out0 w; simpl.
  - intros [= <- <-]. exists []. split; [by rewrite app_nil_r|constructor].
  - intros (done & w1 & [= <- <-] & H)%M_bind_Ok.
    destruct (ctx (ticks w)); [done|].
    apply M_bind_Ok in H as (recs & w2 & [= Hrecs <-] & H).
    apply M_bind_Ok in H as (msgs & w3 & [= Hmsgs <-] & H).
    destruct (appendReceipts ts msgs 0 recs out0) as [out1|] eqn:Hout; [|done].
    apply appendReceipts_Returns in Hout as [Hlen ->].
    apply IH in H as (blocks & -> & Hall).
    exists (receiptsOf ts recs msgs :: blocks). split; [simpl; by rewrite app_assoc|].
    constructor; [eauto 10|done].
Qed.

(** X21: when fetchReceipts returns, every block of the tipset has a
    parent message for each of its receipts, and the receipts are, block
    after block of the tipset, the parent receipts of that block paired
    with its parent messages: one row per receipt, and receipt i of a block
    carries the CID of parent message i, the index i counted from 0 within
    the block, and the parent state root of the tipset.  A block is not
    skipped when another block has the same parents, so a tipset of several
    blocks repeats the receipts. *)
Theorem fetchReceipts_per_block {T} (p : MessageProcessor T) ctx ts cids w rcts w' :
  fetchReceipts p ctx ts cids [] w = (Ok (Returns rcts), w') →
  ∃ blocks, rcts = concat blocks ∧
    Forall2 (λ blk block, ∃ recs msgs,
        lens.ChainGetParentReceipts (node p) blk = Ok recs ∧
        lens.ChainGetParentMessages (node p) blk = Ok msgs ∧
        (length recs ≤ length msgs)%nat ∧
        length block = length recs ∧
        ∀ i r m, recs !! i = Some r → msgs !! i = Some m →
          block !! i =
            Some (Receipt.mk (api.Message.Cid m) (types.TipSet.ParentState ts) (Z.of_nat i)
                    (types.MessageReceipt.ExitCode r) (types.MessageReceipt.GasUsed r)
                    (types.MessageReceipt.Return r))) cids blocks.
Proof.
  intros (blocks & -> & Hall)%fetchReceipts_blocks. exists blocks. split; [done|].
  eapply Forall2_impl; [exact Hall|]. intros blk block (recs & msgs & ? & ? & Hlen & ->).
  exists recs, msgs. split_and!; [done|done|done| |].
  - unfold receiptsOf. rewrite length_imap, length_zip_with. lia.
  - intros. by apply receiptsOf_lookup.
Qed.

Lemma fetchReceipts_per_block_witness :
  let ts := types.TipSet.mk 7 "good" ["blkA"; "blkB"] "root" 100 in
  let w : World markLog := mkWorld (mkTx ∅ [] (λ _, None)) 0 in
  let row := Receipt.mk "msg0" "root" 0 0 5 [] in
  fetchReceipts (busyProcessor []) (λ _, None) ts ["blkA"; "blkB"] [] w
    = (Ok (Returns [row; row]), mkWorld (db w) 2) ∧
  ∃ blocks, [row; row] = concat blocks ∧ length blocks = 2%nat.
Proof.
  intros ts w row.
  assert (fetchReceipts (busyProcessor []) (λ _, None) ts ["blkA"; "blkB"] [] w
            = (Ok (Returns [row; row]), mkWorld (db w) 2)) as Hrun
    by (vm_compute; reflexivity).
  split; [exact Hrun|].
  destruct (fetchReceipts_per_block _ _ _ _ _ _ _ Hrun) as (blocks & Hcat & Hall).
  exists blocks. split; [exact Hcat|]. by rewrite <-(Forall2_length _ _ _ Hall).
Defined.

End fetch_more_props.

(** ** More on processItem and processBatch *)

Module item_more_props.
Import messagemodel message message_spec message_more_spec messages_props.

Local Abbreviation cidOf := types.Message.Cid.

Lemma processItem_Ok {T} (p : MessageProcessor T) ctx item w (u : outcome ()) w' :
  processItem p ctx item w = (Ok u, w') →
  ∃ tsk ts, TipSetKey (storage p) item = Ok tsk ∧
    lens.ChainGetTipSet (node p) tsk = Ok ts ∧
    processTipSet p ctx ts w = (Ok u, w').
Proof.
  unfold processItem. intros (tsk & w1 & H1 & H)%M_bind_Ok.
  apply wrapM_inv in H1 as (r1 & H1 & Hr1). injection H1 as <- <-.
  symmetry in Hr1. apply wrapErr_Ok in Hr1.
  apply M_bind_Ok in H as (ts & w2 & H2 & H).
  apply wrapM_inv in H2 as (r2 & H2 & Hr2). injection H2 as <- <-.
  symmetry in Hr2. apply wrapErr_Ok in Hr2.
  apply wrapM_inv in H as (r3 & H3 & Hr3).
  symmetry in Hr3. apply wrapErr_Ok in Hr3 as ->.
  eauto.
Qed.

Lemma processItem_Err_db {T} (p : MessageProcessor T) ctx item w e w' :
  processItem p ctx item w = (Err e, w') → db w' = db w.
Proof.
  unfold processItem. intros H.
  apply M_bind_inv in H as [(tsk & w1 & (r1 & [= <- <-] & Hr1)%wrapM_inv & H)
                           |(e1 & (r1 & [= <- <-] & Hr1)%wrapM_inv & _)]; [|done].
  apply M_bind_inv in H as [(ts & w2 & (r2 & [= <- <-] & Hr2)%wrapM_inv & H)
                           |(e2 & (r2 & [= <- <-] & Hr2)%wrapM_inv & _)]; [|done].
  apply wrapM_inv in H as (r3 & H3 & Hr3).
  apply processTipSet_store in H3. destruct r3 as [u|e3]; [done|exact H3].
Qed.

Lemma onOthers_messages {T} (f : T → result T) (tx tx' : Tx T) :
  onOthers f tx = Ok tx' → messages tx' = messages tx.
Proof. unfold onOthers. by intros (o & _ & [= <-])%bind_Ok. Qed.

Lemma persistAll_messages {T} (p : MessageProcessor T) mtr pmsgs (tx tx' : Tx T) :
  persistAll p mtr pmsgs tx = Ok tx' →
  messages tx ⊆ messages tx' ∧
  ∀ m, m ∈ Messages mtr → is_Some (messages tx' !! Message.Cid m).
Proof.
  unfold persistAll, MessageTaskResult_PersistWithTx.
  intros (tx3 & Hmtr & (tx4 & H4 & [= <-])%bind_Ok)%bind_Ok.
  apply bind_Ok in Hmtr as (tx1 & H1 & (tx2 & H2 & (tx3' & H3 & [= <-])%bind_Ok)%bind_Ok).
  apply onOthers_messages in H2, H3, H4. rewrite H4, H3, H2.
  apply Messages_PersistWithTx_Ok in H1 as (_ & _ & Hall & Hkeep).
  split.
  - apply map_subseteq_spec. intros c m Hc. rewrite Hkeep; [done|by eexists].
  - intros m Hm. by destruct (Hall m Hm).
Qed.

Lemma extractMessageModels_cids {T} ctx ts blkMsgs (w w' : World T) msgs bmsgs pmsgs econ :
  extractMessageModels ctx ts blkMsgs w = (Ok (Returns (msgs, bmsgs, pmsgs, econ)), w') →
  ∀ blk blockMsgs message,
    (blk, blockMsgs) ∈ blkMsgs → message ∈ vmm blockMsgs →
    cidOf message ∈ Message.Cid <$> msgs.
Proof.
  intros (st & H & [= <- <- <- <-] & _ & _)%extractMessageModels_Returns.
  apply extractBlocks_Ok in H as [_ Hinv].
  destruct Hinv as [_ Hiff].
  { split; [constructor|]. intros c. simpl. set_solver. }
  intros blk blockMsgs message Hin Hm. apply Hiff. right.
  by exists blk, blockMsgs, message.
Qed.

(** X22: when processItem succeeds, the tipset key of the item was decoded,
    the chain source knew the tipset, and the messages table has a row for
    every message, BLS or secp, of every block of that tipset; the rows the
    table had before are unchanged. *)
Theorem processItem_stores_every_message {T} (p : MessageProcessor T) ctx item w w' :
  processItem p ctx item w = (Ok (Returns ()), w') →
  ∃ tsk ts,
    TipSetKey (storage p) item = Ok tsk ∧
    lens.ChainGetTipSet (node p) tsk = Ok ts ∧
    messages (db w) ⊆ messages (db w') ∧
    ∀ blk bm message,
      blk ∈ types.TipSet.Cids ts →
      lens.ChainGetBlockMessages (node p) blk = Ok bm →
      message ∈ vmm bm →
      is_Some (messages (db w') !! cidOf message).
Proof.
  intros (tsk & ts & Htsk & Hts & H)%processItem_Ok.
  exists tsk, ts. split; [done|]. split; [done|].
  apply processTipSet_store in H
    as (blkMsgs & rcts & msgs & bmsgs & pmsgs & econ & w1 & w2 & w3 & Hf & _ & Hx & Hp).
  apply persistAll_messages in Hp as [Hsub Hrows]. split; [done|].
  intros blk bm message Hblk Hbm Hm.
  apply fetch_more_props.fetchMessages_entries in Hf as (Hdom & Hlook & _).
  assert (blkMsgs !! blk = Some bm) as Hentry.
  { assert (blk ∈ dom blkMsgs) as [bm' Hbm']%elem_of_dom.
    { rewrite Hdom, elem_of_union, elem_of_list_to_set. by right. }
    destruct (Hlook _ _ Hbm') as [[_ Heq]|Hempty]; [|by rewrite lookup_empty in Hempty].
    congruence. }
  apply elem_of_map_to_list in Hentry.
  pose proof (extractMessageModels_cids _ _ _ _ _ _ _ _ _ Hx _ _ _ Hentry Hm) as Hc.
  apply list_elem_of_fmap in Hc as (m & -> & Hin). simpl in Hrows. by apply Hrows.
Qed.

Lemma processItem_stores_every_message_witness :
  let item := ProcessingTipSet.mk "good" 7 in
  let old := Message.mk "msg1" "f09" "f08" "5" "100" "1" 10 99 0 0 [] in
  let w : World markLog := mkWorld (mkTx {[ "msg1" := old ]} [] (λ _, None)) 0 in
  processItem (busyProcessor [item]) (λ _, None) item w
    = (Ok (Returns ()), mkWorld (db w) 6) ∧
  is_Some (messages (db w) !! "msg1").
Proof.
  intros item old w.
  assert (processItem (busyProcessor [item]) (λ _, None) item w
            = (Ok (Returns ()), mkWorld (db w) 6))
    as Hrun by (vm_compute; reflexivity).
  split; [exact Hrun|].
  destruct (processItem_stores_every_message _ _ _ _ _ Hrun)
    as (tsk & ts & Htsk & Hts & _ & Hrows).
  injection Htsk as <-. injection Hts as <-.
  apply (Hrows "blkA" (api.BlockMessages.mk [sampleMessage "msg1" 10] [] [])
           (sampleMessage "msg1" 10)).
  - by left.
  - reflexivity.
  - by left.
Defined.

Lemma markComplete_messages {T} (p : MessageProcessor T) item e w r w' :
  markComplete p item e w = (r, w') → messages (db w') = messages (db w).
Proof.
  unfold markComplete, Now, onStore. cbv beta iota delta [mbind M_bind]. simpl.
  destruct (MarkTipSetMessagesComplete _ _ _ _ _ _) as [r0 o]. by intros [= <- <-].
Qed.

Lemma processItem_messages {T} (p : MessageProcessor T) ctx item w r w' :
  processItem p ctx item w = (r, w') → messages (db w) ⊆ messages (db w').
Proof.
  destruct r as [[[]|]|e]; intros H.
  - apply processItem_Ok in H as (tsk & ts & _ & _ & H).
    apply processTipSet_store in H
      as (blkMsgs & rcts & msgs & bmsgs & pmsgs & econ & w1 & w2 & w3 & _ & _ & _ & Hp).
    by apply persistAll_messages in Hp as [Hsub _].
  - apply processItem_Ok in H as (tsk & ts & _ & _ & H).
    apply processTipSet_store in H. by rewrite H.
  - apply processItem_Err_db in H. by rewrite H.
Qed.

Lemma processItems_messages {T} (p : MessageProcessor T) ctx batch w r w' :
  processItems p ctx batch w = (r, w') → messages (db w) ⊆ messages (db w').
Proof.
  revert w. induction batch as [|item batch IH]; intros w; simpl.
  - by intros [= <- <-].
  - intros H. apply M_bind_inv in H as [(done & w1 & [= <- <-] & H)|(e & [=] & _)].
    destruct (ctx (ticks w)); [by injection H as <- <-|].
    apply M_bind_inv in H as [(ri & w2 & Hi & H)|(e & Hi & _)];
      [|unfold attempt in Hi; by destruct (processItem _ _ _ _)].
    unfold attempt in Hi. destruct (processItem _ _ _ _) as [ri' w2'] eqn:Hitem.
    injection Hi as <- <-.
    apply processItem_messages in Hitem. simpl in Hitem.
    assert (∀ e, (markComplete p item e ≫= λ _, processItems p ctx batch) w2' = (r, w') →
                 messages (db w) ⊆ messages (db w')) as Hrest.
    { intros e He. destruct (markComplete_Ok p item e w2') as (rm & w3 & Hm).
      rewrite (M_bind_eval _ _ _ _ _ Hm) in He.
      apply markComplete_messages in Hm. apply IH in He.
      etrans; [exact Hitem|]. by rewrite <-Hm. }
    destruct ri' as [[u|]|e]; [eauto| |eauto].
    injection H as <- <-. done.
Qed.

(** X23: a batch only adds message rows: whatever processBatch returns,
    every row the messages table had before the batch is in the table after
    it, unchanged, also when a message with the same CID was extracted
    again. *)
Theorem processBatch_keeps_message_rows {T} (p : MessageProcessor T) ctx w r w' c m :
  processBatch p ctx w = (r, w') →
  messages (db w) !! c = Some m →
  messages (db w') !! c = Some m.
Proof.
  intros H. revert c m. apply map_subseteq_spec.
  unfold processBatch in H.
  apply M_bind_inv in H as [(now & w1 & [= <- <-] & H)|(e & [=] & _)].
  apply M_bind_inv in H as [(leased & w2 & Hl & H)|(e & Hl & _)].
  - assert (messages (db w2) = messages (db w)) as <-.
    { unfold onStore in Hl. simpl in Hl.
      destruct (LeaseTipSetMessages _ _ _ _ _ _) as [r0 o]. by injection Hl as <- <-. }
    destruct leased as [[|item batch]|e]; try by injection H as <- <-.
    apply M_bind_inv in H as [(u & w3 & Hb & H)|(e & Hb & _)];
      apply processItems_messages in Hb; [|done].
    by destruct u; injection H as <- <-.
  - unfold onStore in Hl. simpl in Hl.
    destruct (LeaseTipSetMessages _ _ _ _ _ _) as [r0 o]. done.
Qed.

Lemma processBatch_keeps_message_rows_witness :
  let item := ProcessingTipSet.mk "good" 7 in
  let old := Message.mk "msg1" "f09" "f08" "5" "100" "1" 10 99 0 0 [] in
  let w : World markLog := mkWorld (mkTx {[ "msg1" := old ]} [] (λ _, None)) 0 in
  let w' : World markLog :=
    mkWorld (mkTx {[ "msg1" := old ]} [("good", 7, 8, "")] (λ _, None)) 9 in
  processBatch (busyProcessor [item]) (λ _, None) w = (Ok (Returns (false, None)), w') ∧
  messages (db w') !! "msg1" = Some old.
Proof.
  intros item old w w'.
  assert (processBatch (busyProcessor [item]) (λ _, None) w = (Ok (Returns (false, None)), w'))
    as Hrun by (vm_compute; reflexivity).
  split; [exact Hrun|].
  refine (processBatch_keeps_message_rows _ _ _ _ _ "msg1" old Hrun _).
  vm_compute. reflexivity.
Defined.

End item_more_props.

(** ** The verified registry extractor *)

Module verifreg_props.
Import verifregmodel verifreg actorstate verifreg_spec.

Lemma foldl_pair_snoc {A B C} (f : A → B) (g : A → C) l bs cs :
  foldl (λ '(bs, cs) a, (bs ++ [f a], cs ++ [g a])) (bs, cs) l
    = (bs ++ (f <$> l), cs ++ (g <$> l)).
Proof.
  revert bs cs. induction l as [|a l IH]; intros bs cs; simpl.
  - by rewrite !app_nil_r.
  - by rewrite IH, <-!app_assoc.
Qed.

Lemma foldl_snoc {A B} (f : A → B) l bs :
  foldl (λ bs a, bs ++ [f a]) bs l = bs ++ (f <$> l).
Proof.
  revert bs. induction l as [|a l IH]; intros bs; simpl.
  - by rewrite app_nil_r.
  - by rewrite IH, <-app_assoc.
Qed.

Section extractor.
Context {Actor State : Type} `{EqDecision State}.
Variable node : ActorStateAPI Actor State.

Lemma ExtractVerifiers_diff (ec : VerifiedRegistryExtractionContext State) :
  HasPreviousState ec = true →
  ExtractVerifiers node ec =
    (changes ← wrapErr "diffing verifier registry verifiers"
                 (DiffVerifiers node (PrevState ec) (CurrState ec));
     Ok ((verifierRow (CurrTs ec) <$> VerifierChanges.Added changes)
           ++ ((λ c, verifierRow (CurrTs ec) (VerifierChange.After c))
                 <$> VerifierChanges.Modified changes),
         (verifierEvent (CurrTs ec) Added <$> VerifierChanges.Added changes)
           ++ (verifierEvent (CurrTs ec) Removed <$> VerifierChanges.Removed changes))).
Proof.
  intros Hprev. unfold ExtractVerifiers. rewrite Hprev. simpl.
  destruct (wrapErr _ _) as [changes|e]; [|done]. simpl.
  by rewrite foldl_pair_snoc, !foldl_snoc.
Qed.

Lemma ExtractVerifiers_all (ec : VerifiedRegistryExtractionContext State) :
  HasPreviousState ec = false →
  ExtractVerifiers node ec =
    (ForEachVerifier node (CurrState ec) ≫= λ entries : list VerifierInfo.t,
     Ok (verifierRow (CurrTs ec) <$> entries, verifierEvent (CurrTs ec) Added <$> entries)).
Proof.
  intros Hprev. unfold ExtractVerifiers. rewrite Hprev. simpl.
  destruct (ForEachVerifier _ _) as [entries|e]; [|done]. simpl.
  by rewrite foldl_pair_snoc.
Qed.

Lemma ExtractVerifiedClients_diff (ec : VerifiedRegistryExtractionContext State) :
  HasPreviousState ec = true →
  ExtractVerifiedClients node ec =
    (changes ← wrapErr "diffing verifier registry clients"
                 (DiffVerifiedClients node (PrevState ec) (CurrState ec));
     Ok ((clientRow (CurrTs ec) <$> VerifierChanges.Added changes)
           ++ ((λ c, clientRow (CurrTs ec) (VerifierChange.After c))
                 <$> VerifierChanges.Modified changes),
         (clientEvent (CurrTs ec) Added <$> VerifierChanges.Added changes)
           ++ (clientEvent (CurrTs ec) Removed <$> VerifierChanges.Removed changes))).
Proof.
  intros Hprev. unfold ExtractVerifiedClients. rewrite Hprev. simpl.
  destruct (wrapErr _ _) as [changes|e]; [|done]. simpl.
  by rewrite foldl_pair_snoc, !foldl_snoc.
Qed.

Lemma ExtractVerifiedClients_all (ec : VerifiedRegistryExtractionContext State) :
  HasPreviousState ec = false →
  ExtractVerifiedClients node ec =
    (ForEachClient node (CurrState ec) ≫= λ entries : list VerifierInfo.t,
     Ok (clientRow (CurrTs ec) <$> entries, clientEvent (CurrTs ec) Added <$> entries)).
Proof.
  intros Hprev. unfold ExtractVerifiedClients. rewrite Hprev. simpl.
  destruct (ForEachClient _ _) as [entries|e]; [|done]. simpl.
  by rewrite foldl_pair_snoc.
Qed.

Lemma HasPreviousState_same prev cur pts cts :
  prev = cur → HasPreviousState (mkContext (State:=State) prev cur pts cts) = false.
Proof.
  intros ->. unfold HasPreviousState. simpl.
  rewrite (bool_decide_eq_true_2 (cur = cur)) by done. by rewrite orb_true_r.
Qed.

(** X24: for an actor at epoch 0, and for an actor that the parent tipset
    does not know, the extractor has no previous state: Extract reports
    every verifier and every client of the current state, in the order
    of the iteration, as a row together with an ADDED event, and does not
    depend on what the diff functions would answer. *)
Theorem Extract_without_parent_state (a : ActorInfo Actor) cur vs cs :
  Epoch a = 0 ∨
    StateGetActor node (Address a) (types.TipSet.Key (ParentTipSet a)) = ErrActorNotFound →
  Load node (Actor_ a) = Ok cur →
  ForEachVerifier node cur = Ok vs →
  ForEachClient node cur = Ok cs →
  Extract a node =
    Ok (mkExtracted (verifierRow (TipSet a) <$> vs) (verifierEvent (TipSet a) Added <$> vs)
          (clientRow (TipSet a) <$> cs) (clientEvent (TipSet a) Added <$> cs)).
Proof.
  intros Hgenesis Hload Hvs Hcs.
  assert (NewVerifiedRegistryExtractorContext a node
            = Ok (mkContext cur cur (ParentTipSet a) (TipSet a))) as Hctx.
  { unfold NewVerifiedRegistryExtractorContext. rewrite Hload. simpl.
    destruct (decide (Epoch a ≠ 0)) as [Hne|_]; [|done].
    destruct Hgenesis as [? | ->]; done. }
  unfold Extract. rewrite Hctx. simpl.
  rewrite ExtractVerifiers_all, ExtractVerifiedClients_all
    by by apply HasPreviousState_same.
  simpl. rewrite Hvs, Hcs. done.
Qed.

(** X25: in what ExtractVerifiers returns, every event is an ADDED or a
    REMOVED event, every ADDED event comes with a verifier row for the
    same address, and every row and event carries the height and the
    parent state root of the current tipset. *)
Theorem ExtractVerifiers_events (ec : VerifiedRegistryExtractionContext State) rows events :
  ExtractVerifiers node ec = Ok (rows, events) →
  (∀ e, e ∈ events →
     (VerifiedRegistryVerifierEvent.Event e = Added ∧
      ∃ r, r ∈ rows ∧
           VerifiedRegistryVerifier.Address r = VerifiedRegistryVerifierEvent.Address e) ∨
     VerifiedRegistryVerifierEvent.Event e = Removed) ∧
  (∀ e, e ∈ events →
     VerifiedRegistryVerifierEvent.Height e = types.TipSet.Height (CurrTs ec) ∧
     VerifiedRegistryVerifierEvent.StateRoot e = types.TipSet.ParentState (CurrTs ec)) ∧
  (∀ r, r ∈ rows →
     VerifiedRegistryVerifier.Height r = types.TipSet.Height (CurrTs ec) ∧
     VerifiedRegistryVerifier.StateRoot r = types.TipSet.ParentState (CurrTs ec)).
Proof.
  destruct (HasPreviousState ec) eqn:Hprev;
    [rewrite ExtractVerifiers_diff by done|rewrite ExtractVerifiers_all by done].
  - intros (changes & _ & [= <- <-])%bind_Ok. split_and!.
    + intros e [(v & -> & Hv)%list_elem_of_fmap|(v & -> & Hv)%list_elem_of_fmap]%elem_of_app;
        [left|by right].
      split; [done|]. exists (verifierRow (CurrTs ec) v). split; [|done].
      apply elem_of_app. left. by apply list_elem_of_fmap_2.
    + by intros e [(v & -> & _)%list_elem_of_fmap|(v & -> & _)%list_elem_of_fmap]%elem_of_app.
    + by intros r [(v & -> & _)%list_elem_of_fmap|(v & -> & _)%list_elem_of_fmap]%elem_of_app.
  - intros (entries & _ & [= <- <-])%bind_Ok. split_and!.
    + intros e (v & -> & Hv)%list_elem_of_fmap. left.
      split; [done|]. exists (verifierRow (CurrTs ec) v). split; [|done].
      by apply list_elem_of_fmap_2.
    + by intros e (v & -> & _)%list_elem_of_fmap.
    + by intros r (v & -> & _)%list_elem_of_fmap.
Qed.

(** X26: in what ExtractVerifiedClients returns, every event is an ADDED
    or a REMOVED event, every ADDED event comes with a client row for the
    same address, and every row and event carries the height and the
    parent state root of the current tipset. *)
Theorem ExtractVerifiedClients_events (ec : VerifiedRegistryExtractionContext State)
    rows events :
  ExtractVerifiedClients node ec = Ok (rows, events) →
  (∀ e, e ∈ events →
     (VerifiedRegistryClientEvent.Event e = Added ∧
      ∃ r, r ∈ rows ∧
           VerifiedRegistryVerifiedClient.Address r = VerifiedRegistryClientEvent.Address e) ∨
     VerifiedRegistryClientEvent.Event e = Removed) ∧
  (∀ e, e ∈ events →
     VerifiedRegistryClientEvent.Height e = types.TipSet.Height (CurrTs ec) ∧
     VerifiedRegistryClientEvent.StateRoot e = types.TipSet.ParentState (CurrTs ec)) ∧
  (∀ r, r ∈ rows →
     VerifiedRegistryVerifiedClient.Height r = types.TipSet.Height (CurrTs ec) ∧
     VerifiedRegistryVerifiedClient.StateRoot r = types.TipSet.ParentState (CurrTs ec)).
Proof.
  destruct (HasPreviousState ec) eqn:Hprev;
    [rewrite ExtractVerifiedClients_diff by done
    |rewrite ExtractVerifiedClients_all by done].
  - intros (changes & _ & [= <- <-])%bind_Ok. split_and!.
    + intros e [(v & -> & Hv)%list_elem_of_fmap|(v & -> & Hv)%list_elem_of_fmap]%elem_of_app;
        [left|by right].
      split; [done|]. exists (clientRow (CurrTs ec) v). split; [|done].
      apply elem_of_app. left. by apply list_elem_of_fmap_2.
    + by intros e [(v & -> & _)%list_elem_of_fmap|(v & -> & _)%list_elem_of_fmap]%elem_of_app.
    + by intros r [(v & -> & _)%list_elem_of_fmap|(v & -> & _)%list_elem_of_fmap]%elem_of_app.
  - intros (entries & _ & [= <- <-])%bind_Ok. split_and!.
    + intros e (v & -> & Hv)%list_elem_of_fmap. left.
      split; [done|]. exists (clientRow (CurrTs ec) v). split; [|done].
      by apply list_elem_of_fmap_2.
    + by intros e (v & -> & _)%list_elem_of_fmap.
    + by intros r (v & -> & _)%list_elem_of_fmap.
Qed.

(** X27: at a current tipset of height 1 the previous state is not
    looked at, whatever it is: ExtractVerifiers returns the verifiers of
    the current state, each with an ADDED event, so a verifier that was
    removed since the previous state gets no REMOVED event and a verifier
    that was there before is reported as ADDED again. *)
Theorem ExtractVerifiers_height_one (ec : VerifiedRegistryExtractionContext State) :
  types.TipSet.Height (CurrTs ec) = 1 →
  ExtractVerifiers node ec =
    (ForEachVerifier node (CurrState ec) ≫= λ entries : list VerifierInfo.t,
     Ok (verifierRow (CurrTs ec) <$> entries, verifierEvent (CurrTs ec) Added <$> entries)).
Proof.
  intros Hone. apply ExtractVerifiers_all.
  unfold HasPreviousState. by rewrite (bool_decide_eq_true_2 _ Hone).
Qed.

End extractor.

Lemma Extract_without_parent_state_witness :
  let a := mkActorInfo "cur" "f06" 5 (sampleTipSet 5 "current") (sampleTipSet 4 "orphan") in
  Extract a sampleAPI =
    Ok (mkExtracted
          [VerifiedRegistryVerifier.mk 5 "root" "f02" "250";
           VerifiedRegistryVerifier.mk 5 "root" "f03" "300"]
          [VerifiedRegistryVerifierEvent.mk 5 "root" "f02" "ADDED";
           VerifiedRegistryVerifierEvent.mk 5 "root" "f03" "ADDED"]
          [VerifiedRegistryVerifiedClient.mk 5 "root" "f012" "20"]
          [VerifiedRegistryClientEvent.mk 5 "root" "f012" "ADDED"]).
Proof.
  intros a.
  refine (Extract_without_parent_state sampleAPI a 2%nat [f02'; f03] [c02] _ _ _ _).
  - right. reflexivity.
  - reflexivity.
  - reflexivity.
  - reflexivity.
Defined.

Lemma ExtractVerifiers_events_witness :
  let ec := mkContext 1%nat 2%nat (sampleTipSet 4 "parent") (sampleTipSet 5 "current") in
  let rows := [VerifiedRegistryVerifier.mk 5 "root" "f03" "300";
               VerifiedRegistryVerifier.mk 5 "root" "f02" "250"] in
  let events := [VerifiedRegistryVerifierEvent.mk 5 "root" "f03" "ADDED";
                 VerifiedRegistryVerifierEvent.mk 5 "root" "f01" "REMOVED"] in
  ExtractVerifiers sampleAPI ec = Ok (rows, events) ∧
  ∀ e, e ∈ events →
    VerifiedRegistryVerifierEvent.Height e = 5 ∧
    VerifiedRegistryVerifierEvent.StateRoot e = "root".
Proof.
  intros ec rows events.
  assert (ExtractVerifiers sampleAPI ec = Ok (rows, events)) as Hrun
    by (vm_compute; reflexivity).
  split; [exact Hrun|].
  exact (proj1 (proj2 (ExtractVerifiers_events sampleAPI ec rows events Hrun))).
Defined.

Lemma ExtractVerifiedClients_events_witness :
  let ec := mkContext 1%nat 2%nat (sampleTipSet 4 "parent") (sampleTipSet 5 "current") in
  let rows := [VerifiedRegistryVerifiedClient.mk 5 "root" "f012" "20"] in
  let events := [VerifiedRegistryClientEvent.mk 5 "root" "f012" "ADDED";
                 VerifiedRegistryClientEvent.mk 5 "root" "f011" "REMOVED"] in
  ExtractVerifiedClients sampleAPI ec = Ok (rows, events) ∧
  ∀ r, r ∈ rows →
    VerifiedRegistryVerifiedClient.Height r = 5 ∧
    VerifiedRegistryVerifiedClient.StateRoot r = "root".
Proof.
  intros ec rows events.
  assert (ExtractVerifiedClients sampleAPI ec = Ok (rows, events)) as Hrun
    by (vm_compute; reflexivity).
  split; [exact Hrun|].
  exact (proj2 (proj2 (ExtractVerifiedClients_events sampleAPI ec rows events Hrun))).
Defined.

Lemma ExtractVerifiers_height_one_witness :
  let ec := mkContext 1%nat 2%nat (sampleTipSet 0 "genesis") (sampleTipSet 1 "first") in
  ExtractVerifiers sampleAPI ec =
    Ok ([VerifiedRegistryVerifier.mk 1 "root" "f02" "250";
         VerifiedRegistryVerifier.mk 1 "root" "f03" "300"],
        [VerifiedRegistryVerifierEvent.mk 1 "root" "f02" "ADDED";
         VerifiedRegistryVerifierEvent.mk 1 "root" "f03" "ADDED"]).
Proof.
  intros ec.
  refine (eq_trans (ExtractVerifiers_height_one sampleAPI ec _) _); reflexivity.
Defined.

End verifreg_props.
